(** * GEjs: Grammatical Evolution in JavaScript -- a shallow embedding

    The definitions below follow [src/GEbrowser.js] function by function.
    JavaScript numbers that the engine manipulates are integers or [NaN];
    arrays are lists; the [Set] of the engine is a list without
    duplicates in insertion order; individuals are heap objects that the
    population and [best_ever] reference by address. *)

From Stdlib Require Import String Ascii ZArith Arith Lia Bool.
From Stdlib Require Import QArith Qround List ListSet Permutation Sorted.
From Equations Require Import Equations.
Import ListNotations.

Local Open Scope nat_scope.
Local Open Scope string_scope.
Local Open Scope list_scope.

(** ** Outcomes of a JavaScript computation *)

(** A call returns a value, throws (the engine only ever throws
    [TypeError] or [RangeError], never catches), or is still running when
    the fuel of the model is spent. *)
Inductive res (A : Type) : Type :=
| Ok (a : A)
| Throw
| OutOfFuel.
Arguments Ok {A} a.
Arguments Throw {A}.
Arguments OutOfFuel {A}.

Definition bind {A B : Type} (m : res A) (k : A -> res B) : res B :=
  match m with
  | Ok a => k a
  | Throw => Throw
  | OutOfFuel => OutOfFuel
  end.

Declare Scope res_scope.
Delimit Scope res_scope with res.
Notation "'let*' x ':=' m 'in' k" := (bind m (fun x => k))
  (at level 61, x pattern, m at next level, right associativity) : res_scope.
Local Open Scope res_scope.

(** ** Numbers *)

(** The integers the engine computes with, and [NaN], which [x % 0] and
    [0 / 0] produce. *)
Inductive jsnum : Type :=
| Num (z : Z)
| NaN.


(** [a % b]: the remainder takes the sign of the dividend. *)
Definition js_rem (a b : jsnum) : jsnum :=
  match a, b with
  | Num x, Num y => if Z.eqb y 0 then NaN else Num (Z.rem x y)
  | _, _ => NaN
  end.

Definition js_add (a b : jsnum) : jsnum :=
  match a, b with
  | Num x, Num y => Num (x + y)
  | _, _ => NaN
  end.

Definition len {A : Type} (l : list A) : jsnum := Num (Z.of_nat (length l)).

(** [arr[i]]: [undefined] (here [None]) outside the array. *)
Definition js_get {A : Type} (arr : list A) (i : jsnum) : option A :=
  match i with
  | Num z => if Z.ltb z 0 then None else nth_error arr (Z.to_nat z)
  | NaN => None
  end.

(** [Array.prototype.slice]: a relative index counts from the end when
    negative, [NaN] counts as 0, and both ends are clamped. *)
Definition rel_index (n : nat) (x : jsnum) : nat :=
  match x with
  | NaN => 0
  | Num z => if Z.ltb z 0 then Z.to_nat (Z.max (Z.of_nat n + z) 0)
             else Nat.min (Z.to_nat z) n
  end.

Definition slice {A : Type} (arr : list A) (start stop : jsnum) : list A :=
  let a := rel_index (length arr) start in
  let b := rel_index (length arr) stop in
  firstn (b - a) (skipn a arr).

(** [arr[i] = v] on an array of numbers: an index inside the array
    replaces the element, an index past the end extends the array (the
    holes read as [undefined], which every arithmetic use turns into
    [NaN]), and [NaN] or a negative index sets a property that is not an
    element. *)
Fixpoint js_set (arr : list jsnum) (i : nat) (v : jsnum) : list jsnum :=
  match i, arr with
  | 0, [] => [v]
  | 0, _ :: t => v :: t
  | S j, [] => NaN :: js_set [] j v
  | S j, h :: t => h :: js_set t j v
  end.

Definition js_put (arr : list jsnum) (i v : jsnum) : list jsnum :=
  match i with
  | Num z => if Z.ltb z 0 then arr else js_set arr (Z.to_nat z) v
  | NaN => arr
  end.

(** ** gcd, lcm, lcmAll *)

(** [gcd = (a, b) => b == 0 ? a : gcd (b, a % b)] on natural numbers. *)
Equations? gcd (a b : nat) : nat by wf b lt :=
  gcd a b with Nat.eq_dec b 0 := {
    | left _ => a
    | right _ => gcd b (a mod b) }.
Proof. apply Nat.mod_upper_bound; assumption. Qed.

(** [lcm = (a, b) => a / gcd (a, b) * b].  The accumulator of [lcmAll]
    starts at 1 and is never negative; it may already be [NaN]: then [gcd (NaN, 0)] is [NaN] and the product is
    [NaN], while [gcd (NaN, b)] for [b <> 0] recurses without end and the
    call stack overflows.  [0 / 0] is [NaN]; every other quotient taken
    here is exact, [gcd a b] dividing [a]. *)
Definition lcm (a : jsnum) (b : nat) : res jsnum :=
  match a with
  | Num x =>
      let g := gcd (Z.to_nat x) b in
      if Nat.eqb g 0 then Ok NaN
      else Ok (Num (Z.of_nat (Z.to_nat x / g * b)))
  | NaN => if Nat.eqb b 0 then Ok NaN else Throw
  end.

(** [lcmAll = (ns) => ns.reduce (lcm, 1)] *)
Definition lcmAll (ns : list nat) : res jsnum :=
  fold_left (fun acc n => let* a := acc in lcm a n) ns (Ok (Num 1)).

(** ** The grammar *)

Definition symbol := string.
Definition production := list symbol.

(** The parsed grammar object, as [Object.entries] enumerates it. *)
Definition rules_obj := list (symbol * list production).

(** [obj[s]] *)
Fixpoint rules_get (obj : rules_obj) (s : symbol) : option (list production) :=
  match obj with
  | [] => None
  | (lhs, rhs) :: rest => if String.eqb lhs s then Some rhs else rules_get rest s
  end.

Fixpoint last_char (s : string) : option ascii :=
  match s with
  | EmptyString => None
  | String c EmptyString => Some c
  | String _ t => last_char t
  end.

(** [sym.startsWith("<") && sym.endsWith(">")] *)
Definition is_bracketed (sym : symbol) : bool :=
  match sym with
  | String c _ => Ascii.eqb c "<"%char
  | EmptyString => false
  end
  &&
  match last_char sym with
  | Some c => Ascii.eqb c ">"%char
  | None => false
  end.

Definition Set_has (s : set string) (x : string) : bool := set_mem string_dec x s.
Definition Set_add (s : set string) (x : string) : set string := set_add string_dec x s.

Definition getTerminals (obj : rules_obj) : set symbol :=
  fold_left (fun s (entry : symbol * list production) =>
    fold_left (fun s prod =>
      fold_left (fun s sym =>
        if negb (is_bracketed sym) then Set_add s sym else s) prod s)
      (snd entry) s)
    obj (empty_set symbol).

Definition getRecursiveNTs (obj : rules_obj) : set symbol :=
  fold_left (fun s (entry : symbol * list production) =>
    let lhs := fst entry in
    let recursive :=
      fold_left (fun rec prod =>
        fold_left (fun rec sym => if String.eqb lhs sym then true else rec) prod rec)
        (snd entry) false in
    if recursive then Set_add s lhs else s)
    obj (empty_set symbol).

Definition getGrammarLCM (obj : rules_obj) : res jsnum :=
  let rule_lengths :=
    fold_left (fun acc (entry : symbol * list production) =>
      acc ++ [length (snd entry)]) obj [] in
  lcmAll rule_lengths.

Record Grammar : Type := {
  rules : rules_obj;
  nonterminals : set symbol;
  terminals : set symbol;
  recursive_NTs : set symbol;
  start_rule : symbol;
  LCM : jsnum
}.

(** [loadGrammar], after the text has been evaluated to the object [obj].
    [start_sym] is the slice of the text from its first "<" to its first
    ">", which the caller reads off the text. *)
Definition loadGrammar (start_sym : symbol) (obj : rules_obj) : res Grammar :=
  let* l := getGrammarLCM obj in
  Ok {| rules := obj;
        nonterminals := fold_left (fun s e => Set_add s (fst e)) obj (empty_set symbol);
        terminals := getTerminals obj;
        recursive_NTs := getRecursiveNTs obj;
        start_rule := start_sym;
        LCM := l |}.

(** ** The genome iterator *)

(** The generator object of [genomeIterator]: the array it closes over and
    its loop counter. *)
Record iter : Type := {
  it_arr : list jsnum;
  it_pos : nat
}.

Definition genomeIterator (g : list jsnum) : iter := {| it_arr := g; it_pos := 0 |}.

(** [it.next()]: [Some (i, g[i])] for [value], [None] when [done]. *)
Definition it_next (it : iter) : option (nat * jsnum) * iter :=
  match nth_error (it_arr it) (it_pos it) with
  | Some c => (Some (it_pos it, c), {| it_arr := it_arr it; it_pos := S (it_pos it) |})
  | None => (None, it)
  end.

(** ** Individuals *)

(** The fitness slot of an individual: a number, [null] until the first
    [tell], or [undefined] when [tell] read past the end of its list. *)
Inductive fit : Type :=
| FNum (z : Z)
| FNull
| FUndef.

(** [[genome, phenotype, used_codons, fitness]] *)
Record individual : Type := {
  ind_genome : list jsnum;
  ind_phenotype : string;
  ind_used : Z;
  ind_fitness : fit
}.

(** ** The mapper *)

Section Mapper.

Variable grammar : Grammar.
Variable maxdepth : nat.
Variable maxcodon : jsnum.

(** [p.indexOf(s) != -1] *)
Definition contains (s : symbol) (p : production) : bool :=
  existsb (String.eqb s) p.

(** The [while] loop at the depth limit.  It starts from the production
    already chosen and returns the altered codon with the production it
    stops at. *)
Fixpoint escape (fuel : nat) (r : list production) (s : symbol)
         (codon : jsnum) (p : option production) {struct fuel}
  : res (jsnum * option production) :=
  match p with
  | None => Throw
  | Some prod =>
      if contains s prod then
        match fuel with
        | 0 => OutOfFuel
        | S fuel' =>
            let codon' := js_rem (js_add codon (Num 1)) maxcodon in
            escape fuel' r s codon' (js_get r (js_rem codon' (len r)))
        end
      else Ok (codon, p)
  end.

(** The [for] loop over the symbols of the chosen production; [self] is
    the recursive call. *)
Fixpoint expand (self : iter -> symbol -> res (option string * iter))
         (syms : list symbol) (d : list string) (it : iter)
  : res (option string * iter) :=
  match syms with
  | [] => Ok (Some (String.concat "" d), it)
  | sym :: rest =>
      if Set_has (terminals grammar) sym then expand self rest (d ++ [sym]) it
      else
        let* r := self it sym in
        match r with
        | (None, it') => Ok (None, it')
        | (Some str, it') => expand self rest (d ++ [str]) it'
        end
  end.

(** [mapGenomeToPhenotype(g, depth, s)], returning the phenotype ([None]
    for [null]) and the iterator as the call leaves it.  [fuel] bounds
    the depth of the recursion and the iterations of each escape loop. *)
Fixpoint mapGenomeToPhenotype (fuel : nat) (g : iter) (depth : nat)
         (s : option symbol) {struct fuel} : res (option string * iter) :=
  match fuel with
  | 0 => OutOfFuel
  | S fuel' =>
      let s := match s with None => start_rule grammar | Some s => s end in
      let r := rules_get (rules grammar) s in
      match it_next g with
      | (None, g1) => Ok (None, g1)
      | (Some (idx, codon), g1) =>
          match r with
          | None => Throw
          | Some r =>
              let p := js_get r (js_rem codon (len r)) in
              let* cp :=
                if Nat.leb maxdepth depth && Set_has (recursive_NTs grammar) s
                then escape fuel' r s codon p
                else Ok (codon, p) in
              match snd cp with
              | None => Throw
              | Some prod =>
                  expand (fun it sym => mapGenomeToPhenotype fuel' it (S depth) (Some sym))
                         prod [] g1
              end
          end
      end
  end.

Definition mapGenomeToIndividual (fuel : nat) (g : list jsnum)
  : res (option individual) :=
  let i := genomeIterator g in
  let* pi := mapGenomeToPhenotype fuel i 0 None in
  match fst pi with
  | None => Ok None
  | Some p =>
      match it_next (snd pi) with
      | (Some (idx, _), i') =>
          Ok (Some {| ind_genome := it_arr i';
                      ind_phenotype := p;
                      ind_used := Z.of_nat idx - 1;
                      ind_fitness := FNull |})
      | (None, _) => Throw
      end
  end.

End Mapper.

(** ** lodash *)

(** The sort criterion of [_.sortBy]: lodash orders numbers first, then
    [null], then [undefined], then [NaN]. *)
Inductive key : Type :=
| KNum (z : Z)
| KNull
| KUndef
| KNaN.

Definition key_rank (k : key) : nat :=
  match k with
  | KNum _ => 0
  | KNull => 1
  | KUndef => 2
  | KNaN => 3
  end.

Definition key_leb (a b : key) : bool :=
  match a, b with
  | KNum x, KNum y => Z.leb x y
  | _, _ => Nat.leb (key_rank a) (key_rank b)
  end.

Fixpoint insert_by {A : Type} (k : A -> key) (x : A) (l : list A) : list A :=
  match l with
  | [] => [x]
  | y :: t => if key_leb (k x) (k y) then x :: y :: t else y :: insert_by k x t
  end.

(** [_.sortBy(arr, [k])]: a new array, ascending by [k], stable. *)
Definition sortBy {A : Type} (k : A -> key) (arr : list A) : list A :=
  fold_right (insert_by k) [] arr.

Fixpoint list_set {A : Type} (l : list A) (i : nat) (x : A) : list A :=
  match l, i with
  | [], _ => []
  | _ :: t, 0 => x :: t
  | h :: t, S j => h :: list_set t j x
  end.

(** The exchange step of lodash's [shuffleSelf]. *)
Definition swap {A : Type} (l : list A) (i j : nat) : list A :=
  match nth_error l i, nth_error l j with
  | Some a, Some b => list_set (list_set l i b) j a
  | _, _ => l
  end.

(** ** The engine *)

(** Individuals live in a heap; the population and [best_ever] hold their
    addresses, so that a fitness written through the population is seen
    through every other reference to the same individual. *)
Definition ref := nat.

(** A fitness function with its [maximise] member.  Fitness values are
    taken to be integers. *)
Record fitness_fn : Type := {
  apply_fitness : string -> Z;
  fn_maximise : bool
}.

(** The function that the constructor installs when [fitness] is
    [null]. *)
Definition dummy : fitness_fn :=
  {| apply_fitness := fun _ => 0%Z; fn_maximise := true |}.

(** [lenmax], one of the fitness functions that come with the engine. *)
Definition lenmax : fitness_fn :=
  {| apply_fitness := fun s => Z.of_nat (String.length s); fn_maximise := true |}.

Record GE : Type := {
  interactive : bool;
  fitness : fitness_fn;
  grammar : Grammar;
  popsize : nat;
  ngens : nat;
  pmut : Q;
  trunc : Q;
  maxdepth : nat;
  genomelength : nat;
  pop : list ref;
  cache : set string;
  maxcodon : jsnum;
  gen : nat;
  best_ever : option ref
}.

(** [this.fitness.maximise] *)
Definition maximise (e : GE) : bool := fn_maximise (fitness e).

(** The engine object, the heap of individuals, and the two random
    sources: the global Mersenne twister [mt] and the [Math.random] that
    lodash draws from.  Each source is the sequence of its raw outputs
    and the number of outputs already taken. *)
Record world : Type := {
  this : GE;
  heap : list individual;
  mt_out : nat -> Z;
  mt_pos : nat;
  lodash_out : nat -> Z;
  lodash_pos : nat
}.

Definition set_this (w : world) (e : GE) : world :=
  {| this := e; heap := heap w; mt_out := mt_out w; mt_pos := mt_pos w;
     lodash_out := lodash_out w; lodash_pos := lodash_pos w |}.

Definition set_heap (w : world) (h : list individual) : world :=
  {| this := this w; heap := h; mt_out := mt_out w; mt_pos := mt_pos w;
     lodash_out := lodash_out w; lodash_pos := lodash_pos w |}.

Definition set_pop (e : GE) (p : list ref) : GE :=
  {| interactive := interactive e; fitness := fitness e; grammar := grammar e;
     popsize := popsize e; ngens := ngens e; pmut := pmut e; trunc := trunc e;
     maxdepth := maxdepth e; genomelength := genomelength e;
     pop := p; cache := cache e; maxcodon := maxcodon e; gen := gen e;
     best_ever := best_ever e |}.

Definition set_cache (e : GE) (c : set string) : GE :=
  {| interactive := interactive e; fitness := fitness e; grammar := grammar e;
     popsize := popsize e; ngens := ngens e; pmut := pmut e; trunc := trunc e;
     maxdepth := maxdepth e; genomelength := genomelength e;
     pop := pop e; cache := c; maxcodon := maxcodon e; gen := gen e;
     best_ever := best_ever e |}.

Definition set_best_ever (e : GE) (b : option ref) : GE :=
  {| interactive := interactive e; fitness := fitness e; grammar := grammar e;
     popsize := popsize e; ngens := ngens e; pmut := pmut e; trunc := trunc e;
     maxdepth := maxdepth e; genomelength := genomelength e;
     pop := pop e; cache := cache e; maxcodon := maxcodon e; gen := gen e;
     best_ever := b |}.

Definition set_gen (e : GE) (n : nat) : GE :=
  {| interactive := interactive e; fitness := fitness e; grammar := grammar e;
     popsize := popsize e; ngens := ngens e; pmut := pmut e; trunc := trunc e;
     maxdepth := maxdepth e; genomelength := genomelength e;
     pop := pop e; cache := cache e; maxcodon := maxcodon e; gen := n;
     best_ever := best_ever e |}.

(** *** The monad of engine methods *)

Definition M (A : Type) : Type := world -> res (A * world).

Definition ret {A : Type} (a : A) : M A := fun w => Ok (a, w).

Definition mbind {A B : Type} (m : M A) (k : A -> M B) : M B :=
  fun w => match m w with
           | Ok (a, w') => k a w'
           | Throw => Throw
           | OutOfFuel => OutOfFuel
           end.

Definition throw {A : Type} : M A := fun _ => Throw.
Definition out_of_fuel {A : Type} : M A := fun _ => OutOfFuel.
Definition lift {A : Type} (r : res A) : M A := fun w => bind r (fun a => Ok (a, w)).
Definition get_this : M GE := fun w => Ok (this w, w).
Definition get_heap : M (list individual) := fun w => Ok (heap w, w).
Definition put_heap (h : list individual) : M unit := fun w => Ok (tt, set_heap w h).

(** [this.pop = p], [this.best_ever = b], [this.cache.add(x)],
    [this.gen = n] *)
Definition assign_pop (p : list ref) : M unit :=
  fun w => Ok (tt, set_this w (set_pop (this w) p)).
Definition assign_best_ever (b : option ref) : M unit :=
  fun w => Ok (tt, set_this w (set_best_ever (this w) b)).
Definition cache_add (x : string) : M unit :=
  fun w => Ok (tt, set_this w (set_cache (this w) (Set_add (cache (this w)) x))).
Definition assign_gen (n : nat) : M unit :=
  fun w => Ok (tt, set_this w (set_gen (this w) n)).

Declare Scope M_scope.
Delimit Scope M_scope with M.
Notation "x <- m ;; k" := (mbind m (fun x => k))
  (at level 61, m at next level, right associativity) : M_scope.
Notation "' pat <- m ;; k" := (mbind m (fun x => match x with pat => k end))
  (at level 61, pat pattern, m at next level, right associativity) : M_scope.
Notation "m ;;; k" := (mbind m (fun _ => k))
  (at level 61, right associativity) : M_scope.
Local Open Scope M_scope.

Fixpoint for_each {A : Type} (l : list A) (body : A -> M unit) : M unit :=
  match l with
  | [] => ret tt
  | x :: t => body x ;;; for_each t body
  end.

(** Reading through a reference.  Every reference the engine holds was
    obtained from [alloc]; an address outside the heap has no counterpart
    in JavaScript and stops the model. *)
Definition deref (r : ref) : M individual :=
  h <- get_heap ;;
  match nth_error h r with
  | Some ind => ret ind
  | None => throw
  end.

Definition alloc (ind : individual) : M ref :=
  h <- get_heap ;;
  put_heap (h ++ [ind]) ;;;
  ret (length h).

Definition with_fitness (ind : individual) (f : fit) : individual :=
  {| ind_genome := ind_genome ind; ind_phenotype := ind_phenotype ind;
     ind_used := ind_used ind; ind_fitness := f |}.

(** [x[3] = f] through the reference [r]. *)
Definition write_fitness (r : ref) (f : fit) : M unit :=
  ind <- deref r ;;
  h <- get_heap ;;
  put_heap (list_set h r (with_fitness ind f)).

(** *** Random sources *)

Definition mt_taken (w : world) : world :=
  {| this := this w; heap := heap w; mt_out := mt_out w; mt_pos := S (mt_pos w);
     lodash_out := lodash_out w; lodash_pos := lodash_pos w |}.

Definition lodash_taken (w : world) : world :=
  {| this := this w; heap := heap w; mt_out := mt_out w; mt_pos := mt_pos w;
     lodash_out := lodash_out w; lodash_pos := S (lodash_pos w) |}.

(** [mt.int()]: the next 32-bit output of the twister. *)
Definition mt_int : M Z :=
  fun w => Ok (Z.modulo (mt_out w (mt_pos w)) 4294967296, mt_taken w).

(** [mt.random()]: the next output scaled into [0, 1). *)
Definition mt_random : M Q :=
  z <- mt_int ;; ret (Qmake z 4294967296).

(** [randrange(n)]: [mt.int() % n]. *)
Definition randrange (n : jsnum) : M jsnum :=
  z <- mt_int ;; ret (js_rem (Num z) n).

(** lodash's [baseRandom(lower, upper)], an integer between the bounds,
    both included. *)
Definition baseRandom (lower upper : nat) : M nat :=
  fun w => Ok (lower + Z.to_nat (Z.modulo (lodash_out w (lodash_pos w))
                                           (Z.of_nat (upper - lower + 1))),
               lodash_taken w).

(** [_.sampleSize(arr, 2)] destructured into two elements: lodash copies
    the array, exchanges position 0 with a random position, position 1
    with a random position from 1 on, and cuts the copy to two elements.
    With fewer than two elements the destructuring pattern meets
    [undefined] and throws. *)
Definition sampleSize2 {A : Type} (arr : list A) : M (A * A) :=
  let n := length arr in
  if Nat.ltb n 2 then throw
  else
    r0 <- baseRandom 0 (n - 1) ;;
    let arr1 := swap arr r0 0 in
    r1 <- baseRandom 1 (n - 1) ;;
    let arr2 := swap arr1 r1 1 in
    match arr2 with
    | a :: b :: _ => ret (a, b)
    | _ => throw
    end.

(** *** Genetic operators *)

Fixpoint random_ind_loop (n : nat) (mc : jsnum) (ind : list jsnum) : M (list jsnum) :=
  match n with
  | 0 => ret ind
  | S n' => c <- randrange mc ;; random_ind_loop n' mc (ind ++ [c])
  end.

Definition random_ind : M (list jsnum) :=
  e <- get_this ;;
  random_ind_loop (genomelength e) (maxcodon e) [].

Definition mutate (g : list jsnum) (c : Z) : M (list jsnum) :=
  e <- get_this ;;
  idx <- randrange (Num c) ;;
  v <- randrange (maxcodon e) ;;
  ret (js_put g idx v).

(** The two children of [crossover] for the cut point [idx]. *)
Definition crossover_at (g0 g1 : list jsnum) (idx : jsnum)
  : list jsnum * list jsnum :=
  (slice g0 (Num 0) idx ++ slice g1 idx (len g1),
   slice g1 (Num 0) idx ++ slice g0 idx (len g0)).

Definition crossover (g0 g1 : list jsnum) (c0 c1 : Z)
  : M (list jsnum * list jsnum) :=
  let c := Z.min c0 c1 in
  idx <- randrange (Num c) ;;
  ret (crossover_at g0 g1 idx).

(** *** Populations *)

Definition mapAndTryAddIndToPop (fuel : nat) (g : list jsnum) (pop : list ref)
  : M (list ref) :=
  e <- get_this ;;
  ind <- lift (mapGenomeToIndividual (grammar e) (maxdepth e) (maxcodon e) fuel g) ;;
  match ind with
  | None => ret pop
  | Some ind =>
      let p := ind_phenotype ind in
      if Set_has (cache e) p then ret pop
      else
        cache_add p ;;;
        r <- alloc ind ;;
        ret (pop ++ [r])
  end.

(** The [while] loop of [init].  [fuel] bounds the loops of each mapping,
    [n] the iterations of this loop. *)
Fixpoint init_loop (fuel n : nat) : M unit :=
  e <- get_this ;;
  if Nat.ltb (length (pop e)) (popsize e) then
    match n with
    | 0 => out_of_fuel
    | S n' =>
        g <- random_ind ;;
        newpop <- mapAndTryAddIndToPop fuel g (pop e) ;;
        assign_pop newpop ;;;
        init_loop fuel n'
    end
  else ret tt.

Definition init (fuel : nat) : M unit :=
  init_loop fuel fuel ;;;
  e <- get_this ;;
  assign_best_ever (nth_error (pop e) 0).

(** [x[3]] as a condition: a number other than 0 is true. *)
Definition truthy (f : fit) : bool :=
  match f with
  | FNum z => negb (Z.eqb z 0)
  | FNull => false
  | FUndef => false
  end.

(** [trunc] is taken as an exact rational, so that
    [Math.floor(this.popsize * this.trunc)] is [Qfloor] of the product. *)
Definition truncation_selection : M (list ref) :=
  e <- get_this ;;
  ret (slice (pop e)
             (Num (Qfloor (inject_Z (Z.of_nat (popsize e)) * trunc e)))
             (Num (Z.of_nat (popsize e) - 1))).

Fixpoint filterM {A : Type} (f : A -> M bool) (l : list A) : M (list A) :=
  match l with
  | [] => ret []
  | x :: t =>
      b <- f x ;;
      t' <- filterM f t ;;
      ret (if b then x :: t' else t')
  end.

Definition direct_selection : M (list ref) :=
  e <- get_this ;;
  parents <- filterM (fun r => x <- deref r ;; ret (truthy (ind_fitness x))) (pop e) ;;
  ret (match parents with
       | [] => pop e
       | _ => parents
       end).

Definition ask : M (list ref) :=
  e <- get_this ;; ret (pop e).

Definition toNumber (f : fit) : jsnum :=
  match f with
  | FNum z => Num z
  | FNull => Num 0
  | FUndef => NaN
  end.

(** [a >= b] and [a <= b] on fitness slots. *)
Definition js_ge (a b : fit) : bool :=
  match toNumber a, toNumber b with
  | Num x, Num y => Z.leb y x
  | _, _ => false
  end.

Definition js_le (a b : fit) : bool :=
  match toNumber a, toNumber b with
  | Num x, Num y => Z.leb x y
  | _, _ => false
  end.

(** [fitvals[i]] *)
Definition fitval (fitvals : list Z) (i : nat) : fit :=
  match nth_error fitvals i with
  | Some z => FNum z
  | None => FUndef
  end.

(** [this.pop[i]] where the result is at once indexed: [undefined] throws. *)
Definition pop_at (i : nat) : M ref :=
  e <- get_this ;;
  match nth_error (pop e) i with
  | Some r => ret r
  | None => throw
  end.

(** [this.best_ever], at once indexed. *)
Definition the_best_ever : M ref :=
  e <- get_this ;;
  match best_ever e with
  | Some r => ret r
  | None => throw
  end.

Definition assign_fitness (fitvals : list Z) : M unit :=
  e <- get_this ;;
  for_each (seq 0 (popsize e)) (fun i =>
    r <- pop_at i ;;
    write_fitness r (fitval fitvals i)).

Definition update_best_ever : M unit :=
  e <- get_this ;;
  for_each (seq 0 (popsize e)) (fun i =>
    r <- pop_at i ;;
    x <- deref r ;;
    b <- the_best_ever ;;
    y <- deref b ;;
    if (maximise e && js_ge (ind_fitness x) (ind_fitness y))
       || (negb (maximise e) && js_le (ind_fitness x) (ind_fitness y))
    then assign_best_ever (Some r)
    else ret tt).

(** [print_statistics] writes to the console and the page; all that
    matters here is that it indexes [this.best_ever]. *)
Definition print_statistics : M unit :=
  b <- the_best_ever ;; _ <- deref b ;; ret tt.

Definition key_fitness (f : fit) : key :=
  match f with
  | FNum z => KNum z
  | FNull => KNull
  | FUndef => KUndef
  end.

(** [-x[3]] *)
Definition key_neg_fitness (f : fit) : key :=
  match f with
  | FNum z => KNum (- z)
  | FNull => KNum 0
  | FUndef => KNaN
  end.

Fixpoint mapM {A B : Type} (f : A -> M B) (l : list A) : M (list B) :=
  match l with
  | [] => ret []
  | x :: t => y <- f x ;; t' <- mapM f t ;; ret (y :: t')
  end.

(** [_.sortBy(this.pop, [function(x) { return k(x[3]) }])] *)
Definition sort_pop (k : fit -> key) : M (list ref) :=
  e <- get_this ;;
  keyed <- mapM (fun r => x <- deref r ;; ret (r, k (ind_fitness x))) (pop e) ;;
  ret (map fst (sortBy snd keyed)).

(** The [while] loop of [create_new_pop]; [fuel] and [n] as in
    [init_loop]. *)
Fixpoint create_loop (fuel n : nat) (parents newpop : list ref) (tries : nat)
  : M (list ref) :=
  e <- get_this ;;
  if Nat.ltb (length newpop) (popsize e) then
    match n with
    | 0 => out_of_fuel
    | S n' =>
        if Nat.ltb (popsize e * 2) tries then
          g <- random_ind ;;
          newpop <- mapAndTryAddIndToPop fuel g newpop ;;
          create_loop fuel n' parents newpop tries
        else
          '(r0, r1) <- sampleSize2 parents ;;
          x0 <- deref r0 ;;
          x1 <- deref r1 ;;
          let c0 := ind_used x0 in
          let c1 := ind_used x1 in
          '(g0, g1) <- crossover (ind_genome x0) (ind_genome x1) c0 c1 ;;
          u0 <- mt_random ;;
          g0 <- (if Qlt_le_dec u0 (pmut e) then mutate g0 c0 else ret g0) ;;
          newpop <- mapAndTryAddIndToPop fuel g0 newpop ;;
          if Nat.eqb (length newpop) (popsize e) then ret newpop
          else
            u1 <- mt_random ;;
            g1 <- (if Qlt_le_dec u1 (pmut e) then mutate g1 c1 else ret g1) ;;
            newpop <- mapAndTryAddIndToPop fuel g1 newpop ;;
            create_loop fuel n' parents newpop (tries + 2)
    end
  else ret newpop.

(** [this.pop[this.pop.length-1]] pushed on the new array.  On an empty
    population JavaScript would push [undefined]; [tell] cannot get this
    far with an empty population unless [popsize] is 0 and [best_ever] was
    set by hand, and the model stops there. *)
Definition create_new_pop (fuel : nat) (parents : list ref) : M (list ref) :=
  e <- get_this ;;
  match nth_error (pop e) (length (pop e) - 1) with
  | None => throw
  | Some elite => create_loop fuel fuel parents [elite] 0
  end.

Definition select_parents : M (list ref) :=
  e <- get_this ;;
  if interactive e then direct_selection
  else
    sorted <- (if maximise e then sort_pop key_fitness
               else sort_pop key_neg_fitness) ;;
    assign_pop sorted ;;;
    truncation_selection.

Definition tell (fuel : nat) (fitvals : list Z) : M unit :=
  assign_fitness fitvals ;;;
  update_best_ever ;;;
  print_statistics ;;;
  parents <- select_parents ;;
  newpop <- create_new_pop fuel parents ;;
  assign_pop newpop.

(** [evolve]: [ngens] rounds of [ask], evaluation of every phenotype and
    [tell]; the loop counter is [this.gen]. *)
Definition evolve (fuel : nat) : M (option ref) :=
  e <- get_this ;;
  for_each (seq 0 (ngens e)) (fun i =>
    assign_gen i ;;;
    x <- ask ;;
    fitvals <- mapM (fun r => xi <- deref r ;;
                              ret (apply_fitness (fitness e) (ind_phenotype xi))) x ;;
    tell fuel fitvals) ;;;
  assign_gen (ngens e) ;;;
  e' <- get_this ;;
  ret (best_ever e').

(** The constructor.  [fitness_arg] is [None] when [fitness] is [null];
    the grammar text arrives as its start symbol and its parsed
    object. *)
Definition new_GE (fitness_arg : option fitness_fn) (start_sym : symbol)
           (obj : rules_obj) (popsize ngens : nat) (pmut trunc : Q)
           (maxdepth genomelength : nat) : res GE :=
  let* g := loadGrammar start_sym obj in
  Ok {| interactive := match fitness_arg with None => true | Some _ => false end;
        fitness := match fitness_arg with None => dummy | Some f => f end;
        grammar := g;
        popsize := popsize; ngens := ngens; pmut := pmut; trunc := trunc;
        maxdepth := maxdepth; genomelength := genomelength;
        pop := []; cache := empty_set string; maxcodon := LCM g; gen := 0;
        best_ever := None |}.

(** *** Runs of the engine *)

(** The calls a user makes on an engine. *)
Inductive call : Type :=
| Init
| Ask
| Tell (fitvals : list Z)
| Evolve.

Definition do_call (fuel : nat) (c : call) : M unit :=
  match c with
  | Init => init fuel
  | Ask => _ <- ask ;; ret tt
  | Tell fitvals => tell fuel fitvals
  | Evolve => _ <- evolve fuel ;; ret tt
  end.

Fixpoint run (fuel : nat) (cs : list call) : M unit :=
  match cs with
  | [] => ret tt
  | c :: rest => do_call fuel c ;;; run fuel rest
  end.

(** What an observer [f] sees after [m]. *)
Definition observe {A B : Type} (f : world -> B) (m : M A) (w : world) : res B :=
  let* r := m w in Ok (f (snd r)).

(** The world that [m] leaves behind (the world it started from, if it
    does not return). *)
Definition after {A : Type} (m : M A) (w : world) : world :=
  match m w with
  | Ok (_, w') => w'
  | _ => w
  end.

(** The fitness slot seen through a reference, and through [best_ever]. *)
Definition fitness_at (h : list individual) (r : ref) : fit :=
  match nth_error h r with
  | Some x => ind_fitness x
  | None => FUndef
  end.

Definition best_fitness (w : world) : option fit :=
  option_map (fitness_at (heap w)) (best_ever (this w)).

(** What [m] returns. *)
Definition result {A : Type} (m : M A) (w : world) : res A :=
  let* r := m w in Ok (fst r).

(** [tell] up to and including the selection of the parents. *)
Definition tell_until_selection (fitvals : list Z) : M (list ref) :=
  assign_fitness fitvals ;;;
  update_best_ever ;;;
  print_statistics ;;;
  select_parents.


(** The criterion by which [tell] sorts, and the first index of the
    truncation pool. *)
Definition rank (w : world) (r : ref) : key :=
  (if maximise (this w) then key_fitness else key_neg_fitness)
    (fitness_at (heap w) r).


Definition key_le {A : Type} (k : A -> key) (a b : A) : Prop :=
  key_leb (k a) (k b) = true.


(** The phenotypes of all individuals ever pushed on a population, in the
    order of their admission: [alloc] is called at [pop.push(ind)] and
    nowhere else. *)
Definition admitted (w : world) : list string := map ind_phenotype (heap w).

(** No phenotype was admitted twice, and the cache holds every admitted
    phenotype. *)
Definition novel (w : world) : Prop :=
  NoDup (admitted w) /\ incl (admitted w) (cache (this w)).

(** From [w] to [w']: the cache and the admissions only grow, and
    novelty is kept. *)
Definition grows (w w' : world) : Prop :=
  incl (cache (this w)) (cache (this w')) /\
  (exists l, admitted w' = admitted w ++ l) /\
  (novel w -> novel w').

Definition keeps {A : Type} (m : M A) : Prop :=
  forall w a w', m w = Ok (a, w') -> grows w w'.

(** ** Concrete grammars and worlds *)

(** The grammar [{"<e>": [["0"], ["1"], ["<e>","<e>"]]}]. *)
Definition example_obj : rules_obj :=
  [("<e>", [["0"]; ["1"]; ["<e>"; "<e>"]])].

Definition example_grammar : Grammar :=
  {| rules := example_obj;
     nonterminals := ["<e>"];
     terminals := ["0"; "1"];
     recursive_NTs := ["<e>"];
     start_rule := "<e>";
     LCM := Num 3 |}.

(** The grammar [{"<e>": [["(", "<e>", ")"], ["<e>", "+", "<e>"]]}], every
    production of which contains "<e>". *)
Definition looping_obj : rules_obj :=
  [("<e>", [["("; "<e>"; ")"]; ["<e>"; "+"; "<e>"]])].

Definition looping_grammar : Grammar :=
  {| rules := looping_obj;
     nonterminals := ["<e>"];
     terminals := ["("; ")"; "+"];
     recursive_NTs := ["<e>"];
     start_rule := "<e>";
     LCM := Num 2 |}.

Definition nums (l : list Z) : list jsnum := map Num l.

Definition start_world (e : GE) (mt lodash : nat -> Z) : world :=
  {| this := e; heap := []; mt_out := mt; mt_pos := 0;
     lodash_out := lodash; lodash_pos := 0 |}.

(** A random source that returns the numbers of [l] in turn, then 0. *)
Definition stream (l : list Z) (k : nat) : Z := nth k l 0%Z.

(** An interactive engine of two individuals, as
    [new GE(null, grammar, 2, 5, 0.2, 0.3, 6, 6)] builds it. *)
Definition example_GE : GE :=
  {| interactive := true; fitness := dummy; grammar := example_grammar;
     popsize := 2; ngens := 5; pmut := 1 # 5; trunc := 3 # 10;
     maxdepth := 6; genomelength := 6;
     pop := []; cache := []; maxcodon := Num 3; gen := 0; best_ever := None |}.

(** An autonomous engine of three individuals that maximises [lenmax]. *)
Definition example_GE_auto : GE :=
  {| interactive := false; fitness := lenmax; grammar := example_grammar;
     popsize := 3; ngens := 5; pmut := 1 # 5; trunc := 3 # 10;
     maxdepth := 6; genomelength := 6;
     pop := []; cache := []; maxcodon := Num 3; gen := 0; best_ever := None |}.

(** The outputs of the twister for [example_GE].  [init] draws the
    genomes [2,2,0,0,1,0], which derives "001" reading 5 codons, and
    [2,0,2,1,1,0], which derives "011" reading 5 codons.  In the first
    [tell] the cut is [2 % 4 = 2] and the two draws of [2^31] make
    [mt.random()] return 0.5, so neither child is mutated: the first
    child [2,2,2,1,1,0] runs out of codons, the second [2,0,0,0,1,0]
    derives "00".  In the second [tell] the cut is [0 % 2 = 0],
    [mt.random()] returns 0 and the first child [2,0,0,0,1,0] is mutated
    at locus [1 % 4 = 1] to the value [1 % 3 = 1]: it derives "10". *)
Definition example_mt : nat -> Z :=
  stream [2; 2; 0; 0; 1; 0;  2; 0; 2; 1; 1; 0;
          2; 2147483648; 2147483648;
          0; 0; 1; 1]%Z.


(** The outputs behind lodash: every sample is the first two elements of
    the pool, in order. *)
Definition example_lodash : nat -> Z := stream [0; 0; 0; 0]%Z.

Definition example_world : world :=
  start_world example_GE example_mt example_lodash.


(** What a call of the mapper may do to the iterator: move the cursor
    forward over the same array. *)
Definition advances (it it' : iter) : Prop :=
  it_arr it' = it_arr it /\ it_pos it <= it_pos it'.



(** The production counts of a grammar object. *)
Definition production_counts (obj : rules_obj) : list nat :=
  map (fun entry => length (snd entry)) obj.

(** ** Further properties of the mapper *)

(** A text made of terminals of the grammar. *)
Definition terminal_text (G : Grammar) (s : string) : Prop :=
  exists ts, Forall (fun t => In t (terminals G)) ts /\ s = String.concat "" ts.

(** A codon that is a number and not negative, as [randrange] makes
    them. *)
Definition natural (c : jsnum) : Prop := exists z, c = Num z /\ (0 <= z)%Z.

(** A grammar on which the mapper can neither throw nor stay in the
    escape loop: the start symbol and every symbol of a production that is
    not a terminal have a rule; every rule has between 1 and [K]
    productions, a number that divides the codon modulus [M]; and every
    nonterminal marked recursive has a production that does not contain
    it. *)
Definition mappable (G : Grammar) (M : Z) (K : nat) : Prop :=
  (0 < M)%Z /\
  (exists r, rules_get (rules G) (start_rule G) = Some r) /\
  forall s r,
    rules_get (rules G) s = Some r ->
    r <> [] /\ length r <= K /\ (Z.of_nat (length r) | M)%Z /\
    (Set_has (recursive_NTs G) s = true ->
     exists t prod, nth_error r t = Some prod /\ contains s prod = false) /\
    (forall prod sym, In prod r -> In sym prod ->
       Set_has (terminals G) sym = false ->
       exists r', rules_get (rules G) sym = Some r').

(** The iterator over [g] at cursor [n]. *)
Definition iter_at (g : list jsnum) (n : nat) : iter := {| it_arr := g; it_pos := n |}.

(** An accumulator of [lcmAll] that is not a number from 1 on. *)
Definition degenerate (acc : res jsnum) : Prop :=
  forall z, acc = Ok (Num z) -> z = 0%Z.

(** [random_choice(L)]: [L[randrange(L.length)]], [undefined] (here
    [None]) on an empty array. *)
Definition random_choice {A : Type} (L : list A) : M (option A) :=
  i <- randrange (len L) ;;
  ret (js_get L i).

(** The [k]-th codon that the twister gives from [w] on, for the codon
    modulus [m]. *)
Definition drawn_codon (w : world) (m : Z) (k : nat) : Z :=
  Z.rem (Z.modulo (mt_out w (mt_pos w + k)) 4294967296) m.

(** [w'] is [w] after [n] outputs of the twister were taken and nothing
    else was done. *)
Definition after_draws (n : nat) (w w' : world) : Prop :=
  this w' = this w /\ heap w' = heap w /\ mt_out w' = mt_out w /\
  mt_pos w' = mt_pos w + n /\
  lodash_out w' = lodash_out w /\ lodash_pos w' = lodash_pos w.

(** ** Relations between the worlds before and after a method *)

(** Every returning run of [m] relates the world before to the world
    after by [R]. *)
Definition respects {A : Type} (R : world -> world -> Prop) (m : M A) : Prop :=
  forall w a w', m w = Ok (a, w') -> R w w'.

(** What [R] has to allow for the methods that only draw random numbers;
    for those that also write fitness values and [best_ever]; and for
    all methods. *)
Record allows_draws (R : world -> world -> Prop) : Prop := {
  ad_refl : forall w, R w w;
  ad_trans : forall a b c, R a b -> R b c -> R a c;
  ad_mt : forall w, R w (mt_taken w);
  ad_lodash : forall w, R w (lodash_taken w)
}.

Record allows_scoring (R : world -> world -> Prop) : Prop := {
  as_draws : allows_draws R;
  as_best : forall w b, R w (set_this w (set_best_ever (this w) b));
  as_write : forall w r x f,
      nth_error (heap w) r = Some x ->
      R w (set_heap w (list_set (heap w) r (with_fitness x f)))
}.

Record allows_all (R : world -> world -> Prop) : Prop := {
  aa_scoring : allows_scoring R;
  aa_pop : forall w p, R w (set_this w (set_pop (this w) p));
  aa_gen : forall w n, R w (set_this w (set_gen (this w) n));
  aa_cache : forall w x,
      R w (set_this w (set_cache (this w) (Set_add (cache (this w)) x)));
  aa_alloc : forall w ind, R w (set_heap w (heap w ++ [ind]))
}.

(** Nothing but the random sources has moved. *)
Definition only_drew (w w' : world) : Prop :=
  this w' = this w /\ heap w' = heap w.

(** The configuration of an engine: everything but its population, its
    cache, its generation counter and its best individual. *)
Definition same_config (e e' : GE) : Prop :=
  interactive e' = interactive e /\ fitness e' = fitness e /\
  grammar e' = grammar e /\ popsize e' = popsize e /\ ngens e' = ngens e /\
  pmut e' = pmut e /\ trunc e' = trunc e /\ maxdepth e' = maxdepth e /\
  genomelength e' = genomelength e /\ maxcodon e' = maxcodon e.

(** The same individual, but for its fitness. *)
Definition same_identity (x x' : individual) : Prop :=
  ind_genome x' = ind_genome x /\ ind_phenotype x' = ind_phenotype x /\
  ind_used x' = ind_used x.

(** From [w] to [w']: the configuration is the same, every individual is
    still at its address with its genome, phenotype and count, and each
    random source is the same sequence, read further on. *)
Definition settled (w w' : world) : Prop :=
  same_config (this w) (this w') /\
  (forall r x, nth_error (heap w) r = Some x ->
               exists x', nth_error (heap w') r = Some x' /\ same_identity x x') /\
  mt_out w' = mt_out w /\ mt_pos w <= mt_pos w' /\
  lodash_out w' = lodash_out w /\ lodash_pos w <= lodash_pos w'.

(** From [w] to [w']: only fitness values and [best_ever] were written
    and random numbers drawn. *)
Definition only_scored (w w' : world) : Prop :=
  same_config (this w) (this w') /\
  pop (this w') = pop (this w) /\ cache (this w') = cache (this w) /\
  length (heap w') = length (heap w) /\
  forall r x, nth_error (heap w) r = Some x ->
              exists x', nth_error (heap w') r = Some x' /\ same_identity x x'.

(** ** The shape of a population *)

(** From [w] to [w']: the individuals [added], all with a [null]
    fitness, were pushed on the heap, which is otherwise as it was, and
    the configuration is the same. *)
Definition admits (w w' : world) (added : list individual) : Prop :=
  heap w' = heap w ++ added /\
  Forall (fun x => ind_fitness x = FNull) added /\
  same_config (this w) (this w') /\
  best_ever (this w') = best_ever (this w).

(** A population of [popsize] distinct individuals of the heap. *)
Definition full (w : world) : Prop :=
  length (pop (this w)) = popsize (this w) /\
  Forall (fun r => r < length (heap w)) (pop (this w)) /\
  NoDup (pop (this w)).


(** ** The scan for the best individual *)

(** The condition under which the scan of [tell] replaces [best_ever],
    on the fitness [x] of the scanned individual and the fitness [y] of
    the present [best_ever]. *)
Definition beats (mx : bool) (x y : fit) : bool :=
  (mx && js_ge x y) || (negb mx && js_le x y).

(** The scan of [tell] over the individuals [l], from the present best
    individual [b], all read in the heap [h]. *)
Definition scan (mx : bool) (h : list individual) (l : list ref) (b : ref) : ref :=
  fold_left (fun b r => if beats mx (fitness_at h r) (fitness_at h b) then r else b) l b.

(** For [example_GE_auto] again: after [init], one round of breeding
    from the two parents of the truncation pool, with both children
    mutated in their first codon. *)
Definition example_mt_breeding : nat -> Z :=
  stream [2; 2; 0; 0; 1; 0;  2; 0; 2; 1; 1; 0;  2; 0; 0; 0; 1; 0;
          0; 0; 0; 1;  0; 0; 0]%Z.

Definition example_world_breeding : world :=
  start_world example_GE_auto example_mt_breeding example_lodash.

(** * Properties *)

(** ** The mapper leaves the genome alone *)

Lemma it_next_arr (it : iter) : it_arr (snd (it_next it)) = it_arr it.
Proof.
  unfold it_next. destruct (nth_error (it_arr it) (it_pos it)); reflexivity.
Qed.

Lemma it_next_pos (it : iter) :
  it_pos it <= it_pos (snd (it_next it)).
Proof.
  unfold it_next. destruct (nth_error (it_arr it) (it_pos it)); simpl; lia.
Qed.

Section MapperFrame.

Variable G : Grammar.
Variable md : nat.
Variable mc : jsnum.

Lemma advances_refl it : advances it it.
Proof. split; [reflexivity | lia]. Qed.

Lemma advances_trans a b c : advances a b -> advances b c -> advances a c.
Proof. intros [E1 L1] [E2 L2]. split; [congruence | lia]. Qed.

Lemma expand_advances self :
  (forall it sym r it', self it sym = Ok (r, it') -> advances it it') ->
  forall syms d it r it',
    expand G self syms d it = Ok (r, it') -> advances it it'.
Proof.
  intros Hself syms. induction syms as [|sym rest IH]; intros d it r it' H.
  - simpl in H. inversion H; subst. apply advances_refl.
  - simpl in H. destruct (Set_has (terminals G) sym).
    + eapply IH; eassumption.
    + destruct (self it sym) as [[[str|] it1]| |] eqn:Hs; simpl in H;
        try discriminate.
      * eapply advances_trans; [eapply Hself; eassumption|].
        eapply IH; eassumption.
      * inversion H; subst. eapply Hself; eassumption.
Qed.

Lemma mapGenomeToPhenotype_advances fuel :
  forall it depth s r it',
    mapGenomeToPhenotype G md mc fuel it depth s = Ok (r, it') ->
    advances it it'.
Proof.
  induction fuel as [|fuel IH]; intros it depth s r it' H.
  - discriminate.
  - simpl in H.
    pose proof (it_next_arr it) as Harr. pose proof (it_next_pos it) as Hpos.
    destruct (it_next it) as [[[idx codon]|] g1]; simpl in Harr, Hpos.
    + destruct (rules_get (rules G) _) as [r0|]; [|discriminate].
      match type of H with
      | bind ?m _ = _ => destruct m as [[codon' p']| |]; simpl in H;
                           try discriminate
      end.
      destruct p' as [prod|]; [|discriminate].
      apply expand_advances in H.
      * eapply advances_trans; [split; eassumption | exact H].
      * intros it0 sym r1 it1 Hc. eapply IH; eassumption.
    + inversion H; subst. split; assumption.
Qed.

End MapperFrame.

Lemma escape_eq mc fuel r s codon p :
  escape mc fuel r s codon p =
  match p with
  | None => Throw
  | Some prod =>
      if contains s prod then
        match fuel with
        | 0 => OutOfFuel
        | S fuel' =>
            let codon' := js_rem (js_add codon (Num 1)) mc in
            escape mc fuel' r s codon' (js_get r (js_rem codon' (len r)))
        end
      else Ok (codon, p)
  end.
Proof. destruct fuel; reflexivity. Qed.

(** ** Fuel *)

(** An outcome other than [OutOfFuel] is the outcome of the JavaScript
    call: more fuel does not change it. *)
Lemma escape_more_fuel mc r s :
  forall n codon p v,
    escape mc n r s codon p = v -> v <> OutOfFuel ->
    forall m, n <= m -> escape mc m r s codon p = v.
Proof.
  induction n as [|n IH]; intros codon p v H Hv m Hm;
    rewrite escape_eq in H |- *;
    destruct p as [prod|]; try exact H;
    destruct (contains s prod); try exact H.
  - congruence.
  - destruct m as [|m]; [lia|]. cbv zeta in H |- *.
    eapply IH; [exact H | exact Hv | lia].
Qed.

Lemma expand_more_fuel G (self1 self2 : iter -> symbol -> res (option string * iter)) :
  (forall it sym v, self1 it sym = v -> v <> OutOfFuel -> self2 it sym = v) ->
  forall syms d it v,
    expand G self1 syms d it = v -> v <> OutOfFuel ->
    expand G self2 syms d it = v.
Proof.
  intros Hself syms. induction syms as [|sym rest IH]; intros d it v H Hv;
    simpl in H |- *; [exact H|].
  destruct (Set_has (terminals G) sym); [eapply IH; eassumption|].
  destruct (self1 it sym) as [[o it1]| |] eqn:E.
  - rewrite (Hself _ _ _ E) by discriminate. simpl in H |- *.
    destruct o; [eapply IH; eassumption | exact H].
  - rewrite (Hself _ _ _ E) by discriminate. exact H.
  - simpl in H. congruence.
Qed.

Lemma mapGenomeToPhenotype_more_fuel G md mc :
  forall n it depth s v,
    mapGenomeToPhenotype G md mc n it depth s = v -> v <> OutOfFuel ->
    forall m, n <= m -> mapGenomeToPhenotype G md mc m it depth s = v.
Proof.
  induction n as [|n IH]; intros it depth s v H Hv m Hm; [simpl in H; congruence|].
  destruct m as [|m]; [lia|]. simpl in H |- *.
  destruct (it_next it) as [[[idx codon]|] g1]; [|exact H].
  destruct (rules_get (rules G) _) as [r|]; [|exact H].
  match type of H with
  | bind (if ?c then ?e else _) _ = _ =>
      destruct c;
      [destruct e as [[codon' p']| |] eqn:E;
       [rewrite (escape_more_fuel _ _ _ _ _ _ _ E) by (discriminate || lia)
       |rewrite (escape_more_fuel _ _ _ _ _ _ _ E) by (discriminate || lia); exact H
       |simpl in H; congruence]
      |]
  end; simpl in H |- *.
  - destruct p' as [prod|]; [|exact H].
    eapply expand_more_fuel; [|exact H|exact Hv].
    intros it0 sym v0 H0 Hv0. eapply IH; [exact H0 | exact Hv0 | lia].
  - destruct (js_get r (js_rem codon (len r))) as [prod|]; [|exact H].
    eapply expand_more_fuel; [|exact H|exact Hv].
    intros it0 sym v0 H0 Hv0. eapply IH; [exact H0 | exact Hv0 | lia].
Qed.

Lemma mapGenomeToIndividual_more_fuel G md mc n g v :
  mapGenomeToIndividual G md mc n g = v -> v <> OutOfFuel ->
  forall m, n <= m -> mapGenomeToIndividual G md mc m g = v.
Proof.
  intros H Hv m Hm. unfold mapGenomeToIndividual in H |- *.
  destruct (mapGenomeToPhenotype G md mc n (genomeIterator g) 0 None) as [pi| |] eqn:E.
  - rewrite (mapGenomeToPhenotype_more_fuel _ _ _ _ _ _ _ _ E) by (discriminate || lia).
    exact H.
  - rewrite (mapGenomeToPhenotype_more_fuel _ _ _ _ _ _ _ _ E) by (discriminate || lia).
    exact H.
  - simpl in H. congruence.
Qed.

(** A derivation that reads the genome to its end makes
    [mapGenomeToIndividual] throw: its own [next()] finds the iterator
    done. *)
Lemma mapping_whole_genome_throws G md mc fuel g p it' :
  mapGenomeToPhenotype G md mc fuel (genomeIterator g) 0 None = Ok (Some p, it') ->
  length g <= it_pos it' ->
  mapGenomeToIndividual G md mc fuel g = Throw.
Proof.
  intros Hmap Hend. unfold mapGenomeToIndividual. rewrite Hmap. simpl.
  pose proof (mapGenomeToPhenotype_advances _ _ _ _ _ _ _ _ _ Hmap) as [Harr _].
  simpl in Harr. unfold it_next. rewrite Harr.
  destruct (nth_error g (it_pos it')) eqn:E; [|reflexivity].
  assert (it_pos it' < length g) by (apply nth_error_Some; congruence). lia.
Qed.

(** ** The constructor on the example grammars *)

Lemma loadGrammar_example : loadGrammar "<e>" example_obj = Ok example_grammar.
Proof. reflexivity. Qed.

Lemma loadGrammar_looping : loadGrammar "<e>" looping_obj = Ok looping_grammar.
Proof. reflexivity. Qed.

Lemma new_GE_example :
  new_GE None "<e>" example_obj 2 5 (1 # 5) (3 # 10) 6 6 = Ok example_GE.
Proof. reflexivity. Qed.

Lemma new_GE_example_auto :
  new_GE (Some lenmax) "<e>" example_obj 3 5 (1 # 5) (3 # 10) 6 6 = Ok example_GE_auto.
Proof. reflexivity. Qed.

(** C10.  Mapping a genome never modifies it: the iterator that the
    mapper leaves behind still ranges over an array equal to the genome
    it was given (the escape at the depth limit only alters its own
    codon variable), and the individual built from a successful mapping
    holds that genome, element for element. *)
Theorem C10_mapping_keeps_genome :
  forall G md mc fuel g ind,
    mapGenomeToIndividual G md mc fuel g = Ok (Some ind) ->
    ind_genome ind = g /\
    (forall i, nth_error (ind_genome ind) i = nth_error g i) /\
    exists p it',
      mapGenomeToPhenotype G md mc fuel (genomeIterator g) 0 None = Ok (Some p, it') /\
      it_arr it' = g.
Proof.
  intros G md mc fuel g ind H. unfold mapGenomeToIndividual in H.
  destruct (mapGenomeToPhenotype G md mc fuel (genomeIterator g) 0 None)
    as [[[p|] it']| |] eqn:Hmap; simpl in H; try discriminate.
  pose proof (mapGenomeToPhenotype_advances _ _ _ _ _ _ _ _ _ Hmap) as [Harr _].
  simpl in Harr.
  pose proof (it_next_arr it') as Hnext.
  destruct (it_next it') as [[[idx c]|] i2]; simpl in Hnext; [|discriminate].
  inversion H; subst ind; simpl.
  assert (Hg : it_arr i2 = g) by congruence.
  rewrite Hg. repeat split.
  exists p, it'. split; [reflexivity | exact Harr].
Qed.

Lemma C10_mapping_keeps_genome_witness :
  ind_genome {| ind_genome := nums [2; 0; 1; 0]%Z; ind_phenotype := "0";
                ind_used := 0%Z; ind_fitness := FNull |} = nums [2; 0; 1; 0]%Z.
Proof.
  apply (C10_mapping_keeps_genome example_grammar 0 (Num 3) 5 (nums [2; 0; 1; 0]%Z)).
  vm_compute. reflexivity.
Defined.

(** C1 (as amended).  When the mapping of a genome succeeds before the
    genome is used up, the individual holds the genome, the concatenated
    phenotype, and the final cursor value minus one, that is the index of
    the last codon read.  For the grammar
    [{"<e>": [["0"], ["1"], ["<e>","<e>"]]}] and a depth bound of at least
    1, the mapper takes [0] to "0" with final cursor 1, [2, 0, 1] to "01"
    with final cursor 3, and [1] to "1" with final cursor 1. *)
Theorem C1_used_is_cursor_minus_one :
  (forall G md mc fuel g p it',
      mapGenomeToPhenotype G md mc fuel (genomeIterator g) 0 None = Ok (Some p, it') ->
      it_pos it' < length g ->
      mapGenomeToIndividual G md mc fuel g =
      Ok (Some {| ind_genome := g; ind_phenotype := p;
                  ind_used := Z.of_nat (it_pos it') - 1;
                  ind_fitness := FNull |})) /\
  (forall md fuel, 1 <= md -> 2 <= fuel ->
      mapGenomeToPhenotype example_grammar md (Num 3) fuel
        (genomeIterator (nums [0]%Z)) 0 None
      = Ok (Some "0", {| it_arr := nums [0]%Z; it_pos := 1 |}) /\
      mapGenomeToPhenotype example_grammar md (Num 3) fuel
        (genomeIterator (nums [2; 0; 1]%Z)) 0 None
      = Ok (Some "01", {| it_arr := nums [2; 0; 1]%Z; it_pos := 3 |}) /\
      mapGenomeToPhenotype example_grammar md (Num 3) fuel
        (genomeIterator (nums [1]%Z)) 0 None
      = Ok (Some "1", {| it_arr := nums [1]%Z; it_pos := 1 |})).
Proof.
  split.
  - intros G md mc fuel g p it' Hmap Hlt. unfold mapGenomeToIndividual.
    rewrite Hmap. simpl.
    pose proof (mapGenomeToPhenotype_advances _ _ _ _ _ _ _ _ _ Hmap) as [Harr _].
    simpl in Harr. unfold it_next. rewrite Harr.
    destruct (nth_error g (it_pos it')) as [c|] eqn:Hc.
    + simpl. reflexivity.
    + apply nth_error_None in Hc. lia.
  - intros md fuel Hmd Hfuel.
    destruct md as [|[|md]]; [lia| |];
      (destruct fuel as [|[|[|fuel]]]; [lia|lia| |]);
      repeat split; reflexivity.
Qed.

Lemma C1_used_is_cursor_minus_one_witness :
  mapGenomeToIndividual example_grammar 6 (Num 3) 5 (nums [2; 0; 1; 0]%Z) =
  Ok (Some {| ind_genome := nums [2; 0; 1; 0]%Z; ind_phenotype := "01";
              ind_used := 2%Z; ind_fitness := FNull |}).
Proof.
  apply (proj1 C1_used_is_cursor_minus_one example_grammar 6 (Num 3) 5
           (nums [2; 0; 1; 0]%Z) "01" {| it_arr := nums [2; 0; 1; 0]%Z; it_pos := 3 |}).
  - vm_compute. reflexivity.
  - simpl. lia.
Defined.

(** C1 as stated fails: mapping [0] consumes the whole genome, the extra
    [next()] of [mapGenomeToIndividual] is [done], and indexing its
    [undefined] value throws; with one more codon in the genome the
    phenotype is "0" and the recorded count is 0, not 1. *)
Lemma C1_counterexample :
  mapGenomeToIndividual example_grammar 6 (Num 3) 5 (nums [0]%Z) = Throw /\
  mapGenomeToIndividual example_grammar 6 (Num 3) 5 (nums [0; 0]%Z) =
  Ok (Some {| ind_genome := nums [0; 0]%Z; ind_phenotype := "0";
              ind_used := 0%Z; ind_fitness := FNull |}).
Proof. split; vm_compute; reflexivity. Qed.

(** ** The escape loop at the depth limit *)

Lemma js_get_Num {A : Type} (r : list A) (z : Z) :
  (0 <= z < Z.of_nat (length r))%Z ->
  exists x, js_get r (Num z) = Some x /\ nth_error r (Z.to_nat z) = Some x.
Proof.
  intros Hz. unfold js_get.
  destruct (Z.ltb_spec z 0) as [Hneg|_]; [lia|].
  destruct (nth_error r (Z.to_nat z)) as [x|] eqn:Hx.
  - exists x. split; reflexivity.
  - apply nth_error_None in Hx. lia.
Qed.

Lemma next_codon (M c : Z) :
  (0 < M)%Z -> (0 <= c)%Z ->
  js_rem (js_add (Num c) (Num 1)) (Num M) = Num ((c + 1) mod M) /\
  (0 <= (c + 1) mod M)%Z.
Proof.
  intros HM Hc. simpl.
  destruct (Z.eqb_spec M 0) as [E|_]; [lia|].
  rewrite Z.rem_mod_nonneg by lia.
  split; [reflexivity | apply Z.mod_pos_bound; lia].
Qed.

Lemma choose_production {A : Type} (r : list A) (c : Z) :
  r <> [] -> (0 <= c)%Z ->
  js_rem (Num c) (len r) = Num (c mod Z.of_nat (length r)) /\
  (0 <= c mod Z.of_nat (length r) < Z.of_nat (length r))%Z.
Proof.
  intros Hr Hc.
  assert (Hk : (0 < Z.of_nat (length r))%Z) by (destruct r; [congruence | simpl; lia]).
  unfold len, js_rem.
  destruct (Z.eqb_spec (Z.of_nat (length r)) 0) as [E|_]; [lia|].
  rewrite Z.rem_mod_nonneg by lia.
  split; [reflexivity | apply Z.mod_pos_bound; lia].
Qed.

(** When every production of [s] contains [s], the loop never leaves. *)
Lemma escape_all_recursive (M : Z) (r : list production) (s : symbol) :
  (0 < M)%Z ->
  (forall prod, In prod r -> contains s prod = true) ->
  forall fuel c prod,
    (0 <= c)%Z -> In prod r ->
    escape (Num M) fuel r s (Num c) (Some prod) = OutOfFuel.
Proof.
  intros HM Hall fuel. induction fuel as [|fuel IH]; intros c prod Hc Hin;
    rewrite escape_eq, (Hall _ Hin); [reflexivity|].
  cbv zeta.
  destruct (next_codon M c HM Hc) as [-> Hc'].
  assert (Hr : r <> []) by (destruct r; [contradiction | congruence]).
  destruct (choose_production r _ Hr Hc') as [-> Hidx].
  destruct (js_get_Num r _ Hidx) as [prod' [-> Hnth]].
  apply IH; [exact Hc' | eapply nth_error_In; exact Hnth].
Qed.

(** When some production of [s] does not contain [s], the loop leaves
    after fewer iterations than [s] has productions, hence fewer than the
    codon modulus, which is a multiple of that number. *)
Lemma escape_finds_exit (M : Z) (r : list production) (s : symbol) :
  (0 < M)%Z ->
  (Z.of_nat (length r) | M)%Z ->
  forall t prod_t,
    nth_error r t = Some prod_t -> contains s prod_t = false ->
    forall fuel c,
      (0 <= c)%Z -> length r <= S fuel ->
      exists c' prod',
        escape (Num M) fuel r s (Num c) (js_get r (js_rem (Num c) (len r)))
        = Ok (Num c', Some prod') /\
        contains s prod' = false /\ In prod' r.
Proof.
  intros HM Hdiv t prod_t Ht Hexit.
  assert (Htk : t < length r) by (apply nth_error_Some; congruence).
  assert (Hr : r <> []) by (destruct r; [simpl in Htk; lia | congruence]).
  set (k := Z.of_nat (length r)) in *.
  assert (Hk : (0 < k)%Z) by (unfold k; lia).
  assert (Hdist : forall d fuel c,
             (0 <= c)%Z -> ((Z.of_nat t - c) mod k = Z.of_nat d)%Z -> d <= fuel ->
             exists c' prod',
               escape (Num M) fuel r s (Num c) (js_get r (js_rem (Num c) (len r)))
               = Ok (Num c', Some prod') /\
               contains s prod' = false /\ In prod' r).
  { induction d as [|d IH]; intros fuel c Hc Hd Hfuel.
    - destruct (choose_production r c Hr Hc) as [-> Hidx]. fold k in Hidx |- *.
      assert (Hct : (c mod k = Z.of_nat t)%Z).
      { apply Z.mod_divide in Hd; [|lia]. destruct Hd as [q Hq].
        replace c with (Z.of_nat t + (- q) * k)%Z by lia.
        rewrite Z.mod_add by lia. apply Z.mod_small. unfold k. lia. }
      rewrite Hct. unfold js_get.
      destruct (Z.ltb_spec (Z.of_nat t) 0) as [Hneg|_]; [lia|].
      rewrite Nat2Z.id, Ht, escape_eq, Hexit.
      exists c, prod_t. repeat split; [assumption | eapply nth_error_In; exact Ht].
    - destruct (choose_production r c Hr Hc) as [Hsel Hidx]. fold k in Hidx, Hsel.
      rewrite Hsel.
      destruct (js_get_Num r _ Hidx) as [prod [Hget Hnth]]. rewrite Hget, escape_eq.
      destruct (contains s prod) eqn:Hcont.
      + destruct fuel as [|fuel]; [lia|]. cbv zeta.
        destruct (next_codon M c HM Hc) as [-> Hc'].
        apply IH; [exact Hc' | | lia].
        rewrite Zminus_mod, Z.mod_mod_divide by assumption.
        rewrite <- Zminus_mod.
        replace (Z.of_nat t - (c + 1))%Z with ((Z.of_nat t - c) - 1)%Z by lia.
        rewrite Zminus_mod, Hd.
        assert (Hdk : (Z.of_nat (S d) < k)%Z)
          by (rewrite <- Hd; apply Z.mod_pos_bound; lia).
        destruct (Z.eq_dec k 1) as [K1|K1]; [lia|].
        rewrite (Z.mod_small 1) by lia.
        rewrite Z.mod_small by lia. lia.
      + exists c, prod. repeat split; [assumption | eapply nth_error_In; exact Hnth]. }
  intros fuel c Hc Hfuel.
  apply (Hdist (Z.to_nat ((Z.of_nat t - c) mod k))); [exact Hc | |].
  - rewrite Z2Nat.id; [reflexivity | apply Z.mod_pos_bound; lia].
  - assert ((0 <= (Z.of_nat t - c) mod k < k)%Z) by (apply Z.mod_pos_bound; lia).
    unfold k in *. lia.
Qed.

(** C2.  The code does not bound the escape search.  For the grammar
    [{"<e>": [["(", "<e>", ")"], ["<e>", "+", "<e>"]]}] and a depth bound
    of 0, mapping the genome [0, 1, 1, 0] is still inside the [while]
    loop of the first expansion whatever the fuel: it neither returns a
    phenotype nor fails. *)
Theorem C2_escape_unbounded :
  forall fuel,
    mapGenomeToPhenotype looping_grammar 0 (Num 2) fuel
      (genomeIterator (nums [0; 1; 1; 0]%Z)) 0 None = OutOfFuel.
Proof.
  intros [|fuel]; [reflexivity|].
  cbn -[escape].
  rewrite (escape_all_recursive 2 _ "<e>").
  - reflexivity.
  - lia.
  - intros prod [<-|[<-|[]]]; reflexivity.
  - lia.
  - left. reflexivity.
Qed.

(** ** The codon modulus *)

Lemma gcd_Nat_gcd (a b : nat) : gcd a b = Nat.gcd a b.
Proof.
  funelim (gcd a b).
  - subst. symmetry. apply Nat.gcd_0_r.
  - match goal with IH : gcd _ _ = Nat.gcd _ _ |- _ => rewrite IH end.
    rewrite (Nat.gcd_comm b), Nat.Lcm0.gcd_mod. apply Nat.gcd_comm.
Qed.





Lemma rule_lengths_map (obj : rules_obj) :
  forall init,
    fold_left (fun acc (entry : symbol * list production) =>
                 acc ++ [length (snd entry)]) obj init
    = init ++ production_counts obj.
Proof.
  induction obj as [|e obj IH]; intros init; simpl.
  - symmetry. apply app_nil_r.
  - rewrite IH, <- app_assoc. reflexivity.
Qed.






(** ** Crossover *)









(** ** The novelty cache *)

Lemma grows_refl (w : world) : grows w w.
Proof.
  split; [apply incl_refl|]. split; [|tauto].
  exists []. symmetry. apply app_nil_r.
Qed.

Lemma grows_trans (a b c : world) : grows a b -> grows b c -> grows a c.
Proof.
  intros (I1 & [l1 E1] & N1) (I2 & [l2 E2] & N2).
  split; [eapply incl_tran; eassumption|]. split; [|tauto].
  exists (l1 ++ l2). rewrite E2, E1, app_assoc. reflexivity.
Qed.

Lemma grows_same (w w' : world) :
  cache (this w') = cache (this w) -> admitted w' = admitted w -> grows w w'.
Proof.
  intros Hc Ha. unfold grows, novel. rewrite Hc, Ha.
  split; [apply incl_refl|]. split; [|tauto].
  exists []. symmetry. apply app_nil_r.
Qed.

Lemma keeps_ret {A : Type} (a : A) : keeps (ret a).
Proof. intros w x w' H. inversion H; subst. apply grows_refl. Qed.

Lemma keeps_bind {A B : Type} (m : M A) (k : A -> M B) :
  keeps m -> (forall a, keeps (k a)) -> keeps (mbind m k).
Proof.
  intros Hm Hk w b w' H. unfold mbind in H.
  destruct (m w) as [[a w1]| |] eqn:E; try discriminate.
  eapply grows_trans; [eapply Hm | eapply Hk]; eassumption.
Qed.

Lemma keeps_throw {A : Type} : keeps (@throw A).
Proof. intros w a w' H. discriminate. Qed.

Lemma keeps_out_of_fuel {A : Type} : keeps (@out_of_fuel A).
Proof. intros w a w' H. discriminate. Qed.

Lemma keeps_lift {A : Type} (r : res A) : keeps (lift r).
Proof.
  intros w a w' H. unfold lift in H. destruct r; simpl in H; try discriminate.
  inversion H; subst. apply grows_refl.
Qed.

Lemma keeps_get_this : keeps get_this.
Proof. intros w a w' H. inversion H; subst. apply grows_refl. Qed.

Lemma keeps_get_heap : keeps get_heap.
Proof. intros w a w' H. inversion H; subst. apply grows_refl. Qed.

Lemma keeps_assign_pop (p : list ref) : keeps (assign_pop p).
Proof. intros w a w' H. inversion H; subst. apply grows_same; reflexivity. Qed.

Lemma keeps_assign_best_ever (b : option ref) : keeps (assign_best_ever b).
Proof. intros w a w' H. inversion H; subst. apply grows_same; reflexivity. Qed.

Lemma keeps_assign_gen (n : nat) : keeps (assign_gen n).
Proof. intros w a w' H. inversion H; subst. apply grows_same; reflexivity. Qed.

Lemma keeps_mt_int : keeps mt_int.
Proof. intros w a w' H. inversion H; subst. apply grows_same; reflexivity. Qed.

Lemma keeps_baseRandom (lower upper : nat) : keeps (baseRandom lower upper).
Proof. intros w a w' H. inversion H; subst. apply grows_same; reflexivity. Qed.

Lemma map_list_set {A B : Type} (f : A -> B) (l : list A) :
  forall i x x', nth_error l i = Some x -> f x' = f x ->
                 map f (list_set l i x') = map f l.
Proof.
  induction l as [|h t IH]; intros [|i] x x' Hn Hf; simpl in *; try discriminate.
  - inversion Hn; subst. rewrite Hf. reflexivity.
  - rewrite (IH _ _ _ Hn Hf). reflexivity.
Qed.

Lemma keeps_write_fitness (r : ref) (f : fit) : keeps (write_fitness r f).
Proof.
  intros w a w' H. unfold write_fitness, deref, mbind, get_heap, put_heap in H.
  destruct (nth_error (heap w) r) as [x|] eqn:Hx; simpl in H; try discriminate.
  inversion H; subst. apply grows_same; [reflexivity|].
  unfold admitted. simpl. eapply map_list_set; [eassumption | reflexivity].
Qed.

Create HintDb keeps.
#[local] Hint Resolve keeps_ret keeps_throw keeps_out_of_fuel keeps_lift
  keeps_get_this keeps_get_heap keeps_assign_pop keeps_assign_best_ever
  keeps_assign_gen keeps_mt_int keeps_baseRandom keeps_write_fitness : keeps.

(** Walks through the binds, branches and patterns of a method body. *)
Ltac keeps_step :=
  match goal with
  | |- keeps (mbind _ _) => apply keeps_bind; [|intros]
  | |- keeps (match ?x with _ => _ end) => destruct x
  | |- keeps (let _ := _ in _) => cbv zeta
  | |- keeps _ => solve [auto with keeps]
  | |- forall _, _ => intros
  end.
Ltac keeps_walk := repeat keeps_step.

Lemma keeps_deref (r : ref) : keeps (deref r).
Proof. unfold deref. keeps_walk. Qed.

Lemma keeps_mt_random : keeps mt_random.
Proof. unfold mt_random. keeps_walk. Qed.

Lemma keeps_randrange (n : jsnum) : keeps (randrange n).
Proof. unfold randrange. keeps_walk. Qed.

#[local] Hint Resolve keeps_deref keeps_mt_random keeps_randrange : keeps.

Lemma keeps_sampleSize2 {A : Type} (arr : list A) : keeps (sampleSize2 arr).
Proof. unfold sampleSize2. keeps_walk. Qed.

Lemma keeps_random_ind_loop (n : nat) :
  forall mc ind, keeps (random_ind_loop n mc ind).
Proof. induction n as [|n IH]; intros mc ind; simpl; keeps_walk; apply IH. Qed.

Lemma keeps_random_ind : keeps random_ind.
Proof. unfold random_ind. keeps_walk; apply keeps_random_ind_loop. Qed.

Lemma keeps_mutate (g : list jsnum) (c : Z) : keeps (mutate g c).
Proof. unfold mutate. keeps_walk. Qed.

Lemma keeps_crossover (g0 g1 : list jsnum) (c0 c1 : Z) :
  keeps (crossover g0 g1 c0 c1).
Proof. unfold crossover. keeps_walk. Qed.

Lemma keeps_for_each {A : Type} (body : A -> M unit) (l : list A) :
  (forall x, keeps (body x)) -> keeps (for_each l body).
Proof. intros Hb. induction l as [|x t IH]; simpl; keeps_walk; auto. Qed.

Lemma keeps_filterM {A : Type} (f : A -> M bool) (l : list A) :
  (forall x, keeps (f x)) -> keeps (filterM f l).
Proof. intros Hf. induction l as [|x t IH]; simpl; keeps_walk; auto. Qed.

Lemma keeps_mapM {A B : Type} (f : A -> M B) (l : list A) :
  (forall x, keeps (f x)) -> keeps (mapM f l).
Proof. intros Hf. induction l as [|x t IH]; simpl; keeps_walk; auto. Qed.

#[local] Hint Resolve keeps_sampleSize2 keeps_random_ind keeps_mutate
  keeps_crossover : keeps.

(** [mapAndTryAddIndToPop] is the one place where an individual is
    admitted. *)
Lemma keeps_mapAndTryAddIndToPop (fuel : nat) (g : list jsnum) (p : list ref) :
  keeps (mapAndTryAddIndToPop fuel g p).
Proof.
  intros w a w' H.
  unfold mapAndTryAddIndToPop, mbind, get_this, lift, bind in H.
  destruct (mapGenomeToIndividual _ _ _ fuel g) as [[ind|]| |]; try discriminate.
  - destruct (Set_has (cache (this w)) (ind_phenotype ind)) eqn:Hhas.
    + inversion H; subst. apply grows_refl.
    + unfold cache_add, alloc, mbind, get_heap, put_heap, ret in H. simpl in H.
      inversion H; subst. clear H.
      assert (Hfresh : ~ In (ind_phenotype ind) (cache (this w))).
      { intros Hin. unfold Set_has in Hhas.
        apply (set_mem_complete1 string_dec) in Hhas. apply Hhas. exact Hin. }
      unfold grows, novel, admitted. simpl. rewrite map_app. simpl.
      split; [|split].
      * intros x Hx. unfold Set_add. apply set_add_intro1. exact Hx.
      * eexists. reflexivity.
      * intros [Hnd Hincl]. split.
        -- apply NoDup_app; [exact Hnd | repeat constructor; simpl; tauto |].
           intros x Hx [<-|[]]. apply Hfresh, Hincl, Hx.
        -- intros x Hx. apply in_app_or in Hx. unfold Set_add.
           destruct Hx as [Hx|[<-|[]]].
           ++ apply set_add_intro1, Hincl, Hx.
           ++ apply set_add_intro2. reflexivity.
  - inversion H; subst. apply grows_refl.
Qed.

#[local] Hint Resolve keeps_mapAndTryAddIndToPop : keeps.

Lemma keeps_init_loop (fuel n : nat) : keeps (init_loop fuel n).
Proof. induction n as [|n IH]; simpl; keeps_walk; exact IH. Qed.

Lemma keeps_init (fuel : nat) : keeps (init fuel).
Proof. unfold init. keeps_walk; apply keeps_init_loop. Qed.

Lemma keeps_create_loop (fuel n : nat) :
  forall parents newpop tries, keeps (create_loop fuel n parents newpop tries).
Proof.
  induction n as [|n IH]; intros parents newpop tries; simpl; keeps_walk;
    apply IH.
Qed.

Lemma keeps_create_new_pop (fuel : nat) (parents : list ref) :
  keeps (create_new_pop fuel parents).
Proof. unfold create_new_pop. keeps_walk; apply keeps_create_loop. Qed.

Lemma keeps_select_parents : keeps select_parents.
Proof.
  unfold select_parents, direct_selection, sort_pop, truncation_selection.
  keeps_walk; (apply keeps_filterM || apply keeps_mapM); keeps_walk.
Qed.

Lemma keeps_tell (fuel : nat) (fitvals : list Z) : keeps (tell fuel fitvals).
Proof.
  unfold tell, assign_fitness, update_best_ever, print_statistics, the_best_ever,
    pop_at.
  keeps_walk;
    try apply keeps_select_parents; try apply keeps_create_new_pop;
    apply keeps_for_each; keeps_walk.
Qed.

Lemma keeps_evolve (fuel : nat) : keeps (evolve fuel).
Proof.
  unfold evolve, ask. keeps_walk.
  apply keeps_for_each. keeps_walk; [|apply keeps_tell].
  apply keeps_mapM. keeps_walk.
Qed.

Lemma keeps_run (fuel : nat) (cs : list call) : keeps (run fuel cs).
Proof.
  induction cs as [|c rest IH]; simpl; keeps_walk.
  destruct c; simpl; unfold ask; keeps_walk;
    (apply keeps_init || apply keeps_tell || apply keeps_evolve).
Qed.

(** C5.  Start an engine with an empty heap and let it serve any calls
    ([init], [ask], [tell], [evolve]) [cs1] and then any calls [cs2].  Afterwards no two distinct
    individuals ever admitted to a population have the same phenotype;
    the cache after [cs1] is contained in the cache after [cs2] and the
    admissions after [cs1] are a prefix of those after [cs2] (nothing is
    ever removed); and a genome whose phenotype was admitted before the
    end of [cs1] is turned away by [mapAndTryAddIndToPop] after [cs2],
    whether or not
    the individual that carried it is still in the population. *)
Theorem C5_novelty :
  forall (e : GE) (mt lodash : nat -> Z) (fuel1 fuel2 : nat)
         (cs1 cs2 : list call) (w1 w2 : world),
    run fuel1 cs1 (start_world e mt lodash) = Ok (tt, w1) ->
    run fuel2 cs2 w1 = Ok (tt, w2) ->
    (forall i j x y,
        nth_error (heap w2) i = Some x -> nth_error (heap w2) j = Some y ->
        i <> j -> ind_phenotype x <> ind_phenotype y) /\
    incl (cache (this w1)) (cache (this w2)) /\
    (exists l, admitted w2 = admitted w1 ++ l) /\
    (forall fuel g p ind,
        mapGenomeToIndividual (grammar (this w2)) (maxdepth (this w2))
                              (maxcodon (this w2)) fuel g = Ok (Some ind) ->
        In (ind_phenotype ind) (admitted w1) ->
        mapAndTryAddIndToPop fuel g p w2 = Ok (p, w2)).
Proof.
  intros e mt lodash fuel1 fuel2 cs1 cs2 w1 w2 H1 H2.
  destruct (keeps_run _ _ _ _ _ H1) as (_ & _ & N1).
  destruct (keeps_run _ _ _ _ _ H2) as (I2 & [l E2] & N2).
  assert (Hnovel : novel w2).
  { apply N2, N1. split; [constructor | intros x []]. }
  destruct Hnovel as [Hnd Hincl].
  split; [|split; [exact I2 | split; [exists l; exact E2|]]].
  - intros i j x y Hi Hj Hij Heq.
    apply Hij. apply (proj1 (NoDup_nth_error (admitted w2)) Hnd).
    + unfold admitted. rewrite length_map. apply nth_error_Some. congruence.
    + unfold admitted. rewrite !nth_error_map, Hi, Hj. simpl. congruence.
  - intros fuel g p ind Hmap Hin.
    assert (Hc : In (ind_phenotype ind) (cache (this w2))).
    { apply Hincl. rewrite E2. apply in_or_app. left. exact Hin. }
    unfold mapAndTryAddIndToPop, mbind, get_this, lift. rewrite Hmap. simpl.
    unfold Set_has. rewrite (set_mem_correct2 string_dec _ _ Hc). reflexivity.
Qed.

Lemma C5_novelty_witness :
  let w1 := after (run 20 [Init; Ask; Tell [1; 1]%Z]) example_world in
  let w2 := after (run 20 [Ask; Tell [0; 0]%Z]) w1 in
  (forall i j x y,
      nth_error (heap w2) i = Some x -> nth_error (heap w2) j = Some y ->
      i <> j -> ind_phenotype x <> ind_phenotype y) /\
  incl (cache (this w1)) (cache (this w2)) /\
  (exists l, admitted w2 = admitted w1 ++ l) /\
  (forall fuel g p ind,
      mapGenomeToIndividual (grammar (this w2)) (maxdepth (this w2))
                            (maxcodon (this w2)) fuel g = Ok (Some ind) ->
      In (ind_phenotype ind) (admitted w1) ->
      mapAndTryAddIndToPop fuel g p w2 = Ok (p, w2)).
Proof.
  apply (C5_novelty example_GE example_mt example_lodash 20 20
                    [Init; Ask; Tell [1; 1]%Z] [Ask; Tell [0; 0]%Z]).
  - vm_compute. reflexivity.
  - vm_compute. reflexivity.
Defined.

(** ** Sorting and truncation selection *)

Lemma key_leb_refl (a : key) : key_leb a a = true.
Proof. destruct a; simpl; try reflexivity. apply Z.leb_refl. Qed.

Lemma key_leb_total (a b : key) : key_leb a b = false -> key_leb b a = true.
Proof.
  destruct a, b; simpl; try discriminate; try reflexivity.
  intros H. apply Z.leb_gt in H. apply Z.leb_le. lia.
Qed.

Lemma key_leb_trans (a b c : key) :
  key_leb a b = true -> key_leb b c = true -> key_leb a c = true.
Proof.
  destruct a, b, c; simpl; try discriminate; try reflexivity.
  intros H1 H2. apply Z.leb_le in H1, H2. apply Z.leb_le. lia.
Qed.

Section SortBy.

Context {A : Type}.
Variable k : A -> key.

Lemma insert_by_perm (x : A) (l : list A) : Permutation (insert_by k x l) (x :: l).
Proof.
  induction l as [|y t IH]; simpl.
  - apply Permutation_refl.
  - destruct (key_leb (k x) (k y)).
    + apply Permutation_refl.
    + eapply perm_trans; [apply perm_skip, IH | apply perm_swap].
Qed.

Lemma sortBy_perm (l : list A) : Permutation (sortBy k l) l.
Proof.
  induction l as [|x t IH]; simpl.
  - apply perm_nil.
  - eapply perm_trans; [apply insert_by_perm | apply perm_skip, IH].
Qed.

Lemma insert_by_sorted (x : A) (l : list A) :
  StronglySorted (key_le k) l -> StronglySorted (key_le k) (insert_by k x l).
Proof.
  induction 1 as [|y t Hs IH Hall]; simpl.
  - constructor; constructor.
  - destruct (key_leb (k x) (k y)) eqn:Hxy.
    + constructor; [constructor; assumption|].
      constructor; [exact Hxy|].
      eapply Forall_impl; [|exact Hall].
      intros z Hz. unfold key_le in *. eapply key_leb_trans; eassumption.
    + constructor; [exact IH|].
      apply (Permutation_Forall (Permutation_sym (insert_by_perm x t))).
      constructor; [|exact Hall].
      unfold key_le. apply key_leb_total. exact Hxy.
Qed.

Lemma sortBy_sorted (l : list A) : StronglySorted (key_le k) (sortBy k l).
Proof.
  induction l as [|x t IH]; simpl.
  - constructor.
  - apply insert_by_sorted. exact IH.
Qed.

(** The last element of a sorted array ranks highest. *)
Lemma sorted_last (l : list A) :
  StronglySorted (key_le k) l ->
  forall z, nth_error l (length l - 1) = Some z ->
  forall x, In x l -> key_le k x z.
Proof.
  induction 1 as [|y t Hs IH Hall]; intros z Hz x Hx.
  - destruct Hx.
  - simpl in Hz. rewrite Nat.sub_0_r in Hz. destruct t as [|y' t'].
    + simpl in Hz. inversion Hz; subst. destruct Hx as [<-|[]].
      unfold key_le. apply key_leb_refl.
    + assert (Hz' : nth_error (y' :: t') (length (y' :: t') - 1) = Some z).
      { simpl. rewrite Nat.sub_0_r. exact Hz. }
      destruct Hx as [<-|Hx].
      * rewrite Forall_forall in Hall. apply Hall.
        eapply nth_error_In. exact Hz'.
      * eapply IH; eassumption.
Qed.

End SortBy.

Lemma insert_by_map {A B : Type} (g : A -> B) (kb : B -> key) (x : A) (l : list A) :
  insert_by kb (g x) (map g l) = map g (insert_by (fun a => kb (g a)) x l).
Proof.
  induction l as [|y t IH]; simpl; [reflexivity|].
  destruct (key_leb (kb (g x)) (kb (g y))); simpl; [reflexivity|].
  rewrite IH. reflexivity.
Qed.

Lemma sortBy_map {A B : Type} (g : A -> B) (kb : B -> key) (l : list A) :
  sortBy kb (map g l) = map g (sortBy (fun a => kb (g a)) l).
Proof.
  induction l as [|x t IH]; simpl; [reflexivity|].
  rewrite IH, insert_by_map. reflexivity.
Qed.

(** Sorting the pairs of reference and criterion and dropping the
    criterion is sorting the references. *)
Lemma sort_pairs (f : ref -> key) (l : list ref) :
  map fst (sortBy snd (map (fun r => (r, f r)) l)) = sortBy f l.
Proof.
  rewrite (sortBy_map (fun r => (r, f r)) snd), map_map. simpl.
  apply map_id.
Qed.

Lemma mbind_ok {A B : Type} (m : M A) (k : A -> M B) (w w1 : world) (a : A) :
  m w = Ok (a, w1) -> mbind m k w = k a w1.
Proof. intros H. unfold mbind. rewrite H. reflexivity. Qed.

Lemma deref_ok (w : world) (r : ref) (x : individual) :
  nth_error (heap w) r = Some x -> deref r w = Ok (x, w).
Proof. intros H. unfold deref, mbind, get_heap. rewrite H. reflexivity. Qed.

Lemma keyed_pop (kf : fit -> key) (w : world) (l : list ref) :
  Forall (fun r => r < length (heap w)) l ->
  mapM (fun r => x <- deref r ;; ret (r, kf (ind_fitness x))) l w
  = Ok (map (fun r => (r, kf (fitness_at (heap w) r))) l, w).
Proof.
  induction 1 as [|r t Hr _ IH]; cbn [mapM map]; [reflexivity|].
  destruct (nth_error (heap w) r) as [x|] eqn:Hx.
  - erewrite mbind_ok; [|erewrite mbind_ok; [reflexivity | apply deref_ok; exact Hx]].
    erewrite mbind_ok; [|exact IH].
    unfold ret, fitness_at. rewrite Hx. reflexivity.
  - apply nth_error_None in Hx. lia.
Qed.

Lemma sort_pop_sorts (kf : fit -> key) (w : world) :
  Forall (fun r => r < length (heap w)) (pop (this w)) ->
  sort_pop kf w
  = Ok (sortBy (fun r => kf (fitness_at (heap w) r)) (pop (this w)), w).
Proof.
  intros Hvalid. unfold sort_pop.
  erewrite mbind_ok; [|reflexivity].
  erewrite mbind_ok; [|apply keyed_pop; exact Hvalid].
  unfold ret.
  rewrite (sort_pairs (fun r => kf (fitness_at (heap w) r))). reflexivity.
Qed.






(** ** The ask/tell protocol *)

Lemma for_each_ext {A : Type} (f g : A -> M unit) (l : list A) :
  (forall x, In x l -> forall w, f x w = g x w) ->
  forall w, for_each l f w = for_each l g w.
Proof.
  induction l as [|x t IH]; intros Hfg w; simpl; [reflexivity|].
  unfold mbind. rewrite (Hfg x (or_introl eq_refl)).
  destruct (g x w) as [[u w1]| |]; try reflexivity.
  apply IH. intros y Hy. apply Hfg. right. exact Hy.
Qed.

Lemma fitval_firstn (fitvals : list Z) (n i : nat) :
  i < n -> fitval (firstn n fitvals) i = fitval fitvals i.
Proof.
  intros Hi. unfold fitval. rewrite nth_error_firstn.
  destruct (Nat.ltb_spec i n); [reflexivity | lia].
Qed.

Lemma assign_fitness_firstn (fitvals : list Z) (w : world) :
  assign_fitness fitvals w
  = assign_fitness (firstn (popsize (this w)) fitvals) w.
Proof.
  unfold assign_fitness.
  erewrite !mbind_ok by reflexivity.
  apply for_each_ext. intros i Hi w0. apply in_seq in Hi.
  rewrite fitval_firstn by lia. reflexivity.
Qed.

Lemma length_list_set {A : Type} (l : list A) :
  forall i x, length (list_set l i x) = length l.
Proof.
  induction l as [|h t IH]; intros [|i] x; simpl; try reflexivity.
  rewrite IH. reflexivity.
Qed.

Lemma write_fitness_ok (r : ref) (f : fit) (w : world) :
  r < length (heap w) ->
  exists w', write_fitness r f w = Ok (tt, w') /\
             this w' = this w /\ length (heap w') = length (heap w).
Proof.
  intros Hr. unfold write_fitness.
  destruct (nth_error (heap w) r) as [x|] eqn:Hx.
  - erewrite mbind_ok; [|apply deref_ok; exact Hx].
    eexists. split; [reflexivity|]. simpl. split; [reflexivity|].
    apply length_list_set.
  - apply nth_error_None in Hx. lia.
Qed.

(** The loop that reads the fitness list returns whatever the list is. *)
Lemma assign_loop_ok (fitvals : list Z) (l : list nat) :
  forall w,
    Forall (fun i => i < length (pop (this w))) l ->
    Forall (fun r => r < length (heap w)) (pop (this w)) ->
    exists w',
      for_each l (fun i => r <- pop_at i ;; write_fitness r (fitval fitvals i)) w
      = Ok (tt, w') /\
      this w' = this w /\ length (heap w') = length (heap w).
Proof.
  induction l as [|i t IH]; intros w Hl Hvalid; simpl.
  - exists w. repeat split.
  - inversion Hl as [|? ? Hi Ht]; subst.
    destruct (nth_error (pop (this w)) i) as [r|] eqn:Hr;
      [|apply nth_error_None in Hr; lia].
    assert (Hrv : r < length (heap w)).
    { rewrite Forall_forall in Hvalid. apply Hvalid.
      eapply nth_error_In. exact Hr. }
    destruct (write_fitness_ok r (fitval fitvals i) w Hrv) as (w1 & Hw & Ht1 & Hh1).
    assert (Hbody : (r <- pop_at i ;; write_fitness r (fitval fitvals i)) w
                    = Ok (tt, w1)).
    { erewrite mbind_ok; [exact Hw|].
      unfold pop_at. erewrite mbind_ok; [|reflexivity]. rewrite Hr. reflexivity. }
    erewrite mbind_ok; [|exact Hbody].
    destruct (IH w1) as (w2 & Hrun & Ht2 & Hh2).
    + rewrite Ht1. exact Ht.
    + rewrite Ht1, Hh1. exact Hvalid.
    + exists w2. split; [exact Hrun|]. split; congruence.
Qed.

(** C3 (as amended).  [tell] checks neither the length of the fitness
    list nor that [ask] was called.  It reads [fitvals[i]] for
    [i < popsize] only: entries past [popsize] are ignored, so that the
    call does exactly what it does on the first [popsize] entries, and an
    entry that is missing reads as [undefined].  On a population of at
    least [popsize] individuals the loop that stores the fitness values
    returns for every list, of whatever length.  [ask] returns the
    population and leaves the engine as it was, so nothing records
    whether it was called. *)
Theorem C3_tell_is_unchecked :
  forall (fuel : nat) (fitvals : list Z) (w : world),
    tell fuel fitvals w = tell fuel (firstn (popsize (this w)) fitvals) w /\
    (forall i, length fitvals <= i -> fitval fitvals i = FUndef) /\
    (popsize (this w) <= length (pop (this w)) ->
     Forall (fun r => r < length (heap w)) (pop (this w)) ->
     exists w', assign_fitness fitvals w = Ok (tt, w')) /\
    ask w = Ok (pop (this w), w).
Proof.
  intros fuel fitvals w. split; [|split; [|split]].
  - unfold tell. unfold mbind at 1. symmetry. unfold mbind at 1. symmetry.
    rewrite <- assign_fitness_firstn. reflexivity.
  - intros i Hi. unfold fitval.
    destruct (nth_error fitvals i) eqn:E; [|reflexivity].
    assert (i < length fitvals) by (apply nth_error_Some; congruence). lia.
  - intros Hsize Hvalid. unfold assign_fitness.
    erewrite mbind_ok; [|reflexivity].
    destruct (assign_loop_ok fitvals (seq 0 (popsize (this w))) w) as (w' & Hrun & _).
    + apply Forall_forall. intros i Hi. apply in_seq in Hi. lia.
    + exact Hvalid.
    + exists w'. exact Hrun.
  - reflexivity.
Qed.

Lemma C3_tell_is_unchecked_witness :
  let w := after (run 20 [Init]) example_world in
  exists w', assign_fitness [1; 1; 7]%Z w = Ok (tt, w').
Proof.
  intro w.
  apply (proj1 (proj2 (proj2 (C3_tell_is_unchecked 20 [1; 1; 7]%Z w)))).
  - vm_compute. repeat constructor.
  - vm_compute. repeat constructor.
Defined.

(** C3 as stated fails: on an engine of two individuals, [tell] with
    three fitness values, and [tell] with no [ask] before it, both return
    normally and replace the population. *)
Lemma C3_counterexample :
  popsize example_GE = 2 /\
  observe (fun w => pop (this w)) (run 20 [Init]) example_world = Ok [0; 1] /\
  observe (fun w => pop (this w)) (run 20 [Init; Ask; Tell [1; 1; 7]%Z]) example_world
  = Ok [1; 2] /\
  observe (fun w => pop (this w)) (run 20 [Init; Tell [1; 1]%Z]) example_world
  = Ok [1; 2].
Proof. repeat split; vm_compute; reflexivity. Qed.

(** ** Best ever *)

(** C6.  The code lets [best_ever] worsen.  On a maximising engine of two
    individuals, [tell([1, 1])] makes the later of the two equally fit
    individuals [best_ever], with fitness 1; elitism carries that same
    object into the next population as its first element; [tell([0, 0])]
    then overwrites its fitness with 0 before the scan, and [best_ever]
    ends with fitness 0. *)
Theorem C6_best_ever_worsens :
  maximise example_GE = true /\
  observe (fun w => (best_ever (this w), pop (this w), best_fitness w))
          (run 20 [Init; Ask; Tell [1; 1]%Z]) example_world
  = Ok (Some 1, [1; 2], Some (FNum 1)) /\
  observe best_fitness
          (run 20 [Init; Ask; Tell [1; 1]%Z; Ask; Tell [0; 0]%Z]) example_world
  = Ok (Some (FNum 0)).
Proof. repeat split; vm_compute; reflexivity. Qed.

(** ** Direct selection *)

(** On fitness values that are not negative, a true [x[3]] is a
    strictly positive one. *)
Lemma truthy_nonneg (z : Z) : (0 <= z)%Z -> truthy (FNum z) = Z.ltb 0 z.
Proof.
  intros Hz. simpl.
  destruct (Z.eqb_spec z 0); destruct (Z.ltb_spec 0 z); simpl; lia || reflexivity.
Qed.

(** C9.  The code filters on [x[3]] as a condition, which holds for any
    number other than 0.  With the fitness values -1 and 0 told to an
    interactive engine of two individuals, no fitness is strictly
    positive, yet the pool is the first individual alone and not the
    whole population. *)
Theorem C9_direct_selection_takes_negative :
  interactive example_GE = true /\
  observe (fun w => (pop (this w), map (fitness_at (heap w)) (pop (this w))))
          (init 20 ;;; assign_fitness [-1; 0]%Z) example_world
  = Ok ([0; 1], [FNum (-1); FNum 0]) /\
  result (init 20 ;;; assign_fitness [-1; 0]%Z ;;; direct_selection) example_world
  = Ok [0] /\
  result (init 20 ;;; tell_until_selection [-1; 0]%Z) example_world = Ok [0].
Proof. repeat split; vm_compute; reflexivity. Qed.

(** * Further properties *)

(** ** The mapper: what a derivation reads and what it returns *)

Lemma concat_cons (x : string) (xs : list string) :
  String.concat "" (x :: xs) = (x ++ String.concat "" xs)%string.
Proof.
  destruct xs as [|y ys]; simpl; [|reflexivity].
  induction x as [|c x IH]; simpl; [reflexivity | rewrite <- IH; reflexivity].
Qed.

Lemma append_assoc (a b c : string) : ((a ++ b) ++ c = a ++ (b ++ c))%string.
Proof. induction a as [|x a IH]; simpl; [reflexivity | rewrite IH; reflexivity]. Qed.

Lemma concat_app (l1 l2 : list string) :
  String.concat "" (l1 ++ l2)
  = (String.concat "" l1 ++ String.concat "" l2)%string.
Proof.
  induction l1 as [|x l1 IH]; [reflexivity|].
  change ((x :: l1) ++ l2) with (x :: (l1 ++ l2)).
  rewrite !concat_cons, IH, append_assoc. reflexivity.
Qed.

Lemma terminal_text_concat (G : Grammar) (d : list string) :
  Forall (terminal_text G) d -> terminal_text G (String.concat "" d).
Proof.
  induction 1 as [|s d [ts [Hts ->]] _ [us [Hus IH]]].
  - exists []. split; [constructor | reflexivity].
  - exists (ts ++ us). split.
    + apply Forall_app. split; assumption.
    + rewrite concat_cons, concat_app, IH. reflexivity.
Qed.

Lemma expand_terminal_text (G : Grammar) self :
  (forall it sym str it', self it sym = Ok (Some str, it') -> terminal_text G str) ->
  forall syms d it p it',
    Forall (terminal_text G) d ->
    expand G self syms d it = Ok (Some p, it') -> terminal_text G p.
Proof.
  intros Hself syms. induction syms as [|sym rest IH]; intros d it p it' Hd H;
    simpl in H.
  - inversion H; subst. apply terminal_text_concat. exact Hd.
  - destruct (Set_has (terminals G) sym) eqn:Hterm.
    + eapply IH; [|exact H]. apply Forall_app. split; [exact Hd|].
      constructor; [|constructor]. exists [sym]. split; [|reflexivity].
      constructor; [|constructor].
      apply (set_mem_correct1 string_dec). exact Hterm.
    + destruct (self it sym) as [[[str|] it1]| |] eqn:Hs; simpl in H;
        try discriminate.
      eapply IH; [|exact H]. apply Forall_app. split; [exact Hd|].
      constructor; [|constructor]. eapply Hself. exact Hs.
Qed.

(** X1.  A phenotype is made of terminals only: whenever the mapper
    returns a text, the text is a concatenation of terminal symbols of
    the grammar, so that no nonterminal is ever left in it. *)
Theorem mapper_phenotype_is_terminal_text :
  forall G md mc fuel it depth s p it',
    mapGenomeToPhenotype G md mc fuel it depth s = Ok (Some p, it') ->
    terminal_text G p.
Proof.
  intros G md mc fuel. induction fuel as [|fuel IH]; intros it depth s p it' H.
  - discriminate.
  - simpl in H.
    destruct (it_next it) as [[[idx codon]|] g1]; [|discriminate].
    destruct (rules_get (rules G) _) as [r0|]; [|discriminate].
    match type of H with
    | bind ?m _ = _ => destruct m as [[codon' p']| |]; simpl in H;
                         try discriminate
    end.
    destruct p' as [prod|]; [|discriminate].
    eapply expand_terminal_text; [|constructor|exact H].
    intros it0 sym str it1 Hc. eapply IH. exact Hc.
Qed.

Lemma mapper_phenotype_is_terminal_text_witness :
  terminal_text example_grammar "01".
Proof.
  apply (mapper_phenotype_is_terminal_text example_grammar 6 (Num 3) 5
           (genomeIterator (nums [2; 0; 1]%Z)) 0 None "01"
           (iter_at (nums [2; 0; 1]%Z) 3)).
  vm_compute. reflexivity.
Defined.

Lemma it_next_done (it it' : iter) :
  it_next it = (None, it') -> it' = it /\ length (it_arr it) <= it_pos it.
Proof.
  unfold it_next. destruct (nth_error (it_arr it) (it_pos it)) eqn:E.
  - discriminate.
  - intros H. split; [congruence|]. apply nth_error_None. exact E.
Qed.

Lemma expand_null_at_end (G : Grammar) self :
  (forall it sym it', self it sym = Ok (None, it') ->
                      length (it_arr it') <= it_pos it') ->
  forall syms d it it',
    expand G self syms d it = Ok (None, it') ->
    length (it_arr it') <= it_pos it'.
Proof.
  intros Hself syms. induction syms as [|sym rest IH]; intros d it it' H;
    simpl in H; [discriminate|].
  destruct (Set_has (terminals G) sym); [eapply IH; exact H|].
  destruct (self it sym) as [[[str|] it1]| |] eqn:Hs; simpl in H;
    try discriminate.
  - eapply IH. exact H.
  - inversion H; subst. eapply Hself. exact Hs.
Qed.

(** X2.  The mapper gives up only for want of codons: when it returns
    [null], the iterator it leaves behind is at the end of the genome. *)
Theorem mapper_null_only_when_exhausted :
  forall G md mc fuel it depth s it',
    mapGenomeToPhenotype G md mc fuel it depth s = Ok (None, it') ->
    it_arr it' = it_arr it /\ length (it_arr it) <= it_pos it'.
Proof.
  intros G md mc fuel it depth s it' H.
  pose proof (mapGenomeToPhenotype_advances _ _ _ _ _ _ _ _ _ H) as [Harr _].
  split; [exact Harr|]. rewrite <- Harr. clear Harr.
  revert it depth s it' H.
  induction fuel as [|fuel IH]; intros it depth s it' H; [discriminate|].
  simpl in H.
  destruct (it_next it) as [[[idx codon]|] g1] eqn:Hnext.
  - destruct (rules_get (rules G) _) as [r0|]; [|discriminate].
    match type of H with
    | bind ?m _ = _ => destruct m as [[codon' p']| |]; simpl in H;
                         try discriminate
    end.
    destruct p' as [prod|]; [|discriminate].
    eapply expand_null_at_end; [|exact H].
    intros it0 sym it1 Hc. eapply IH. exact Hc.
  - destruct (it_next_done _ _ Hnext) as [-> Hend].
    inversion H; subst. exact Hend.
Qed.

Lemma mapper_null_only_when_exhausted_witness :
  it_arr (iter_at (nums [2; 0]%Z) 2) = it_arr (genomeIterator (nums [2; 0]%Z)) /\
  length (it_arr (genomeIterator (nums [2; 0]%Z))) <= it_pos (iter_at (nums [2; 0]%Z) 2).
Proof.
  apply (mapper_null_only_when_exhausted example_grammar 6 (Num 3) 5
           (genomeIterator (nums [2; 0]%Z)) 0 None).
  vm_compute. reflexivity.
Defined.

(** A call that returns a text has read at least one codon. *)
Lemma mapper_text_consumes G md mc fuel it depth s p it' :
  mapGenomeToPhenotype G md mc fuel it depth s = Ok (Some p, it') ->
  it_pos it < it_pos it' /\ it_pos it < length (it_arr it).
Proof.
  intros H. destruct fuel as [|fuel]; [discriminate|]. simpl in H.
  unfold it_next in H.
  destruct (nth_error (it_arr it) (it_pos it)) as [c|] eqn:Hc; [|discriminate].
  assert (Hlt : it_pos it < length (it_arr it)) by (apply nth_error_Some; congruence).
  split; [|exact Hlt].
  destruct (rules_get (rules G) _) as [r0|]; [|discriminate].
  match type of H with
  | bind ?m _ = _ => destruct m as [[codon' p']| |]; simpl in H;
                       try discriminate
  end.
  destruct p' as [prod|]; [|discriminate].
  apply expand_advances in H.
  - destruct H as [_ Hle]. simpl in Hle. lia.
  - intros it0 sym r1 it1 Hm.
    eapply mapGenomeToPhenotype_advances. exact Hm.
Qed.

(** What [mapGenomeToIndividual] returns. *)
Lemma mapped_individual :
  forall G md mc fuel g ind,
    mapGenomeToIndividual G md mc fuel g = Ok (Some ind) ->
    (0 <= ind_used ind)%Z /\ (ind_used ind + 1 < Z.of_nat (length g))%Z /\
    ind_fitness ind = FNull /\
    mapGenomeToPhenotype G md mc fuel (genomeIterator g) 0 None
    = Ok (Some (ind_phenotype ind), iter_at g (Z.to_nat (ind_used ind + 1))).
Proof.
  intros G md mc fuel g ind H. unfold mapGenomeToIndividual in H.
  destruct (mapGenomeToPhenotype G md mc fuel (genomeIterator g) 0 None)
    as [[[p|] it']| |] eqn:Hmap; simpl in H; try discriminate.
  pose proof (mapGenomeToPhenotype_advances _ _ _ _ _ _ _ _ _ Hmap) as [Harr _].
  pose proof (mapper_text_consumes _ _ _ _ _ _ _ _ _ Hmap) as [Hpos _].
  simpl in Harr, Hpos. unfold it_next in H.
  destruct (nth_error (it_arr it') (it_pos it')) as [c|] eqn:Hc; [|discriminate].
  assert (Hlt : it_pos it' < length g).
  { rewrite <- Harr. apply nth_error_Some. congruence. }
  inversion H; subst ind; simpl.
  split; [lia|]. split; [lia|]. split; [reflexivity|].
  replace (Z.to_nat (Z.of_nat (it_pos it') - 1 + 1)) with (it_pos it') by lia.
  destruct it' as [arr pos]. simpl in *. subst arr. reflexivity.
Qed.


(** X3.  The count stored in an individual is in range: for every
    individual that [mapGenomeToIndividual] returns, the derivation read
    exactly [used + 1] codons, with [0 <= used] and [used + 1] strictly
    less than the genome length, so that at least one codon of the genome
    was left unread. *)
Theorem individual_used_in_range :
  forall G md mc fuel g ind,
    mapGenomeToIndividual G md mc fuel g = Ok (Some ind) ->
    (0 <= ind_used ind)%Z /\ (ind_used ind + 1 < Z.of_nat (length g))%Z /\
    ind_fitness ind = FNull /\
    mapGenomeToPhenotype G md mc fuel (genomeIterator g) 0 None
    = Ok (Some (ind_phenotype ind), iter_at g (Z.to_nat (ind_used ind + 1))).
Proof. exact mapped_individual. Qed.

Lemma individual_used_in_range_witness :
  let ind := {| ind_genome := nums [2; 0; 1; 0]%Z; ind_phenotype := "01";
                ind_used := 2%Z; ind_fitness := FNull |} in
  (0 <= ind_used ind)%Z /\
  (ind_used ind + 1 < Z.of_nat (length (nums [2; 0; 1; 0]%Z)))%Z /\
  ind_fitness ind = FNull /\
  mapGenomeToPhenotype example_grammar 6 (Num 3) 5
    (genomeIterator (nums [2; 0; 1; 0]%Z)) 0 None
  = Ok (Some (ind_phenotype ind),
        iter_at (nums [2; 0; 1; 0]%Z) (Z.to_nat (ind_used ind + 1))).
Proof.
  apply (individual_used_in_range example_grammar 6 (Num 3) 5 (nums [2; 0; 1; 0]%Z)).
  vm_compute. reflexivity.
Defined.

Lemma nth_error_agree {A : Type} (g g' : list A) (k n : nat) :
  firstn k g = firstn k g' -> n < k -> nth_error g' n = nth_error g n.
Proof.
  intros Hk Hn.
  assert (H : nth_error (firstn k g') n = nth_error (firstn k g) n)
    by (rewrite Hk; reflexivity).
  rewrite !nth_error_firstn in H.
  destruct (Nat.ltb_spec n k); [exact H | lia].
Qed.

Lemma iter_eta (it : iter) : it = iter_at (it_arr it) (it_pos it).
Proof. destruct it. reflexivity. Qed.

Section Prefix.

Variable G : Grammar.
Variables g g' : list jsnum.
Variable k : nat.
Hypothesis Hagree : firstn k g = firstn k g'.

Lemma expand_prefix self1 self2 :
  (forall it sym r it', self1 it sym = Ok (r, it') -> advances it it') ->
  (forall n sym str m,
      self1 (iter_at g n) sym = Ok (Some str, iter_at g m) -> m <= k ->
      self2 (iter_at g' n) sym = Ok (Some str, iter_at g' m)) ->
  forall syms d n p m,
    expand G self1 syms d (iter_at g n) = Ok (Some p, iter_at g m) -> m <= k ->
    expand G self2 syms d (iter_at g' n) = Ok (Some p, iter_at g' m).
Proof.
  intros Hadv Hself syms. induction syms as [|sym rest IH]; intros d n p m H Hm;
    simpl in H |- *.
  - inversion H; subst. reflexivity.
  - destruct (Set_has (terminals G) sym); [apply IH; assumption|].
    destruct (self1 (iter_at g n) sym) as [[[str|] it1]| |] eqn:Hs; simpl in H;
      try discriminate.
    pose proof (Hadv _ _ _ _ Hs) as [Harr _]. simpl in Harr.
    pose proof (expand_advances G self1 Hadv _ _ _ _ _ H) as [_ Hle]. simpl in Hle.
    rewrite (iter_eta it1), Harr in Hs, H.
    rewrite (Hself _ _ _ _ Hs) by lia. simpl.
    apply IH; assumption.
Qed.

Lemma mapper_prefix md mc fuel :
  forall n depth s p m,
    mapGenomeToPhenotype G md mc fuel (iter_at g n) depth s
    = Ok (Some p, iter_at g m) ->
    m <= k ->
    mapGenomeToPhenotype G md mc fuel (iter_at g' n) depth s
    = Ok (Some p, iter_at g' m).
Proof.
  induction fuel as [|fuel IH]; intros n depth s p m H Hm; [discriminate|].
  pose proof (mapper_text_consumes _ _ _ _ _ _ _ _ _ H) as [Hlt _]. simpl in Hlt.
  simpl in H |- *. unfold it_next in H |- *. simpl in H |- *.
  rewrite (nth_error_agree g g' k n Hagree) by lia.
  destruct (nth_error g n) as [codon|]; [|discriminate].
  destruct (rules_get (rules G) _) as [r0|]; [|discriminate].
  match type of H with
  | bind ?e _ = _ => destruct e as [[codon' p']| |]; simpl in H |- *;
                       try discriminate
  end.
  destruct p' as [prod|]; [|discriminate].
  eapply expand_prefix; [| |exact H|exact Hm].
  - intros it sym r it' Hc. eapply mapGenomeToPhenotype_advances. exact Hc.
  - intros n0 sym str m0 Hc Hm0. apply IH; assumption.
Qed.

End Prefix.

(** X4.  A derivation depends only on the codons it reads.  If mapping
    [g] gives an individual, then every genome [g'] that agrees with [g]
    on the [used + 1] codons read, and is long enough for the mapping to
    succeed, gives the same phenotype and the same count: the unread tail
    of a genome has no effect on the phenotype. *)
Theorem mapping_ignores_unread_codons :
  forall G md mc fuel g g' ind,
    mapGenomeToIndividual G md mc fuel g = Ok (Some ind) ->
    firstn (Z.to_nat (ind_used ind + 1)) g = firstn (Z.to_nat (ind_used ind + 1)) g' ->
    (ind_used ind + 1 < Z.of_nat (length g'))%Z ->
    mapGenomeToIndividual G md mc fuel g'
    = Ok (Some {| ind_genome := g'; ind_phenotype := ind_phenotype ind;
                  ind_used := ind_used ind; ind_fitness := FNull |}).
Proof.
  intros G md mc fuel g g' ind H Hagree Hlen.
  destruct (mapped_individual _ _ _ _ _ _ H) as (Hlo & _ & _ & Hmap).
  set (k := Z.to_nat (ind_used ind + 1)) in *.
  pose proof (mapper_prefix G g g' k Hagree md mc fuel 0 0 None _ k Hmap (le_n k))
    as Hmap'.
  unfold mapGenomeToIndividual.
  change (genomeIterator g') with (iter_at g' 0). rewrite Hmap'. simpl.
  unfold it_next. simpl.
  destruct (nth_error g' k) as [c|] eqn:Hc.
  - replace (Z.of_nat k - 1)%Z with (ind_used ind) by (unfold k; lia).
    reflexivity.
  - apply nth_error_None in Hc. unfold k in Hc. lia.
Qed.

Lemma mapping_ignores_unread_codons_witness :
  mapGenomeToIndividual example_grammar 6 (Num 3) 5 (nums [2; 0; 1; 2; 2; 2]%Z)
  = Ok (Some {| ind_genome := nums [2; 0; 1; 2; 2; 2]%Z; ind_phenotype := "01";
                ind_used := 2%Z; ind_fitness := FNull |}).
Proof.
  apply (mapping_ignores_unread_codons example_grammar 6 (Num 3) 5
           (nums [2; 0; 1; 0]%Z) (nums [2; 0; 1; 2; 2; 2]%Z)
           {| ind_genome := nums [2; 0; 1; 0]%Z; ind_phenotype := "01";
              ind_used := 2%Z; ind_fitness := FNull |}).
  - vm_compute. reflexivity.
  - reflexivity.
  - simpl. lia.
Defined.

(** ** The mapper: termination *)

Section Returns.

Variable G : Grammar.
Variable md : nat.
Variable M : Z.
Variable K : nat.
Variable g : list jsnum.
Hypothesis Hgrammar : mappable G M K.
Hypothesis Hgenome : Forall natural g.

Lemma expand_returns self (bound : nat) :
  (forall it sym r it', self it sym = Ok (r, it') -> advances it it') ->
  (forall it sym,
      it_arr it = g -> bound <= it_pos it ->
      (exists r, rules_get (rules G) sym = Some r) ->
      exists o it', self it sym = Ok (o, it')) ->
  forall syms d it,
    it_arr it = g -> bound <= it_pos it ->
    (forall sym, In sym syms -> Set_has (terminals G) sym = false ->
                 exists r, rules_get (rules G) sym = Some r) ->
    exists o it', expand G self syms d it = Ok (o, it').
Proof.
  intros Hadv Hself syms. induction syms as [|sym rest IH];
    intros d it Harr Hpos Hrules; simpl.
  - eexists. eexists. reflexivity.
  - destruct (Set_has (terminals G) sym) eqn:Hterm.
    + apply IH; [assumption | assumption |].
      intros s Hs. apply Hrules. right. exact Hs.
    + destruct (Hself it sym Harr Hpos) as (o & it1 & Hcall).
      { apply Hrules; [left; reflexivity | exact Hterm]. }
      rewrite Hcall. simpl.
      destruct o as [str|]; [|eexists; eexists; reflexivity].
      destruct (Hadv _ _ _ _ Hcall) as [Harr1 Hpos1].
      apply IH; [congruence | lia |].
      intros s Hs. apply Hrules. right. exact Hs.
Qed.

Lemma mapper_returns_from :
  forall fuel n depth s,
    match s with
    | None => True
    | Some s' => exists r, rules_get (rules G) s' = Some r
    end ->
    (length g - n) + K + 1 <= fuel ->
    exists o it',
      mapGenomeToPhenotype G md (Num M) fuel (iter_at g n) depth s = Ok (o, it').
Proof.
  destruct Hgrammar as (HM & Hstart & Hrules).
  induction fuel as [|fuel IH]; intros n depth s Hs Hfuel; [lia|].
  simpl. unfold it_next. simpl.
  set (s0 := match s with Some s1 => s1 | None => start_rule G end).
  assert (Hr : exists r, rules_get (rules G) s0 = Some r).
  { unfold s0. destruct s; [exact Hs | exact Hstart]. }
  destruct Hr as [r Hr]. rewrite Hr.
  destruct (Hrules _ _ Hr) as (Hne & HK & Hdiv & Hexit & Hclosed).
  destruct (nth_error g n) as [codon|] eqn:Hcodon;
    [|eexists; eexists; reflexivity].
  assert (Hn : n < length g) by (apply nth_error_Some; congruence).
  assert (Hnat : natural codon).
  { rewrite Forall_forall in Hgenome. apply Hgenome.
    eapply nth_error_In. exact Hcodon. }
  destruct Hnat as [z [-> Hz]].
  destruct (choose_production r z Hne Hz) as [Hsel Hidx]. rewrite Hsel.
  destruct (js_get_Num r _ Hidx) as [prod [Hget Hnth]].
  assert (Hcp : exists c' prod',
             (if Nat.leb md depth && Set_has (recursive_NTs G) s0
              then escape (Num M) fuel r s0 (Num z)
                          (js_get r (Num (z mod Z.of_nat (length r))))
              else Ok (Num z, js_get r (Num (z mod Z.of_nat (length r)))))
             = Ok (c', Some prod') /\ In prod' r).
  { destruct (Nat.leb md depth && Set_has (recursive_NTs G) s0) eqn:Hdeep.
    - apply andb_prop in Hdeep. destruct Hdeep as [_ Hrec].
      destruct (Hexit Hrec) as (t & prod_t & Ht & Hout).
      destruct (escape_finds_exit M r s0 HM Hdiv t prod_t Ht Hout fuel z Hz)
        as (c' & prod' & Hesc & _ & Hin); [lia|].
      rewrite Hsel in Hesc. rewrite Hesc.
      eexists. eexists. split; [reflexivity | exact Hin].
    - rewrite Hget. eexists. eexists. split; [reflexivity|].
      eapply nth_error_In. exact Hnth. }
  destruct Hcp as (c' & prod' & -> & Hin). simpl.
  apply (expand_returns _ (S n)).
  - intros it sym r1 it1 Hc. eapply mapGenomeToPhenotype_advances. exact Hc.
  - intros it sym Harr Hpos Hsym.
    rewrite (iter_eta it), Harr. apply IH; [exact Hsym | lia].
  - reflexivity.
  - simpl. lia.
  - intros sym Hsym Hterm. eapply Hclosed; eassumption.
Qed.

End Returns.

(** X5.  On a grammar whose symbols all have rules, whose rules are not
    empty and have a number of productions that divides the codon
    modulus, and whose recursive nonterminals each have a production that
    does not contain them, the mapping of a genome of natural numbers
    always returns, with a phenotype or with [null]: it neither throws
    nor stays in the escape loop.  A fuel of the genome length plus the
    largest number of productions plus one is enough. *)
Theorem mapper_returns :
  forall G md M K g fuel,
    mappable G M K -> Forall natural g ->
    length g + K + 1 <= fuel ->
    exists o it',
      mapGenomeToPhenotype G md (Num M) fuel (genomeIterator g) 0 None = Ok (o, it') /\
      mapGenomeToIndividual G md (Num M) fuel g <> OutOfFuel.
Proof.
  intros G md M K g fuel HG Hg Hfuel.
  destruct (mapper_returns_from G md M K g HG Hg fuel 0 0 None I) as (o & it' & H).
  { lia. }
  exists o, it'. change (iter_at g 0) with (genomeIterator g) in H.
  split; [exact H|].
  unfold mapGenomeToIndividual. rewrite H. simpl.
  destruct o; [|discriminate].
  destruct (it_next it') as [[[idx c]|] i2]; discriminate.
Qed.

Lemma example_grammar_mappable : mappable example_grammar 3 3.
Proof.
  split; [lia|]. split; [eexists; reflexivity|].
  intros s r H. unfold example_grammar, example_obj in H.
  cbn [rules rules_get] in H.
  destruct (String.eqb "<e>" s) eqn:E; [|discriminate].
  apply String.eqb_eq in E. subst s. inversion H; subst r. clear H.
  split; [discriminate|]. split; [simpl; lia|]. split; [exists 1%Z; reflexivity|].
  split.
  - intros _. exists 0, ["0"]. split; reflexivity.
  - intros prod sym Hprod Hsym Hterm. simpl in Hprod.
    destruct Hprod as [<-|[<-|[<-|[]]]]; simpl in Hsym;
      repeat (destruct Hsym as [<-|Hsym]; [try (vm_compute in Hterm; discriminate)|]);
      try contradiction;
      eexists; reflexivity.
Qed.

Lemma mapper_returns_witness :
  exists o it',
    mapGenomeToPhenotype example_grammar 0 (Num 3) 8
      (genomeIterator (nums [2; 0; 1; 0]%Z)) 0 None = Ok (o, it') /\
    mapGenomeToIndividual example_grammar 0 (Num 3) 8 (nums [2; 0; 1; 0]%Z)
    <> OutOfFuel.
Proof.
  apply (mapper_returns example_grammar 0 3 3 (nums [2; 0; 1; 0]%Z) 8).
  - exact example_grammar_mappable.
  - repeat constructor; eexists; (split; [reflexivity | lia]).
  - simpl. lia.
Defined.

(** ** The sets derived from the grammar *)

Lemma Set_add_In (s : set string) (x y : string) :
  In y (Set_add s x) <-> y = x \/ In y s.
Proof. unfold Set_add. apply set_add_iff. Qed.

Lemma Set_add_NoDup (s : set string) (x : string) :
  NoDup s -> NoDup (Set_add s x).
Proof. intros H. unfold Set_add. apply set_add_nodup. exact H. Qed.

Lemma recursive_flag (lhs : symbol) (rhs : list production) :
  forall b,
    fold_left (fun rec prod =>
                 fold_left (fun rec sym => if String.eqb lhs sym then true else rec)
                           prod rec) rhs b
    = b || existsb (contains lhs) rhs.
Proof.
  assert (Hprod : forall prod b,
             fold_left (fun rec sym => if String.eqb lhs sym then true else rec) prod b
             = b || contains lhs prod).
  { induction prod as [|sym prod IH]; intros b; simpl.
    - rewrite orb_false_r. reflexivity.
    - rewrite IH. unfold contains. destruct (String.eqb lhs sym), b; reflexivity. }
  induction rhs as [|prod rhs IH]; intros b; simpl.
  - rewrite orb_false_r. reflexivity.
  - rewrite IH, Hprod. rewrite orb_assoc. reflexivity.
Qed.

Lemma contains_In (s : symbol) (p : production) : contains s p = true <-> In s p.
Proof.
  unfold contains. rewrite existsb_exists. split.
  - intros [x [Hx E]]. apply String.eqb_eq in E. subst. exact Hx.
  - intros H. exists s. split; [exact H | apply String.eqb_refl].
Qed.

(** X6.  [getRecursiveNTs] finds direct recursion and nothing else: a
    symbol is in the set exactly when it is the left-hand side of a rule
    one of whose productions contains that same symbol.  The set has no
    duplicates. *)
Theorem getRecursiveNTs_direct_recursion :
  forall (obj : rules_obj) (s : symbol),
    (In s (getRecursiveNTs obj) <->
     exists rhs prod, In (s, rhs) obj /\ In prod rhs /\ In s prod) /\
    NoDup (getRecursiveNTs obj).
Proof.
  intros obj s. unfold getRecursiveNTs.
  assert (H : forall acc,
             (In s (fold_left (fun (s0 : set symbol) (entry : symbol * list production) =>
                       let lhs := fst entry in
                       let recursive :=
                         fold_left (fun rec prod =>
                           fold_left (fun rec sym =>
                             if String.eqb lhs sym then true else rec) prod rec)
                           (snd entry) false in
                       if recursive then Set_add s0 lhs else s0) obj acc)
              <-> In s acc \/
                  exists rhs prod, In (s, rhs) obj /\ In prod rhs /\ In s prod) /\
             (NoDup acc ->
              NoDup (fold_left (fun (s0 : set symbol) (entry : symbol * list production) =>
                       let lhs := fst entry in
                       let recursive :=
                         fold_left (fun rec prod =>
                           fold_left (fun rec sym =>
                             if String.eqb lhs sym then true else rec) prod rec)
                           (snd entry) false in
                       if recursive then Set_add s0 lhs else s0) obj acc))).
  { induction obj as [|[lhs rhs] obj IH]; intros acc; cbn [fold_left].
    - split; [|tauto]. split; [tauto|].
      intros [H|(rhs & prod & [] & _)]. exact H.
    - cbv zeta. cbn [fst snd]. rewrite recursive_flag. cbn [orb].
      destruct (IH (if existsb (contains lhs) rhs then Set_add acc lhs else acc))
        as [IH1 IH2].
      split.
      + rewrite IH1. destruct (existsb (contains lhs) rhs) eqn:Hrec.
        * rewrite Set_add_In. apply existsb_exists in Hrec.
          destruct Hrec as [prod [Hprod Hc]]. apply contains_In in Hc.
          split.
          -- intros [[->|Hacc]|(rhs' & prod' & Hin & Hp & Hs)].
             ++ right. exists rhs, prod. repeat split; [left; reflexivity | | ]; assumption.
             ++ left. exact Hacc.
             ++ right. exists rhs', prod'. repeat split; [right|..]; assumption.
          -- intros [Hacc|(rhs' & prod' & [E|Hin] & Hp & Hs)].
             ++ left. right. exact Hacc.
             ++ inversion E; subst. left. left. reflexivity.
             ++ right. exists rhs', prod'. repeat split; assumption.
        * split.
          -- intros [Hacc|(rhs' & prod' & Hin & Hp & Hs)]; [left; exact Hacc|].
             right. exists rhs', prod'. repeat split; [right|..]; assumption.
          -- intros [Hacc|(rhs' & prod' & [E|Hin] & Hp & Hs)].
             ++ left. exact Hacc.
             ++ inversion E; subst. exfalso.
                assert (Hex : existsb (contains s) rhs' = true).
                { apply existsb_exists. exists prod'. split; [exact Hp|].
                  apply contains_In. exact Hs. }
                congruence.
             ++ right. exists rhs', prod'. repeat split; assumption.
      + intros Hnd. apply IH2.
        destruct (existsb (contains lhs) rhs); [apply Set_add_NoDup|]; exact Hnd. }
  destruct (H (empty_set symbol)) as [H1 H2]. split.
  - rewrite H1. split; [intros [[]|Hex]; exact Hex | intros Hex; right; exact Hex].
  - apply H2. constructor.
Qed.

Lemma terminals_of_production (t : symbol) (prod : production) :
  forall acc : set symbol,
    (In t (fold_left (fun s sym =>
                        if negb (is_bracketed sym) then Set_add s sym else s) prod acc)
     <-> In t acc \/ (In t prod /\ is_bracketed t = false)) /\
    (NoDup acc ->
     NoDup (fold_left (fun s sym =>
                         if negb (is_bracketed sym) then Set_add s sym else s) prod acc)).
Proof.
  induction prod as [|sym prod IH]; intros acc; cbn [fold_left].
  - split; [|tauto]. split; [tauto|]. intros [H|[[] _]]. exact H.
  - destruct (IH (if negb (is_bracketed sym) then Set_add acc sym else acc))
      as [IH1 IH2].
    split.
    + rewrite IH1. destruct (is_bracketed sym) eqn:Hb; cbn [negb].
      * split.
        -- intros [H|[H1 H2]]; [left; exact H | right; split; [right|]; assumption].
        -- intros [H|[[E|H1] H2]]; [left; exact H | congruence |].
           right. split; assumption.
      * rewrite Set_add_In. split.
        -- intros [[->|H]|[H1 H2]].
           ++ right. split; [left; reflexivity | exact Hb].
           ++ left. exact H.
           ++ right. split; [right|]; assumption.
        -- intros [H|[[E|H1] H2]].
           ++ left. right. exact H.
           ++ left. left. symmetry. exact E.
           ++ right. split; assumption.
    + intros Hnd. apply IH2.
      destruct (negb (is_bracketed sym)); [apply Set_add_NoDup|]; exact Hnd.
Qed.

Lemma terminals_of_rule (t : symbol) (rhs : list production) :
  forall acc : set symbol,
    (In t (fold_left (fun s prod =>
             fold_left (fun s sym =>
                          if negb (is_bracketed sym) then Set_add s sym else s) prod s)
             rhs acc)
     <-> In t acc \/
         exists prod, In prod rhs /\ In t prod /\ is_bracketed t = false) /\
    (NoDup acc ->
     NoDup (fold_left (fun s prod =>
             fold_left (fun s sym =>
                          if negb (is_bracketed sym) then Set_add s sym else s) prod s)
             rhs acc)).
Proof.
  induction rhs as [|prod rhs IH]; intros acc; cbn [fold_left].
  - split; [|tauto]. split; [tauto|]. intros [H|(prod & [] & _)]. exact H.
  - destruct (IH (fold_left (fun s sym =>
                    if negb (is_bracketed sym) then Set_add s sym else s) prod acc))
      as [IH1 IH2].
    destruct (terminals_of_production t prod acc) as [P1 P2].
    split.
    + rewrite IH1, P1. split.
      * intros [[H|[H1 H2]]|(prod' & Hin & H1 & H2)].
        -- left. exact H.
        -- right. exists prod. repeat split; [left; reflexivity|..]; assumption.
        -- right. exists prod'. repeat split; [right|..]; assumption.
      * intros [H|(prod' & [E|Hin] & H1 & H2)].
        -- left. left. exact H.
        -- subst prod'. left. right. split; assumption.
        -- right. exists prod'. repeat split; assumption.
    + intros Hnd. apply IH2.
      apply (proj2 (terminals_of_production t prod acc)). exact Hnd.
Qed.

(** X7.  [getTerminals] collects exactly the symbols that occur in some
    production and are not written between "<" and ">"; the set has no
    duplicates.  Hence a symbol of a production that the mapper does not
    find in [terminals] is one written between "<" and ">". *)
Theorem getTerminals_unbracketed_symbols :
  forall (obj : rules_obj) (t : symbol),
    (In t (getTerminals obj) <->
     exists lhs rhs prod,
       In (lhs, rhs) obj /\ In prod rhs /\ In t prod /\ is_bracketed t = false) /\
    NoDup (getTerminals obj) /\
    (forall lhs rhs prod,
        In (lhs, rhs) obj -> In prod rhs -> In t prod ->
        Set_has (getTerminals obj) t = negb (is_bracketed t)).
Proof.
  intros obj t. unfold getTerminals.
  assert (H : forall acc : set symbol,
             (In t (fold_left (fun s (entry : symbol * list production) =>
                      fold_left (fun s prod =>
                        fold_left (fun s sym =>
                          if negb (is_bracketed sym) then Set_add s sym else s) prod s)
                        (snd entry) s) obj acc)
              <-> In t acc \/
                  exists lhs rhs prod,
                    In (lhs, rhs) obj /\ In prod rhs /\ In t prod /\
                    is_bracketed t = false) /\
             (NoDup acc ->
              NoDup (fold_left (fun s (entry : symbol * list production) =>
                      fold_left (fun s prod =>
                        fold_left (fun s sym =>
                          if negb (is_bracketed sym) then Set_add s sym else s) prod s)
                        (snd entry) s) obj acc))).
  { induction obj as [|[lhs rhs] obj IH]; intros acc; cbn [fold_left snd].
    - split; [|tauto]. split; [tauto|].
      intros [H|(lhs & rhs & prod & [] & _)]. exact H.
    - destruct (IH (fold_left (fun s prod =>
                      fold_left (fun s sym =>
                        if negb (is_bracketed sym) then Set_add s sym else s) prod s)
                      rhs acc)) as [IH1 IH2].
      destruct (terminals_of_rule t rhs acc) as [R1 R2].
      split.
      + rewrite IH1, R1. split.
        * intros [[H|(prod & Hp & H1 & H2)]|(lhs' & rhs' & prod & Hin & Hp & H1 & H2)].
          -- left. exact H.
          -- right. exists lhs, rhs, prod.
             repeat split; [left; reflexivity|..]; assumption.
          -- right. exists lhs', rhs', prod. repeat split; [right|..]; assumption.
        * intros [H|(lhs' & rhs' & prod & [E|Hin] & Hp & H1 & H2)].
          -- left. left. exact H.
          -- inversion E; subst. left. right. exists prod. repeat split; assumption.
          -- right. exists lhs', rhs', prod. repeat split; assumption.
      + intros Hnd. apply IH2, R2. exact Hnd. }
  destruct (H (empty_set symbol)) as [H1 H2].
  assert (Hiff : In t (fold_left (fun s (entry : symbol * list production) =>
                      fold_left (fun s prod =>
                        fold_left (fun s sym =>
                          if negb (is_bracketed sym) then Set_add s sym else s) prod s)
                        (snd entry) s) obj (empty_set symbol))
                 <-> exists lhs rhs prod,
                       In (lhs, rhs) obj /\ In prod rhs /\ In t prod /\
                       is_bracketed t = false).
  { rewrite H1. split; [intros [[]|Hex]; exact Hex | intros Hex; right; exact Hex]. }
  split; [exact Hiff|]. split; [apply H2; constructor|].
  intros lhs rhs prod Hin Hp Ht. unfold Set_has.
  destruct (is_bracketed t) eqn:Hb; cbn [negb].
  - apply set_mem_complete2. intros Hmem. apply Hiff in Hmem.
    destruct Hmem as (_ & _ & _ & _ & _ & _ & Hfalse). congruence.
  - apply set_mem_correct2. apply Hiff.
    exists lhs, rhs, prod. repeat split; assumption.
Qed.

Lemma getTerminals_unbracketed_symbols_witness :
  Set_has (getTerminals example_obj) "<e>" = negb (is_bracketed "<e>").
Proof.
  apply (proj2 (proj2 (getTerminals_unbracketed_symbols example_obj "<e>"))
           "<e>" [["0"]; ["1"]; ["<e>"; "<e>"]] ["<e>"; "<e>"]).
  - left. reflexivity.
  - right. right. left. reflexivity.
  - left. reflexivity.
Defined.

(** ** gcd and the modulus of a grammar with an empty rule *)

(** X8.  [gcd] is Euclid's algorithm: [gcd (a, 0)] is [a], and
    [gcd (a, b)] divides [a] and [b] and is divided by every common
    divisor of [a] and [b]. *)
Theorem gcd_is_greatest_common_divisor :
  forall a b : nat,
    gcd a 0 = a /\
    Nat.divide (gcd a b) a /\ Nat.divide (gcd a b) b /\
    (forall d, Nat.divide d a -> Nat.divide d b -> Nat.divide d (gcd a b)).
Proof.
  intros a b. rewrite !gcd_Nat_gcd. split; [apply Nat.gcd_0_r|].
  split; [apply Nat.gcd_divide_l|]. split; [apply Nat.gcd_divide_r|].
  intros d Ha Hb. apply Nat.gcd_greatest; assumption.
Qed.

Lemma lcm_step_zero (acc : res jsnum) :
  degenerate (let* a := acc in lcm a 0).
Proof.
  intros z H. destruct acc as [[x|]| |]; simpl in H; try discriminate.
  destruct (Nat.eqb (gcd (Z.to_nat x) 0) 0); inversion H.
  rewrite Nat.mul_0_r. reflexivity.
Qed.

Lemma lcm_step_degenerate (acc : res jsnum) (n : nat) :
  degenerate acc -> degenerate (let* a := acc in lcm a n).
Proof.
  intros Hacc z H. destruct acc as [[x|]| |]; simpl in H; try discriminate.
  - assert (x = 0%Z) by (apply Hacc; reflexivity). subst x.
    change (Z.to_nat 0) with 0 in H.
    destruct (Nat.eqb (gcd 0 n) 0); inversion H.
    rewrite Nat.Div0.div_0_l. reflexivity.
  - destruct (Nat.eqb n 0); discriminate.
Qed.

Lemma lcmAll_degenerate (ns : list nat) :
  forall acc,
    degenerate acc \/ In 0 ns ->
    degenerate (fold_left (fun acc n => let* a := acc in lcm a n) ns acc).
Proof.
  induction ns as [|n ns IH]; intros acc H; cbn [fold_left].
  - destruct H as [H|[]]. exact H.
  - apply IH. destruct H as [H|[->|H]].
    + left. apply lcm_step_degenerate. exact H.
    + left. apply lcm_step_zero.
    + right. exact H.
Qed.

(** X9.  The constructor does not reject a nonterminal without
    productions, and the codon modulus of such a grammar is never a
    number from 1 on: [getGrammarLCM] returns 0 or [NaN], or overflows the
    stack.  When it returns, [random_ind] can only fill genomes with
    [NaN], since [mt.int() % maxcodon] is [NaN] for both. *)
Theorem empty_rule_spoils_modulus :
  forall (obj : rules_obj) (lhs : symbol),
    In (lhs, []) obj ->
    (forall z, getGrammarLCM obj = Ok (Num z) -> z = 0%Z) /\
    (forall l raw, getGrammarLCM obj = Ok l -> js_rem (Num raw) l = NaN).
Proof.
  intros obj lhs Hin.
  assert (Hdeg : degenerate (getGrammarLCM obj)).
  { unfold getGrammarLCM, lcmAll. rewrite rule_lengths_map.
    apply lcmAll_degenerate. right. cbn [app].
    unfold production_counts. apply in_map_iff.
    exists (lhs, []). split; [reflexivity | exact Hin]. }
  split; [exact Hdeg|].
  intros l raw Hl. destruct l as [z|]; [|reflexivity].
  rewrite (Hdeg z Hl). reflexivity.
Qed.

Lemma empty_rule_spoils_modulus_witness :
  (forall z, getGrammarLCM [("<e>", [["<a>"]]); ("<a>", [])] = Ok (Num z) -> z = 0%Z) /\
  (forall l raw, getGrammarLCM [("<e>", [["<a>"]]); ("<a>", [])] = Ok l ->
                 js_rem (Num raw) l = NaN).
Proof.
  apply (empty_rule_spoils_modulus [("<e>", [["<a>"]]); ("<a>", [])] "<a>").
  right. left. reflexivity.
Defined.

(** ** Genetic operators *)

Lemma js_set_inside (g : list jsnum) (v : jsnum) :
  forall i, i < length g ->
    length (js_set g i v) = length g /\
    nth_error (js_set g i v) i = Some v /\
    (forall j, j <> i -> nth_error (js_set g i v) j = nth_error g j).
Proof.
  induction g as [|h t IH]; intros [|i] Hi; simpl in Hi; try lia; simpl.
  - repeat split. intros [|j] Hj; [lia | reflexivity].
  - destruct (IH i ltac:(lia)) as (Hlen & Hat & Hother).
    rewrite Hlen. repeat split; [exact Hat|].
    intros [|j] Hj; [reflexivity|]. simpl. apply Hother. lia.
Qed.

Lemma randrange_draw (n : jsnum) (w : world) :
  randrange n w
  = Ok (js_rem (Num (Z.modulo (mt_out w (mt_pos w)) 4294967296)) n, mt_taken w).
Proof. reflexivity. Qed.

Lemma drawn_codon_range (w : world) (m : Z) (k : nat) :
  (0 < m)%Z -> (0 <= drawn_codon w m k < m)%Z.
Proof.
  intros Hm. unfold drawn_codon. apply Z.rem_bound_pos; [|exact Hm].
  apply Z.mod_pos_bound. lia.
Qed.

(** X10.  Mutation touches one locus of the used region.  For
    [0 < c <= length g] and a codon modulus [m >= 1], [mutate(g, c)]
    takes two outputs of the twister and returns a genome of the same
    length that equals [g] everywhere except at one locus below [c],
    which now holds a value in [0, m).  For [c = 0] the locus is [NaN] and
    the genome comes back as it was. *)
Theorem mutate_touches_one_locus :
  forall (g : list jsnum) (c m : Z) (w : world),
    maxcodon (this w) = Num m -> (0 < m)%Z ->
    (0 <= c <= Z.of_nat (length g))%Z ->
    exists (g' : list jsnum) (w' : world),
      mutate g c w = Ok (g', w') /\ after_draws 2 w w' /\
      length g' = length g /\
      (c = 0%Z -> g' = g) /\
      ((0 < c)%Z ->
       let locus := Z.to_nat (drawn_codon w c 0) in
       locus < Z.to_nat c /\
       nth_error g' locus = Some (Num (drawn_codon w m 1)) /\
       (0 <= drawn_codon w m 1 < m)%Z /\
       forall j, j <> locus -> nth_error g' j = nth_error g j).
Proof.
  intros g c m w Hmc Hm Hc.
  unfold mutate. erewrite mbind_ok; [|reflexivity].
  erewrite mbind_ok; [|apply randrange_draw].
  erewrite mbind_ok; [|apply randrange_draw].
  unfold ret. eexists. eexists. split; [reflexivity|].
  split; [repeat split; simpl; lia|].
  cbn [this mt_taken]. rewrite Hmc.
  assert (Hv : js_rem (Num (mt_out (mt_taken w) (mt_pos (mt_taken w)) mod 4294967296))
                      (Num m) = Num (drawn_codon w m 1)).
  { unfold js_rem, drawn_codon. destruct (Z.eqb_spec m 0); [lia|].
    simpl. rewrite Nat.add_1_r. reflexivity. }
  rewrite Hv.
  destruct (Z.eq_dec c 0) as [->|Hpos].
  - cbn [js_rem Z.eqb js_put].
    split; [reflexivity|]. split; [intros _; reflexivity | intros H; lia].
  - assert (Hidx : js_rem (Num (mt_out w (mt_pos w) mod 4294967296)) (Num c)
                   = Num (drawn_codon w c 0)).
    { unfold js_rem, drawn_codon. destruct (Z.eqb_spec c 0); [lia|].
      rewrite Nat.add_0_r. reflexivity. }
    rewrite Hidx.
    pose proof (drawn_codon_range w c 0 ltac:(lia)) as Hrange.
    unfold js_put. destruct (Z.ltb_spec (drawn_codon w c 0) 0); [lia|].
    destruct (js_set_inside g (Num (drawn_codon w m 1))
                (Z.to_nat (drawn_codon w c 0)) ltac:(lia)) as (Hlen & Hat & Hother).
    split; [exact Hlen|]. split; [lia|]. intros _. cbv zeta.
    split; [lia|]. split; [exact Hat|].
    split; [apply drawn_codon_range; exact Hm | exact Hother].
Qed.

Lemma mutate_touches_one_locus_witness :
  exists (g' : list jsnum) (w' : world),
    let g := nums [2; 0; 0; 0; 1; 0]%Z in
    let w := after (run 20 [Init]) example_world in
    mutate g 4 w = Ok (g', w') /\ after_draws 2 w w' /\
    length g' = length g /\
    (4%Z = 0%Z -> g' = g) /\
    ((0 < 4)%Z ->
     let locus := Z.to_nat (drawn_codon w 4 0) in
     locus < Z.to_nat 4 /\
     nth_error g' locus = Some (Num (drawn_codon w 3 1)) /\
     (0 <= drawn_codon w 3 1 < 3)%Z /\
     forall j, j <> locus -> nth_error g' j = nth_error g j).
Proof.
  apply (mutate_touches_one_locus (nums [2; 0; 0; 0; 1; 0]%Z) 4 3
           (after (run 20 [Init]) example_world)).
  - vm_compute. reflexivity.
  - lia.
  - simpl. lia.
Defined.

Lemma after_draws_taken (n : nat) (w w' : world) :
  after_draws n (mt_taken w) w' -> after_draws (S n) w w'.
Proof.
  intros (H1 & H2 & H3 & H4 & H5 & H6). simpl in *.
  repeat split; try assumption. lia.
Qed.

Lemma random_ind_loop_draws (m : Z) :
  (0 < m)%Z ->
  forall n ind w,
    exists g w',
      random_ind_loop n (Num m) ind w = Ok (ind ++ g, w') /\
      after_draws n w w' /\ length g = n /\
      forall i, i < n -> nth_error g i = Some (Num (drawn_codon w m i)).
Proof.
  intros Hm. induction n as [|n IH]; intros ind w; simpl.
  - exists [], w. rewrite app_nil_r. split; [reflexivity|].
    split; [repeat split; lia|]. split; [reflexivity|]. intros i Hi. lia.
  - erewrite mbind_ok; [|apply randrange_draw].
    destruct (IH (ind ++ [js_rem (Num (mt_out w (mt_pos w) mod 4294967296)) (Num m)])
                 (mt_taken w)) as (g & w' & Hrun & Hdraws & Hlen & Hnth).
    exists (js_rem (Num (mt_out w (mt_pos w) mod 4294967296)) (Num m) :: g), w'.
    split; [rewrite Hrun, <- app_assoc; reflexivity|].
    split; [apply after_draws_taken; exact Hdraws|].
    split; [simpl; rewrite Hlen; reflexivity|].
    intros [|i] Hi; simpl.
    + unfold js_rem, drawn_codon. destruct (Z.eqb_spec m 0); [lia|].
      rewrite Nat.add_0_r. reflexivity.
    + rewrite Hnth by lia. unfold drawn_codon. simpl.
      rewrite Nat.add_succ_r. reflexivity.
Qed.

(** X11.  On an engine whose codon modulus is a number [m >= 1],
    [random_ind] takes [genomelength] outputs of the twister, one after
    the other, and returns a genome of exactly [genomelength] codons, the
    [i]-th being the [i]-th output modulo [m]: every codon is a number in
    [0, m). *)
Theorem random_ind_fills_genome :
  forall (m : Z) (w : world),
    maxcodon (this w) = Num m -> (0 < m)%Z ->
    exists (g : list jsnum) (w' : world),
      random_ind w = Ok (g, w') /\
      after_draws (genomelength (this w)) w w' /\
      length g = genomelength (this w) /\
      (forall i, i < genomelength (this w) ->
                 nth_error g i = Some (Num (drawn_codon w m i))) /\
      Forall (fun c => exists z, c = Num z /\ (0 <= z < m)%Z) g.
Proof.
  intros m w Hmc Hm. unfold random_ind.
  erewrite mbind_ok; [|reflexivity]. rewrite Hmc.
  destruct (random_ind_loop_draws m Hm (genomelength (this w)) [] w)
    as (g & w' & Hrun & Hdraws & Hlen & Hnth).
  exists g, w'. split; [exact Hrun|]. split; [exact Hdraws|].
  split; [exact Hlen|]. split; [exact Hnth|].
  apply Forall_forall. intros c Hc.
  destruct (In_nth_error _ _ Hc) as [i Hi].
  assert (Hlt : i < length g) by (apply nth_error_Some; congruence).
  rewrite Hnth in Hi by lia. inversion Hi; subst.
  eexists. split; [reflexivity|]. apply drawn_codon_range. exact Hm.
Qed.

Lemma random_ind_fills_genome_witness :
  exists (g : list jsnum) (w' : world),
    random_ind example_world = Ok (g, w') /\
    after_draws (genomelength (this example_world)) example_world w' /\
    length g = genomelength (this example_world) /\
    (forall i, i < genomelength (this example_world) ->
               nth_error g i = Some (Num (drawn_codon example_world 3 i))) /\
    Forall (fun c => exists z, c = Num z /\ (0 <= z < 3)%Z) g.
Proof.
  apply (random_ind_fills_genome 3 example_world).
  - reflexivity.
  - lia.
Defined.

(** X12.  [random_choice] returns an element of a non-empty array, the
    one at the index [mt.int() % L.length]; on an empty array the index is
    [NaN] and the result is [undefined]. *)
Theorem random_choice_picks_member :
  forall (A : Type) (L : list A) (w : world),
    (L = [] -> random_choice L w = Ok (None, mt_taken w)) /\
    (L <> [] ->
     exists x, random_choice L w = Ok (Some x, mt_taken w) /\
               nth_error L (Z.to_nat (drawn_codon w (Z.of_nat (length L)) 0)) = Some x /\
               In x L).
Proof.
  intros A L w. unfold random_choice.
  erewrite mbind_ok; [|apply randrange_draw]. unfold ret. split.
  - intros ->. reflexivity.
  - intros Hne.
    assert (Hz : (0 <= mt_out w (mt_pos w) mod 4294967296)%Z)
      by (apply Z.mod_pos_bound; lia).
    destruct (choose_production L _ Hne Hz) as [Hsel Hidx]. rewrite Hsel.
    destruct (js_get_Num L _ Hidx) as [x [Hget Hnth]].
    exists x. rewrite Hget. split; [reflexivity|].
    assert (Hsame : drawn_codon w (Z.of_nat (length L)) 0
                    = ((mt_out w (mt_pos w) mod 4294967296)
                         mod Z.of_nat (length L))%Z).
    { unfold drawn_codon. rewrite Nat.add_0_r. apply Z.rem_mod_nonneg; lia. }
    rewrite Hsame. split; [exact Hnth | eapply nth_error_In; exact Hnth].
Qed.

Lemma random_choice_picks_member_witness :
  exists x, random_choice [10; 20; 30] example_world
            = Ok (Some x, mt_taken example_world) /\
            nth_error [10; 20; 30]
              (Z.to_nat (drawn_codon example_world (Z.of_nat (length [10; 20; 30])) 0))
            = Some x /\
            In x [10; 20; 30].
Proof.
  apply (proj2 (random_choice_picks_member nat [10; 20; 30] example_world)).
  discriminate.
Defined.

(** ** What the methods leave unchanged *)

Section Draws.

Variable R : world -> world -> Prop.
Hypothesis HR : allows_draws R.

Lemma respects_ret {A : Type} (a : A) : respects R (ret a).
Proof. intros w x w' H. inversion H; subst. apply (ad_refl R HR). Qed.

Lemma respects_bind {A B : Type} (m : M A) (k : A -> M B) :
  respects R m -> (forall a, respects R (k a)) -> respects R (mbind m k).
Proof.
  intros Hm Hk w b w' H. unfold mbind in H.
  destruct (m w) as [[a w1]| |] eqn:E; try discriminate.
  eapply (ad_trans R HR); [eapply Hm | eapply Hk]; eassumption.
Qed.

Lemma respects_throw {A : Type} : respects R (@throw A).
Proof. intros w a w' H. discriminate. Qed.

Lemma respects_out_of_fuel {A : Type} : respects R (@out_of_fuel A).
Proof. intros w a w' H. discriminate. Qed.

Lemma respects_lift {A : Type} (r : res A) : respects R (lift r).
Proof.
  intros w a w' H. unfold lift in H. destruct r; simpl in H; try discriminate.
  inversion H; subst. apply (ad_refl R HR).
Qed.

Lemma respects_get_this : respects R get_this.
Proof. intros w a w' H. inversion H; subst. apply (ad_refl R HR). Qed.

Lemma respects_get_heap : respects R get_heap.
Proof. intros w a w' H. inversion H; subst. apply (ad_refl R HR). Qed.

Lemma respects_mt_int : respects R mt_int.
Proof. intros w a w' H. inversion H; subst. apply (ad_mt R HR). Qed.

Lemma respects_baseRandom (lower upper : nat) : respects R (baseRandom lower upper).
Proof. intros w a w' H. inversion H; subst. apply (ad_lodash R HR). Qed.

Create HintDb respects.
#[local] Hint Resolve respects_ret respects_throw respects_out_of_fuel
  respects_lift respects_get_this respects_get_heap respects_mt_int
  respects_baseRandom : respects.

Ltac respects_step :=
  match goal with
  | |- respects _ (mbind _ _) => apply respects_bind; [|intros]
  | |- respects _ (match ?x with _ => _ end) => destruct x
  | |- respects _ (let _ := _ in _) => cbv zeta
  | |- respects _ _ => solve [auto with respects]
  | |- forall _, _ => intros
  end.

Lemma respects_deref (r : ref) : respects R (deref r).
Proof. unfold deref. repeat respects_step. Qed.

Lemma respects_mt_random : respects R mt_random.
Proof. unfold mt_random. repeat respects_step. Qed.

Lemma respects_randrange (n : jsnum) : respects R (randrange n).
Proof. unfold randrange. repeat respects_step. Qed.

#[local] Hint Resolve respects_deref respects_mt_random respects_randrange
  : respects.

Lemma respects_sampleSize2 {A : Type} (arr : list A) : respects R (sampleSize2 arr).
Proof. unfold sampleSize2. repeat respects_step. Qed.

Lemma respects_random_ind_loop (n : nat) :
  forall mc ind, respects R (random_ind_loop n mc ind).
Proof.
  induction n as [|n IH]; intros mc ind; simpl; repeat respects_step; apply IH.
Qed.

Lemma respects_random_ind : respects R random_ind.
Proof. unfold random_ind. repeat respects_step; apply respects_random_ind_loop. Qed.

Lemma respects_mutate (g : list jsnum) (c : Z) : respects R (mutate g c).
Proof. unfold mutate. repeat respects_step. Qed.

Lemma respects_crossover (g0 g1 : list jsnum) (c0 c1 : Z) :
  respects R (crossover g0 g1 c0 c1).
Proof. unfold crossover. repeat respects_step. Qed.

Lemma respects_for_each {A : Type} (body : A -> M unit) (l : list A) :
  (forall x, respects R (body x)) -> respects R (for_each l body).
Proof. intros Hb. induction l as [|x t IH]; simpl; repeat respects_step; auto. Qed.

Lemma respects_filterM {A : Type} (f : A -> M bool) (l : list A) :
  (forall x, respects R (f x)) -> respects R (filterM f l).
Proof. intros Hf. induction l as [|x t IH]; simpl; repeat respects_step; auto. Qed.

Lemma respects_mapM {A B : Type} (f : A -> M B) (l : list A) :
  (forall x, respects R (f x)) -> respects R (mapM f l).
Proof. intros Hf. induction l as [|x t IH]; simpl; repeat respects_step; auto. Qed.

Lemma respects_direct_selection : respects R direct_selection.
Proof.
  unfold direct_selection. repeat respects_step.
  apply respects_filterM. repeat respects_step.
Qed.

Lemma respects_sort_pop (k : fit -> key) : respects R (sort_pop k).
Proof.
  unfold sort_pop. repeat respects_step. apply respects_mapM. repeat respects_step.
Qed.

Lemma respects_truncation_selection : respects R truncation_selection.
Proof. unfold truncation_selection. repeat respects_step. Qed.

Lemma respects_ask : respects R ask.
Proof. unfold ask. repeat respects_step. Qed.

Lemma respects_print_statistics : respects R print_statistics.
Proof. unfold print_statistics, the_best_ever. repeat respects_step. Qed.

End Draws.

Section Scoring.

Variable R : world -> world -> Prop.
Hypothesis HR : allows_scoring R.

Let HD : allows_draws R := as_draws R HR.

Lemma respects_assign_best_ever (b : option ref) : respects R (assign_best_ever b).
Proof. intros w a w' H. inversion H; subst. apply (as_best R HR). Qed.

Lemma respects_write_fitness (r : ref) (f : fit) : respects R (write_fitness r f).
Proof.
  intros w a w' H. unfold write_fitness, deref, mbind, get_heap, put_heap in H.
  destruct (nth_error (heap w) r) as [x|] eqn:Hx; simpl in H; try discriminate.
  inversion H; subst. apply (as_write R HR). exact Hx.
Qed.

Lemma respects_assign_fitness (fitvals : list Z) : respects R (assign_fitness fitvals).
Proof.
  unfold assign_fitness, pop_at.
  apply (respects_bind R HD); [apply (respects_get_this R HD)|]. intros e.
  apply (respects_for_each R HD). intros i.
  apply (respects_bind R HD); [|intros r; apply respects_write_fitness].
  apply (respects_bind R HD); [apply (respects_get_this R HD)|]. intros e0.
  destruct (nth_error (pop e0) i);
    [apply (respects_ret R HD) | apply (respects_throw R)].
Qed.

Lemma respects_the_best_ever : respects R the_best_ever.
Proof.
  unfold the_best_ever.
  apply (respects_bind R HD); [apply (respects_get_this R HD)|]. intros e.
  destruct (best_ever e); [apply (respects_ret R HD) | apply (respects_throw R)].
Qed.

Lemma respects_pop_at (i : nat) : respects R (pop_at i).
Proof.
  unfold pop_at.
  apply (respects_bind R HD); [apply (respects_get_this R HD)|]. intros e.
  destruct (nth_error (pop e) i);
    [apply (respects_ret R HD) | apply (respects_throw R)].
Qed.

Lemma respects_update_best_ever : respects R update_best_ever.
Proof.
  unfold update_best_ever.
  apply (respects_bind R HD); [apply (respects_get_this R HD)|]. intros e.
  apply (respects_for_each R HD). intros i.
  apply (respects_bind R HD); [apply respects_pop_at|]. intros r.
  apply (respects_bind R HD); [apply (respects_deref R HD)|]. intros x.
  apply (respects_bind R HD); [apply respects_the_best_ever|]. intros b.
  apply (respects_bind R HD); [apply (respects_deref R HD)|]. intros y.
  destruct (_ || _);
    [apply respects_assign_best_ever | apply (respects_ret R HD)].
Qed.

End Scoring.

Section AllMethods.

Variable R : world -> world -> Prop.
Hypothesis HR : allows_all R.

Let HS : allows_scoring R := aa_scoring R HR.
Let HD : allows_draws R := as_draws R HS.

Lemma respects_assign_pop (p : list ref) : respects R (assign_pop p).
Proof. intros w a w' H. inversion H; subst. apply (aa_pop R HR). Qed.

Lemma respects_assign_gen (n : nat) : respects R (assign_gen n).
Proof. intros w a w' H. inversion H; subst. apply (aa_gen R HR). Qed.

Lemma respects_cache_add (x : string) : respects R (cache_add x).
Proof. intros w a w' H. inversion H; subst. apply (aa_cache R HR). Qed.

Lemma respects_alloc (ind : individual) : respects R (alloc ind).
Proof.
  intros w a w' H. unfold alloc, mbind, get_heap, put_heap, ret in H.
  inversion H; subst. apply (aa_alloc R HR).
Qed.

Lemma respects_mapAndTryAddIndToPop (fuel : nat) (g : list jsnum) (p : list ref) :
  respects R (mapAndTryAddIndToPop fuel g p).
Proof.
  unfold mapAndTryAddIndToPop.
  apply (respects_bind R HD); [apply (respects_get_this R HD)|]. intros e.
  apply (respects_bind R HD); [apply (respects_lift R HD)|]. intros [ind|];
    [|apply (respects_ret R HD)].
  cbv zeta. destruct (Set_has (cache e) (ind_phenotype ind));
    [apply (respects_ret R HD)|].
  apply (respects_bind R HD); [apply respects_cache_add|]. intros _.
  apply (respects_bind R HD); [apply respects_alloc|]. intros r.
  apply (respects_ret R HD).
Qed.

Lemma respects_init_loop (fuel n : nat) : respects R (init_loop fuel n).
Proof.
  induction n as [|n IH]; simpl;
    (apply (respects_bind R HD); [apply (respects_get_this R HD)|]); intros e;
    (destruct (Nat.ltb (length (pop e)) (popsize e));
     [|apply (respects_ret R HD)]).
  - apply (respects_out_of_fuel R).
  - apply (respects_bind R HD); [apply (respects_random_ind R HD)|]. intros g.
    apply (respects_bind R HD); [apply respects_mapAndTryAddIndToPop|]. intros np.
    apply (respects_bind R HD); [apply respects_assign_pop|]. intros _. exact IH.
Qed.

Lemma respects_init (fuel : nat) : respects R (init fuel).
Proof.
  unfold init.
  apply (respects_bind R HD); [apply respects_init_loop|]. intros _.
  apply (respects_bind R HD); [apply (respects_get_this R HD)|]. intros e.
  apply (respects_assign_best_ever R HS).
Qed.

Lemma respects_child (fuel : nat) (u : Q) (e : GE) (g : list jsnum) (c : Z)
      (newpop : list ref) :
  respects R (g' <- (if Qlt_le_dec u (pmut e) then mutate g c else ret g) ;;
              mapAndTryAddIndToPop fuel g' newpop).
Proof.
  apply (respects_bind R HD); [|intros g'; apply respects_mapAndTryAddIndToPop].
  destruct (Qlt_le_dec u (pmut e));
    [apply (respects_mutate R HD) | apply (respects_ret R HD)].
Qed.

Lemma respects_create_loop (fuel n : nat) :
  forall parents newpop tries,
    respects R (create_loop fuel n parents newpop tries).
Proof.
  induction n as [|n IH]; intros parents newpop tries; simpl;
    (apply (respects_bind R HD); [apply (respects_get_this R HD)|]); intros e;
    (destruct (Nat.ltb (length newpop) (popsize e));
     [|apply (respects_ret R HD)]).
  - apply (respects_out_of_fuel R).
  - destruct (Nat.ltb (popsize e * 2) tries).
    + apply (respects_bind R HD); [apply (respects_random_ind R HD)|]. intros g.
      apply (respects_bind R HD); [apply respects_mapAndTryAddIndToPop|].
      intros np. apply IH.
    + apply (respects_bind R HD); [apply (respects_sampleSize2 R HD)|].
      intros [r0 r1].
      apply (respects_bind R HD); [apply (respects_deref R HD)|]. intros x0.
      apply (respects_bind R HD); [apply (respects_deref R HD)|]. intros x1.
      cbv zeta.
      apply (respects_bind R HD); [apply (respects_crossover R HD)|].
      intros [g0 g1].
      apply (respects_bind R HD); [apply (respects_mt_random R HD)|]. intros u0.
      apply (respects_bind R HD).
      { destruct (Qlt_le_dec u0 (pmut e));
          [apply (respects_mutate R HD) | apply (respects_ret R HD)]. }
      intros g0'.
      apply (respects_bind R HD); [apply respects_mapAndTryAddIndToPop|].
      intros np.
      destruct (Nat.eqb (length np) (popsize e)); [apply (respects_ret R HD)|].
      apply (respects_bind R HD); [apply (respects_mt_random R HD)|]. intros u1.
      apply (respects_bind R HD).
      { destruct (Qlt_le_dec u1 (pmut e));
          [apply (respects_mutate R HD) | apply (respects_ret R HD)]. }
      intros g1'.
      apply (respects_bind R HD); [apply respects_mapAndTryAddIndToPop|].
      intros np'. apply IH.
Qed.

Lemma respects_create_new_pop (fuel : nat) (parents : list ref) :
  respects R (create_new_pop fuel parents).
Proof.
  unfold create_new_pop.
  apply (respects_bind R HD); [apply (respects_get_this R HD)|]. intros e.
  destruct (nth_error (pop e) (length (pop e) - 1));
    [apply respects_create_loop | apply (respects_throw R)].
Qed.

Lemma respects_select_parents : respects R select_parents.
Proof.
  unfold select_parents.
  apply (respects_bind R HD); [apply (respects_get_this R HD)|]. intros e.
  destruct (interactive e); [apply (respects_direct_selection R HD)|].
  apply (respects_bind R HD).
  { destruct (maximise e); apply (respects_sort_pop R HD). }
  intros sorted.
  apply (respects_bind R HD); [apply respects_assign_pop|]. intros _.
  apply (respects_truncation_selection R HD).
Qed.

Lemma respects_tell (fuel : nat) (fitvals : list Z) : respects R (tell fuel fitvals).
Proof.
  unfold tell.
  apply (respects_bind R HD); [apply (respects_assign_fitness R HS)|]. intros _.
  apply (respects_bind R HD); [apply (respects_update_best_ever R HS)|]. intros _.
  apply (respects_bind R HD); [apply (respects_print_statistics R HD)|]. intros _.
  apply (respects_bind R HD); [apply respects_select_parents|]. intros parents.
  apply (respects_bind R HD); [apply respects_create_new_pop|]. intros newpop.
  apply respects_assign_pop.
Qed.

Lemma respects_evolve (fuel : nat) : respects R (evolve fuel).
Proof.
  unfold evolve.
  apply (respects_bind R HD); [apply (respects_get_this R HD)|]. intros e.
  apply (respects_bind R HD).
  { apply (respects_for_each R HD). intros i.
    apply (respects_bind R HD); [apply respects_assign_gen|]. intros _.
    apply (respects_bind R HD); [apply (respects_ask R HD)|]. intros x.
    apply (respects_bind R HD); [|intros fv; apply respects_tell].
    apply (respects_mapM R HD). intros r.
    apply (respects_bind R HD); [apply (respects_deref R HD)|]. intros xi.
    apply (respects_ret R HD). }
  intros _.
  apply (respects_bind R HD); [apply respects_assign_gen|]. intros _.
  apply (respects_bind R HD); [apply (respects_get_this R HD)|]. intros e'.
  apply (respects_ret R HD).
Qed.

Lemma respects_run (fuel : nat) (cs : list call) : respects R (run fuel cs).
Proof.
  induction cs as [|c rest IH]; simpl; [apply (respects_ret R HD)|].
  apply (respects_bind R HD); [|intros _; exact IH].
  destruct c; simpl.
  - apply respects_init.
  - apply (respects_bind R HD); [apply (respects_ask R HD)|]. intros _.
    apply (respects_ret R HD).
  - apply respects_tell.
  - apply (respects_bind R HD); [apply respects_evolve|]. intros _.
    apply (respects_ret R HD).
Qed.

End AllMethods.

Lemma same_config_refl (e : GE) : same_config e e.
Proof. repeat split. Qed.

Lemma same_config_trans (a b c : GE) :
  same_config a b -> same_config b c -> same_config a c.
Proof.
  unfold same_config. intros H1 H2.
  decompose [and] H1. decompose [and] H2. repeat split; congruence.
Qed.

Lemma same_identity_refl (x : individual) : same_identity x x.
Proof. repeat split. Qed.

Lemma same_identity_trans (a b c : individual) :
  same_identity a b -> same_identity b c -> same_identity a c.
Proof.
  unfold same_identity. intros (A1 & A2 & A3) (B1 & B2 & B3).
  repeat split; congruence.
Qed.

Lemma nth_error_list_set {A : Type} (l : list A) :
  forall i x j,
    nth_error (list_set l i x) j
    = if Nat.eqb j i then (if Nat.ltb i (length l) then Some x else None)
      else nth_error l j.
Proof.
  induction l as [|h t IH]; intros [|i] x [|j]; simpl; try reflexivity.
  - destruct (Nat.eqb j i); reflexivity.
  - rewrite IH. destruct (Nat.eqb j i); [|reflexivity].
    destruct (Nat.ltb_spec i (length t)); destruct (Nat.ltb_spec (S i) (S (length t)));
      try lia; reflexivity.
Qed.

Lemma list_set_keeps_identity (h : list individual) (r : ref) (x0 : individual) (f : fit) :
  nth_error h r = Some x0 ->
  forall a x, nth_error h a = Some x ->
    exists x', nth_error (list_set h r (with_fitness x0 f)) a = Some x' /\
               same_identity x x'.
Proof.
  intros Hr a x Ha. rewrite nth_error_list_set.
  destruct (Nat.eqb_spec a r) as [->|Hne].
  - assert (r < length h) by (apply nth_error_Some; congruence).
    destruct (Nat.ltb_spec r (length h)); [|lia].
    eexists. split; [reflexivity|].
    assert (x = x0) by congruence. subst. repeat split.
  - exists x. split; [exact Ha | apply same_identity_refl].
Qed.

Lemma only_drew_allows : allows_draws only_drew.
Proof.
  constructor.
  - intros w. split; reflexivity.
  - intros a b c [A1 A2] [B1 B2]. split; congruence.
  - intros w. split; reflexivity.
  - intros w. split; reflexivity.
Qed.

Lemma only_scored_allows : allows_scoring only_scored.
Proof.
  assert (Hrefl : forall w, only_scored w w).
  { intros w. split; [apply same_config_refl|]. repeat split.
    intros r x Hx. exists x. split; [exact Hx | apply same_identity_refl]. }
  constructor; [constructor|..].
  - exact Hrefl.
  - intros a b c (A1 & A2 & A3 & A4 & A5) (B1 & B2 & B3 & B4 & B5).
    split; [eapply same_config_trans; eassumption|].
    split; [congruence|]. split; [congruence|]. split; [congruence|].
    intros r x Hx. destruct (A5 _ _ Hx) as (x1 & Hx1 & I1).
    destruct (B5 _ _ Hx1) as (x2 & Hx2 & I2).
    exists x2. split; [exact Hx2 | eapply same_identity_trans; eassumption].
  - intros w. exact (Hrefl w).
  - intros w. exact (Hrefl w).
  - intros w b. exact (Hrefl w).
  - intros w r x f Hx.
    split; [apply same_config_refl|]. split; [reflexivity|].
    split; [reflexivity|]. split; [simpl; apply length_list_set|].
    simpl. apply list_set_keeps_identity. exact Hx.
Qed.

Lemma settled_allows : allows_all settled.
Proof.
  assert (Hrefl : forall w, settled w w).
  { intros w. split; [apply same_config_refl|]. split.
    - intros r x Hx. exists x. split; [exact Hx | apply same_identity_refl].
    - repeat split; lia. }
  assert (Hthis : forall w e, same_config (this w) e -> settled w (set_this w e)).
  { intros w e He. split; [exact He|]. split.
    - intros r x Hx. exists x. split; [exact Hx | apply same_identity_refl].
    - simpl. repeat split; lia. }
  constructor; [constructor; [constructor|..]|..].
  - exact Hrefl.
  - intros a b c (A1 & A2 & A3 & A4 & A5 & A6) (B1 & B2 & B3 & B4 & B5 & B6).
    split; [eapply same_config_trans; eassumption|]. split.
    + intros r x Hx. destruct (A2 _ _ Hx) as (x1 & Hx1 & I1).
      destruct (B2 _ _ Hx1) as (x2 & Hx2 & I2).
      exists x2. split; [exact Hx2 | eapply same_identity_trans; eassumption].
    + repeat split; try congruence; lia.
  - intros w. destruct (Hrefl w) as (H1 & H2 & _).
    split; [exact H1|]. split; [exact H2|]. simpl. repeat split; lia.
  - intros w. destruct (Hrefl w) as (H1 & H2 & _).
    split; [exact H1|]. split; [exact H2|]. simpl. repeat split; lia.
  - intros w b. apply Hthis. repeat split.
  - intros w r x f Hx. split; [apply same_config_refl|]. split.
    + simpl. apply list_set_keeps_identity. exact Hx.
    + simpl. repeat split; lia.
  - intros w p. apply Hthis. repeat split.
  - intros w n. apply Hthis. repeat split.
  - intros w x. apply Hthis. repeat split.
  - intros w ind. split; [apply same_config_refl|]. split.
    + intros r x Hx. exists x. split; [|apply same_identity_refl].
      simpl. rewrite nth_error_app1; [exact Hx|].
      apply nth_error_Some. congruence.
    + simpl. repeat split; lia.
Qed.

(** X13.  Whatever calls an engine serves ([init], [ask], [tell],
    [evolve], in any order and number), its configuration (fitness
    function, grammar, population size, probabilities, depth bound,
    genome length, codon modulus) never changes; an individual, once
    created, stays at its address and keeps its genome, its phenotype and
    its codon count for ever, only its fitness being rewritten; and each
    random source is only read forward. *)
Theorem run_leaves_individuals_and_configuration :
  forall (fuel : nat) (cs : list call) (w w' : world),
    run fuel cs w = Ok (tt, w') -> settled w w'.
Proof.
  intros fuel cs w w' H.
  exact (respects_run settled settled_allows fuel cs w tt w' H).
Qed.

Lemma run_leaves_individuals_and_configuration_witness :
  settled example_world
          (after (run 20 [Init; Ask; Tell [1; 1]%Z; Ask; Tell [0; 0]%Z]) example_world).
Proof.
  apply (run_leaves_individuals_and_configuration 20
           [Init; Ask; Tell [1; 1]%Z; Ask; Tell [0; 0]%Z]).
  vm_compute. reflexivity.
Defined.

(** ** Populations keep their size *)

Lemma mbind_inv {A B : Type} (m : M A) (k : A -> M B) (w w' : world) (b : B) :
  mbind m k w = Ok (b, w') ->
  exists a w1, m w = Ok (a, w1) /\ k a w1 = Ok (b, w').
Proof.
  unfold mbind. intros H. destruct (m w) as [[a w1]| |]; try discriminate.
  exists a, w1. split; [reflexivity | exact H].
Qed.

Lemma admits_refl (w : world) : admits w w [].
Proof.
  split; [symmetry; apply app_nil_r|]. split; [constructor|].
  split; [apply same_config_refl | reflexivity].
Qed.

Lemma admits_drew (w w' : world) : only_drew w w' -> admits w w' [].
Proof.
  intros [Ht Hh]. split; [rewrite Hh; symmetry; apply app_nil_r|].
  split; [constructor|]. rewrite Ht. split; [apply same_config_refl | reflexivity].
Qed.

Lemma admits_trans (a b c : world) (l1 l2 : list individual) :
  admits a b l1 -> admits b c l2 -> admits a c (l1 ++ l2).
Proof.
  intros (A1 & A2 & A3 & A4) (B1 & B2 & B3 & B4).
  split; [rewrite B1, A1, app_assoc; reflexivity|].
  split; [apply Forall_app; split; assumption|].
  split; [eapply same_config_trans; eassumption | congruence].
Qed.

Lemma mapGenomeToIndividual_null_fitness G md mc fuel g ind :
  mapGenomeToIndividual G md mc fuel g = Ok (Some ind) ->
  ind_fitness ind = FNull /\ ind_genome ind = g.
Proof.
  intros H. unfold mapGenomeToIndividual in H.
  destruct (mapGenomeToPhenotype G md mc fuel (genomeIterator g) 0 None)
    as [[[p|] it']| |] eqn:Hmap; simpl in H; try discriminate.
  pose proof (mapGenomeToPhenotype_advances _ _ _ _ _ _ _ _ _ Hmap) as [Harr _].
  pose proof (it_next_arr it') as Hnext.
  destruct (it_next it') as [[[idx c]|] i2]; simpl in Hnext; [|discriminate].
  inversion H; subst ind; simpl. split; [reflexivity|]. simpl in Harr. congruence.
Qed.

(** What one call of [mapAndTryAddIndToPop] does: nothing, or one
    individual on the heap, its address on the array, its phenotype in
    the cache. *)
Lemma gate_outcome (fuel : nat) (g : list jsnum) (p p' : list ref) (w w' : world) :
  mapAndTryAddIndToPop fuel g p w = Ok (p', w') ->
  exists added,
    admits w w' added /\ length added <= 1 /\
    p' = p ++ seq (length (heap w)) (length added) /\
    pop (this w') = pop (this w) /\
    Forall (fun x => ind_genome x = g) added.
Proof.
  intros H. unfold mapAndTryAddIndToPop, mbind, get_this, lift, bind in H.
  destruct (mapGenomeToIndividual _ _ _ fuel g) as [[ind|]| |] eqn:Hmap;
    try discriminate.
  - destruct (Set_has (cache (this w)) (ind_phenotype ind)).
    + inversion H; subst. exists []. split; [apply admits_refl|].
      simpl. rewrite app_nil_r. repeat split; [lia | constructor].
    + unfold cache_add, alloc, mbind, get_heap, put_heap, ret in H. simpl in H.
      inversion H; subst. clear H. exists [ind].
      destruct (mapGenomeToIndividual_null_fitness _ _ _ _ _ _ Hmap) as [Hnull Hg].
      split; [|simpl; repeat split; [lia | constructor; [exact Hg | constructor]]].
      split; [reflexivity|]. split; [constructor; [exact Hnull | constructor]|].
      split; [repeat split | reflexivity].
  - inversion H; subst. exists []. split; [apply admits_refl|].
    simpl. rewrite app_nil_r. repeat split; [lia | constructor].
Qed.

Lemma seq_app_lengths (base : nat) {A : Type} (l1 l2 : list A) :
  seq base (length l1) ++ seq (base + length l1) (length l2)
  = seq base (length (l1 ++ l2)).
Proof. rewrite length_app, seq_app. reflexivity. Qed.

(** The state of the loop of [create_new_pop] after some admissions. *)
Lemma create_loop_shape (fuel : nat) :
  forall n parents newpop tries w res w',
    create_loop fuel n parents newpop tries w = Ok (res, w') ->
    length newpop <= popsize (this w) ->
    exists added,
      admits w w' added /\
      res = newpop ++ seq (length (heap w)) (length added) /\
      length res = popsize (this w) /\
      pop (this w') = pop (this w).
Proof.
  induction n as [|n IH]; intros parents newpop tries w res w' H Hlen;
    simpl in H; apply mbind_inv in H; destruct H as (e & w0 & He & H);
    inversion He; subst e w0; clear He;
    (destruct (Nat.ltb_spec (length newpop) (popsize (this w))) as [Hlt|Hge];
     [|inversion H; subst; exists []; split; [apply admits_refl|];
       simpl; rewrite app_nil_r; repeat split; lia]).
  - discriminate.
  - destruct (Nat.ltb (popsize (this w) * 2) tries).
    + apply mbind_inv in H. destruct H as (g & w1 & Hg & H).
      apply mbind_inv in H. destruct H as (np & w2 & Hgate & H).
      pose proof (respects_random_ind _ only_drew_allows _ _ _ Hg) as Hd1.
      destruct (gate_outcome _ _ _ _ _ _ Hgate) as (a1 & Ha1 & Hone & Hnp & Hpop1 & _).
      pose proof (admits_trans _ _ _ _ _ (admits_drew _ _ Hd1) Ha1) as Hw2.
      simpl in Hw2. destruct Hd1 as [Ht1 Hh1].
      destruct Hw2 as (Hh2 & Hn2 & Hc2 & Hb2).
      assert (Hps : popsize (this w2) = popsize (this w)) by apply Hc2.
      destruct (IH _ _ _ _ _ _ H) as (a2 & Ha2 & Hres & Hlres & Hpop2).
      { rewrite Hnp, length_app, length_seq, Hps. lia. }
      exists (a1 ++ a2). split.
      * apply (admits_trans w w2 w' a1 a2); [|exact Ha2].
        split; [exact Hh2|]. split; [exact Hn2|]. split; assumption.
      * split; [|split; [congruence | congruence]].
        rewrite Hres, Hnp, Hh2, Hh1, length_app, <- app_assoc, seq_app_lengths.
        reflexivity.
    + apply mbind_inv in H. destruct H as ([r0 r1] & w1 & Hs & H).
      apply mbind_inv in H. destruct H as (x0 & w2 & Hx0 & H).
      apply mbind_inv in H. destruct H as (x1 & w3 & Hx1 & H).
      cbv zeta in H.
      apply mbind_inv in H. destruct H as ([g0 g1] & w4 & Hx & H).
      apply mbind_inv in H. destruct H as (u0 & w5 & Hu0 & H).
      apply mbind_inv in H. destruct H as (g0' & w6 & Hm0 & H).
      apply mbind_inv in H. destruct H as (np & w7 & Hgate0 & H).
      pose proof (respects_sampleSize2 _ only_drew_allows _ _ _ _ Hs) as D1.
      pose proof (respects_deref _ only_drew_allows _ _ _ _ Hx0) as D2.
      pose proof (respects_deref _ only_drew_allows _ _ _ _ Hx1) as D3.
      pose proof (respects_crossover _ only_drew_allows _ _ _ _ _ _ _ Hx) as D4.
      pose proof (respects_mt_random _ only_drew_allows _ _ _ Hu0) as D5.
      assert (D6 : only_drew w5 w6).
      { destruct (Qlt_le_dec u0 (pmut (this w))).
        - exact (respects_mutate _ only_drew_allows _ _ _ _ _ Hm0).
        - inversion Hm0; subst. split; reflexivity. }
      assert (D : only_drew w w6).
      { destruct D1, D2, D3, D4, D5, D6. split; congruence. }
      destruct (gate_outcome _ _ _ _ _ _ Hgate0) as (a1 & Ha1 & Hone & Hnp & Hpop1 & _).
      pose proof (admits_trans _ _ _ _ _ (admits_drew _ _ D) Ha1) as Hw7.
      simpl in Hw7. destruct D as [Ht6 Hh6].
      assert (Hps7 : popsize (this w7) = popsize (this w)) by apply Hw7.
      assert (Hnplen : length np <= popsize (this w)).
      { rewrite Hnp, length_app, length_seq. lia. }
      destruct (Nat.eqb_spec (length np) (popsize (this w))) as [Hfull|Hnot].
      * inversion H; subst res w'. exists a1.
        split; [exact Hw7|]. split; [rewrite Hnp, Hh6; reflexivity|].
        split; [exact Hfull | congruence].
      * apply mbind_inv in H. destruct H as (u1 & w8 & Hu1 & H).
        apply mbind_inv in H. destruct H as (g1' & w9 & Hm1 & H).
        apply mbind_inv in H. destruct H as (np' & w10 & Hgate1 & H).
        pose proof (respects_mt_random _ only_drew_allows _ _ _ Hu1) as E1.
        assert (E2 : only_drew w8 w9).
        { destruct (Qlt_le_dec u1 (pmut (this w))).
          - exact (respects_mutate _ only_drew_allows _ _ _ _ _ Hm1).
          - inversion Hm1; subst. split; reflexivity. }
        assert (E : only_drew w7 w9).
        { destruct E1, E2. split; congruence. }
        destruct (gate_outcome _ _ _ _ _ _ Hgate1)
          as (a2 & Ha2 & Hone2 & Hnp' & Hpop2 & _).
        pose proof (admits_trans _ _ _ _ _ (admits_drew _ _ E) Ha2) as Hw10.
        simpl in Hw10.
        pose proof (admits_trans _ _ _ _ _ Hw7 Hw10) as Hacc.
        destruct E as [Ht9 Hh9].
        assert (Hps10 : popsize (this w10) = popsize (this w)).
        { destruct Hw10 as (_ & _ & Hc & _). destruct Hc as (_ & _ & _ & Hp & _).
          congruence. }
        destruct (IH _ _ _ _ _ _ H) as (a3 & Ha3 & Hres & Hlres & Hpop3).
        { rewrite Hnp', length_app, length_seq, Hps10. lia. }
        exists ((a1 ++ a2) ++ a3). split.
        -- eapply admits_trans; eassumption.
        -- split; [|split; [congruence | congruence]].
           destruct Hacc as (Hh10 & _). destruct Hw7 as (Hh7 & _).
           rewrite Hres, Hnp', Hnp, Hh10, Hh9, Hh7, Hh6.
           rewrite !length_app, !seq_app, <- !app_assoc. reflexivity.
Qed.

(** What a returning [create_new_pop] has built. *)
Lemma create_new_pop_shape_aux :
  forall (fuel : nat) (parents newpop : list ref) (w w' : world),
    create_new_pop fuel parents w = Ok (newpop, w') ->
    1 <= popsize (this w) ->
    exists (elite : ref) (added : list individual),
      nth_error (pop (this w)) (length (pop (this w)) - 1) = Some elite /\
      newpop = elite :: seq (length (heap w)) (popsize (this w) - 1) /\
      length newpop = popsize (this w) /\
      heap w' = heap w ++ added /\ length added = popsize (this w) - 1 /\
      Forall (fun x => ind_fitness x = FNull) added /\
      pop (this w') = pop (this w) /\ same_config (this w) (this w').
Proof.
  intros fuel parents newpop w w' H Hsize. unfold create_new_pop in H.
  apply mbind_inv in H. destruct H as (e & w0 & He & H).
  inversion He; subst e w0; clear He.
  destruct (nth_error (pop (this w)) (length (pop (this w)) - 1)) as [elite|];
    [|discriminate].
  destruct (create_loop_shape _ _ _ _ _ _ _ _ H) as (added & Hadm & Hres & Hlen & Hpop).
  { simpl. exact Hsize. }
  destruct Hadm as (Hheap & Hnull & Hconf & _).
  assert (Hadded : length added = popsize (this w) - 1).
  { rewrite Hres in Hlen. simpl in Hlen. rewrite length_seq in Hlen. lia. }
  exists elite, added. split; [reflexivity|].
  split; [rewrite Hres, Hadded; reflexivity|].
  repeat split; assumption || apply Hconf.
Qed.


(** X14.  [create_new_pop] builds a new array and leaves the old
    individuals alone.  On an engine with [popsize >= 1] and a population
    that is not empty, when it returns: the new population has exactly [popsize] elements; its first
    element is the last element of the current population (the elite,
    the same object, not a copy); the others are individuals created by
    this call, in the order of their creation, each with a [null]
    fitness; and the heap is the old heap followed by those
    [popsize - 1] individuals. *)
Theorem create_new_pop_shape :
  forall (fuel : nat) (parents newpop : list ref) (w w' : world),
    create_new_pop fuel parents w = Ok (newpop, w') ->
    1 <= popsize (this w) ->
    pop (this w) <> [] ->
    exists (elite : ref) (added : list individual),
      nth_error (pop (this w)) (length (pop (this w)) - 1) = Some elite /\
      newpop = elite :: seq (length (heap w)) (popsize (this w) - 1) /\
      length newpop = popsize (this w) /\
      heap w' = heap w ++ added /\ length added = popsize (this w) - 1 /\
      Forall (fun x => ind_fitness x = FNull) added /\
      pop (this w') = pop (this w) /\ same_config (this w) (this w').
Proof.
  intros fuel parents newpop w w' H Hsize _.
  exact (create_new_pop_shape_aux fuel parents newpop w w' H Hsize).
Qed.

Lemma create_new_pop_shape_witness :
  let w := after (run 20 [Init] ;;; tell_until_selection [1; 1]%Z) example_world in
  let w' := after (create_new_pop 20 [0; 1]) w in
  exists (elite : ref) (added : list individual),
    nth_error (pop (this w)) (length (pop (this w)) - 1) = Some elite /\
    [1; 2] = elite :: seq (length (heap w)) (popsize (this w) - 1) /\
    length [1; 2] = popsize (this w) /\
    heap w' = heap w ++ added /\ length added = popsize (this w) - 1 /\
    Forall (fun x => ind_fitness x = FNull) added /\
    pop (this w') = pop (this w) /\ same_config (this w) (this w').
Proof.
  intros w w'.
  apply (create_new_pop_shape 20 [0; 1] [1; 2] w w').
  - vm_compute. reflexivity.
  - vm_compute. lia.
  - vm_compute. discriminate.
Defined.

Lemma init_loop_shape (fuel : nat) :
  forall n w w',
    init_loop fuel n w = Ok (tt, w') ->
    length (pop (this w)) <= popsize (this w) ->
    exists added,
      admits w w' added /\
      pop (this w') = pop (this w) ++ seq (length (heap w)) (length added) /\
      length (pop (this w')) = popsize (this w).
Proof.
  induction n as [|n IH]; intros w w' H Hlen;
    simpl in H; apply mbind_inv in H; destruct H as (e & w0 & He & H);
    inversion He; subst e w0; clear He;
    (destruct (Nat.ltb_spec (length (pop (this w))) (popsize (this w))) as [Hlt|Hge];
     [|inversion H; subst; exists []; split; [apply admits_refl|];
       simpl; rewrite app_nil_r; split; [reflexivity | lia]]).
  - discriminate.
  - apply mbind_inv in H. destruct H as (g & w1 & Hg & H).
    apply mbind_inv in H. destruct H as (np & w2 & Hgate & H).
    apply mbind_inv in H. destruct H as (u & w3 & Hassign & H).
    inversion Hassign; subst u w3; clear Hassign.
    pose proof (respects_random_ind _ only_drew_allows _ _ _ Hg) as [Ht1 Hh1].
    destruct (gate_outcome _ _ _ _ _ _ Hgate) as (a1 & Ha1 & Hone & Hnp & Hpop1 & _).
    destruct Ha1 as (Hh2 & Hn2 & Hc2 & Hb2).
    assert (Hps : popsize (this w2) = popsize (this w)).
    { destruct Hc2 as (_ & _ & _ & Hp & _). congruence. }
    destruct (IH _ _ H) as (a2 & Ha2 & Hpop2 & Hlen2).
    { simpl. rewrite Hnp, length_app, length_seq, Hps. lia. }
    simpl in Hpop2, Hlen2.
    destruct Ha2 as (Hh3 & Hn3 & Hc3 & Hb3). simpl in Hh3, Hc3, Hb3.
    exists (a1 ++ a2). split; [|split].
    + split; [rewrite Hh3, Hh2, Hh1, app_assoc; reflexivity|].
      split; [apply Forall_app; split; assumption|].
      split; [|congruence].
      eapply same_config_trans; [|exact Hc3]. rewrite <- Ht1. exact Hc2.
    + rewrite Hpop2, Hnp, Hh2, Hh1.
      rewrite !length_app, !seq_app, <- !app_assoc. reflexivity.
    + congruence.
Qed.

(** X15.  [init] fills the population.  Called on an engine whose
    population is empty, when it returns the population holds exactly
    [popsize] individuals, all created by this call and in the order of
    their creation, each with a [null] fitness; [best_ever] is the first
    of them ([undefined] when [popsize] is 0); and nothing that was on
    the heap before has moved. *)
Theorem init_fills_population :
  forall (fuel : nat) (w w' : world),
    init fuel w = Ok (tt, w') ->
    pop (this w) = [] ->
    exists added : list individual,
      heap w' = heap w ++ added /\ length added = popsize (this w) /\
      Forall (fun x => ind_fitness x = FNull) added /\
      pop (this w') = seq (length (heap w)) (popsize (this w)) /\
      best_ever (this w')
      = (if Nat.eqb (popsize (this w)) 0 then None else Some (length (heap w))) /\
      same_config (this w) (this w').
Proof.
  intros fuel w w' H Hempty. unfold init in H.
  apply mbind_inv in H. destruct H as (u & w1 & Hloop & H).
  apply mbind_inv in H. destruct H as (e & w0 & He & H).
  inversion He; subst e w0; clear He.
  inversion H; subst w'; clear H. destruct u.
  destruct (init_loop_shape _ _ _ _ Hloop) as (added & Hadm & Hpop & Hlen).
  { rewrite Hempty. simpl. lia. }
  rewrite Hempty in Hpop. simpl in Hpop.
  destruct Hadm as (Hheap & Hnull & Hconf & _).
  assert (Hadded : length added = popsize (this w)).
  { rewrite Hpop, length_seq in Hlen. exact Hlen. }
  exists added. simpl. rewrite Hpop, Hadded.
  split; [exact Hheap|]. split; [reflexivity|]. split; [exact Hnull|].
  split; [reflexivity|]. split; [|exact Hconf].
  destruct (popsize (this w)); reflexivity.
Qed.

Lemma init_fills_population_witness :
  exists added : list individual,
    heap (after (init 20) example_world) = heap example_world ++ added /\
    length added = popsize (this example_world) /\
    Forall (fun x => ind_fitness x = FNull) added /\
    pop (this (after (init 20) example_world))
    = seq (length (heap example_world)) (popsize (this example_world)) /\
    best_ever (this (after (init 20) example_world))
    = (if Nat.eqb (popsize (this example_world)) 0 then None
       else Some (length (heap example_world))) /\
    same_config (this example_world) (this (after (init 20) example_world)).
Proof.
  apply (init_fills_population 20 example_world).
  - vm_compute. reflexivity.
  - reflexivity.
Defined.

Lemma keyed_pop_outcome (kf : fit -> key) (l : list ref) :
  forall w ys w',
    mapM (fun r => x <- deref r ;; ret (r, kf (ind_fitness x))) l w = Ok (ys, w') ->
    w' = w /\ map fst ys = l.
Proof.
  induction l as [|r t IH]; intros w ys w' H; simpl in H.
  - inversion H; subst. split; reflexivity.
  - apply mbind_inv in H. destruct H as (y & w1 & Hy & H).
    apply mbind_inv in H. destruct H as (t' & w2 & Ht & H).
    inversion H; subst ys w'; clear H.
    apply mbind_inv in Hy. destruct Hy as (x & w0 & Hx & Hy).
    inversion Hy; subst y w1; clear Hy.
    unfold deref, mbind, get_heap in Hx.
    destruct (nth_error (heap w) r); [|discriminate].
    inversion Hx; subst x w0; clear Hx.
    destruct (IH _ _ _ Ht) as [-> Hfst].
    split; [reflexivity|]. simpl. rewrite Hfst. reflexivity.
Qed.

Lemma sort_pop_outcome (kf : fit -> key) (w : world) (sorted : list ref) (w' : world) :
  sort_pop kf w = Ok (sorted, w') ->
  w' = w /\ Permutation sorted (pop (this w)).
Proof.
  intros H. unfold sort_pop in H.
  apply mbind_inv in H. destruct H as (e & w0 & He & H).
  inversion He; subst e w0; clear He.
  apply mbind_inv in H. destruct H as (ys & w1 & Hys & H).
  inversion H; subst sorted w'; clear H.
  destruct (keyed_pop_outcome _ _ _ _ _ Hys) as [-> Hfst].
  split; [reflexivity|]. rewrite <- Hfst.
  apply Permutation_map. apply sortBy_perm.
Qed.

(** What the selection step of [tell] does to the world. *)
Lemma select_parents_outcome (w : world) (parents : list ref) (w' : world) :
  select_parents w = Ok (parents, w') ->
  heap w' = heap w /\ same_config (this w) (this w') /\
  Permutation (pop (this w')) (pop (this w)) /\
  (interactive (this w) = true -> pop (this w') = pop (this w)).
Proof.
  intros H. unfold select_parents in H.
  apply mbind_inv in H. destruct H as (e & w0 & He & H).
  inversion He; subst e w0; clear He.
  destruct (interactive (this w)) eqn:Hint.
  - destruct (respects_direct_selection _ only_drew_allows _ _ _ H) as [Ht Hh].
    rewrite Ht. split; [exact Hh|]. split; [apply same_config_refl|].
    split; [apply Permutation_refl | reflexivity].
  - apply mbind_inv in H. destruct H as (sorted & w1 & Hsort & H).
    apply mbind_inv in H. destruct H as (u & w2 & Hassign & H).
    inversion Hassign; subst u w2; clear Hassign.
    destruct (respects_truncation_selection _ only_drew_allows _ _ _ H) as [Ht Hh].
    assert (Hs : w1 = w /\ Permutation sorted (pop (this w))).
    { destruct (maximise (this w)); eapply sort_pop_outcome; exact Hsort. }
    destruct Hs as [-> Hperm].
    rewrite Ht, Hh. simpl. split; [reflexivity|].
    split; [repeat split|]. split; [exact Hperm | discriminate].
Qed.

(** What a returning [tell] does to the world. *)
Lemma tell_outcome (fuel : nat) (fitvals : list Z) (w w' : world) :
  tell fuel fitvals w = Ok (tt, w') ->
  1 <= popsize (this w) ->
  exists (elite : ref) (added : list individual) (w4 : world),
    In elite (pop (this w)) /\
    (interactive (this w) = true ->
     nth_error (pop (this w)) (length (pop (this w)) - 1) = Some elite) /\
    pop (this w') = elite :: seq (length (heap w)) (popsize (this w) - 1) /\
    length (heap w4) = length (heap w) /\
    heap w' = heap w4 ++ added /\ length added = popsize (this w) - 1 /\
    Forall (fun x => ind_fitness x = FNull) added /\
    same_config (this w) (this w').
Proof.
  intros H Hsize. unfold tell in H.
  apply mbind_inv in H. destruct H as (u1 & w1 & H1 & H).
  apply mbind_inv in H. destruct H as (u2 & w2 & H2 & H).
  apply mbind_inv in H. destruct H as (u3 & w3 & H3 & H).
  apply mbind_inv in H. destruct H as (parents & w4 & H4 & H).
  apply mbind_inv in H. destruct H as (newpop & w5 & H5 & H).
  inversion H; subst w'; clear H.
  destruct (respects_assign_fitness _ only_scored_allows _ _ _ _ H1)
    as (C1 & P1 & _ & L1 & _).
  destruct (respects_update_best_ever _ only_scored_allows _ _ _ H2)
    as (C2 & P2 & _ & L2 & _).
  destruct (respects_print_statistics _ only_drew_allows _ _ _ H3) as [T3 L3].
  destruct (select_parents_outcome _ _ _ H4) as (L4 & C4 & P4 & I4).
  assert (C : same_config (this w) (this w4)).
  { eapply same_config_trans; [exact C1|].
    eapply same_config_trans; [exact C2|]. rewrite <- T3. exact C4. }
  assert (Hps : popsize (this w4) = popsize (this w)) by apply C.
  assert (Hpop3 : pop (this w3) = pop (this w)) by congruence.
  destruct (create_new_pop_shape_aux fuel parents newpop w4 w5 H5)
    as (elite & added & Hel & Hnew & _ & Hheap & Hadd & Hnull & _ & C5).
  { lia. }
  exists elite, added, w4.
  assert (Hin4 : In elite (pop (this w4))) by (eapply nth_error_In; exact Hel).
  split; [rewrite <- Hpop3; eapply Permutation_in; eassumption|].
  split.
  { intros Hi. assert (Hi3 : interactive (this w3) = true).
    { destruct C1 as (E1 & _). destruct C2 as (E2 & _). congruence. }
    rewrite (I4 Hi3), Hpop3 in Hel. exact Hel. }
  simpl. rewrite Hnew, Hps.
  split; [f_equal; f_equal; congruence|].
  split; [congruence|]. split; [exact Hheap|]. split; [lia|].
  split; [exact Hnull|].
  eapply same_config_trans; [exact C | exact C5].
Qed.


(** X16.  [tell] replaces the population.  On an engine with
    [popsize >= 1], when [tell] returns: the new population is one
    individual of the old population (the elite: in interactive mode the
    last element of the old population) followed by [popsize - 1]
    individuals created by this call, in the order of their creation;
    each of those has a [null] fitness; and the heap has grown by exactly
    those [popsize - 1] individuals. *)
Theorem tell_replaces_population :
  forall (fuel : nat) (fitvals : list Z) (w w' : world),
    tell fuel fitvals w = Ok (tt, w') ->
    1 <= popsize (this w) ->
    exists elite : ref,
      In elite (pop (this w)) /\
      (interactive (this w) = true ->
       nth_error (pop (this w)) (length (pop (this w)) - 1) = Some elite) /\
      pop (this w') = elite :: seq (length (heap w)) (popsize (this w) - 1) /\
      length (heap w') = length (heap w) + (popsize (this w) - 1) /\
      (forall r, length (heap w) <= r < length (heap w') ->
                 fitness_at (heap w') r = FNull) /\
      same_config (this w) (this w').
Proof.
  intros fuel fitvals w w' H Hsize.
  destruct (tell_outcome _ _ _ _ H Hsize)
    as (elite & added & w4 & Hin & Hlast & Hpop & Hlen4 & Hheap & Hadded & Hnull & Hconf).
  exists elite. split; [exact Hin|]. split; [exact Hlast|]. split; [exact Hpop|].
  split; [rewrite Hheap, length_app; lia|]. split; [|exact Hconf].
  intros r [Hlo Hhi]. unfold fitness_at.
  rewrite Hheap, nth_error_app2 by lia.
  rewrite Hheap, length_app in Hhi.
  destruct (nth_error added (r - length (heap w4))) as [x|] eqn:Hx.
  - rewrite Forall_forall in Hnull. apply Hnull. eapply nth_error_In; exact Hx.
  - apply nth_error_None in Hx. lia.
Qed.

Lemma tell_replaces_population_witness :
  let w := after (run 20 [Init]) example_world in
  let w' := after (tell 20 [1; 1]%Z) w in
  exists elite : ref,
    In elite (pop (this w)) /\
    (interactive (this w) = true ->
     nth_error (pop (this w)) (length (pop (this w)) - 1) = Some elite) /\
    pop (this w') = elite :: seq (length (heap w)) (popsize (this w) - 1) /\
    length (heap w') = length (heap w) + (popsize (this w) - 1) /\
    (forall r, length (heap w) <= r < length (heap w') ->
               fitness_at (heap w') r = FNull) /\
    same_config (this w) (this w').
Proof.
  intros w w'.
  apply (tell_replaces_population 20 [1; 1]%Z w w').
  - vm_compute. reflexivity.
  - vm_compute. lia.
Defined.

Lemma for_each_invariant {A : Type} (P : world -> Prop) (body : A -> M unit) :
  (forall x w w', P w -> body x w = Ok (tt, w') -> P w') ->
  forall l w w', P w -> for_each l body w = Ok (tt, w') -> P w'.
Proof.
  intros Hbody. induction l as [|x t IH]; intros w w' HP H; simpl in H.
  - inversion H; subst. exact HP.
  - apply mbind_inv in H. destruct H as ([] & w1 & Hx & H).
    eapply IH; [|exact H]. eapply Hbody; eassumption.
Qed.

(** A full population of size [n]. *)
Lemma tell_keeps_full (n : nat) (fuel : nat) (fitvals : list Z) (w w' : world) :
  1 <= n ->
  full w /\ popsize (this w) = n ->
  tell fuel fitvals w = Ok (tt, w') ->
  full w' /\ popsize (this w') = n.
Proof.
  intros Hn [(Hlen & Hvalid & Hnodup) Hsize] H.
  destruct (tell_outcome _ _ _ _ H)
    as (elite & added & w4 & Hin & _ & Hpop & Hlen4 & Hheap & Hadded & _ & Hconf).
  { lia. }
  assert (Hel : elite < length (heap w)).
  { rewrite Forall_forall in Hvalid. apply Hvalid. exact Hin. }
  assert (Hps : popsize (this w') = popsize (this w)) by apply Hconf.
  split; [|congruence].
  unfold full. rewrite Hpop, Hheap, length_app, Hlen4, Hadded, Hps.
  split; [simpl; rewrite length_seq; lia|]. split.
  - constructor; [lia|]. apply Forall_forall. intros r Hr.
    apply in_seq in Hr. lia.
  - constructor; [|apply seq_NoDup].
    intros Hr. apply in_seq in Hr. lia.
Qed.

Lemma init_makes_full (fuel : nat) (w w' : world) :
  length (pop (this w)) <= popsize (this w) ->
  Forall (fun r => r < length (heap w)) (pop (this w)) ->
  NoDup (pop (this w)) ->
  init fuel w = Ok (tt, w') ->
  full w' /\ popsize (this w') = popsize (this w).
Proof.
  intros Hlen Hvalid Hnodup H. unfold init in H.
  apply mbind_inv in H. destruct H as (u & w1 & Hloop & H).
  apply mbind_inv in H. destruct H as (e & w0 & He & H).
  inversion He; subst e w0; clear He.
  inversion H; subst w'; clear H. destruct u.
  destruct (init_loop_shape _ _ _ _ Hloop Hlen) as (added & Hadm & Hpop & Hlen1).
  destruct Hadm as (Hheap & _ & Hconf & _).
  assert (Hps : popsize (this w1) = popsize (this w)) by apply Hconf.
  rewrite Forall_forall in Hvalid.
  split; [|exact Hps].
  unfold full. simpl. split; [congruence|].
  rewrite Hpop, Hheap, length_app. split.
  - apply Forall_forall. intros r Hr. apply in_app_or in Hr.
    destruct Hr as [Hr|Hr]; [apply Hvalid in Hr; lia | apply in_seq in Hr; lia].
  - apply NoDup_app; [exact Hnodup | apply seq_NoDup |].
    intros r Hr Hr'. apply Hvalid in Hr. apply in_seq in Hr'. lia.
Qed.

Lemma evolve_keeps_full (n : nat) (fuel : nat) (w : world) (b : option ref) (w' : world) :
  1 <= n ->
  full w /\ popsize (this w) = n ->
  evolve fuel w = Ok (b, w') ->
  full w' /\ popsize (this w') = n.
Proof.
  intros Hn HP H. unfold evolve in H.
  apply mbind_inv in H. destruct H as (e & w0 & He & H).
  inversion He; subst e w0; clear He.
  apply mbind_inv in H. destruct H as ([] & w1 & Hloop & H).
  apply mbind_inv in H. destruct H as ([] & w2 & Hgen & H).
  inversion Hgen; subst w2; clear Hgen.
  inversion H; subst b w'; clear H.
  assert (HP1 : full w1 /\ popsize (this w1) = n).
  { eapply (for_each_invariant (fun v => full v /\ popsize (this v) = n));
      [|exact HP|exact Hloop].
    intros i v v' HPv Hbody.
    apply mbind_inv in Hbody. destruct Hbody as ([] & v1 & Hgen & Hbody).
    inversion Hgen; subst v1; clear Hgen.
    apply mbind_inv in Hbody. destruct Hbody as (x & v2 & Hask & Hbody).
    inversion Hask; subst x v2; clear Hask.
    apply mbind_inv in Hbody. destruct Hbody as (fitvals & v3 & Hfit & Hbody).
    assert (Hdrew : only_drew (set_this v (set_gen (this v) i)) v3).
    { eapply (respects_mapM _ only_drew_allows); [|exact Hfit]. intros r.
      apply (respects_bind _ only_drew_allows);
        [apply (respects_deref _ only_drew_allows)|]. intros xi.
      apply (respects_ret _ only_drew_allows). }
    destruct Hdrew as [Ht Hh].
    simpl in Ht, Hh.
    eapply (tell_keeps_full n); [| |exact Hbody].
    - exact Hn.
    - destruct HPv as [(L & V & N) S]. unfold full. rewrite Ht, Hh. simpl.
      repeat split; assumption. }
  destruct HP1 as [(L & V & N) S]. unfold full. simpl.
  repeat split; assumption.
Qed.

Lemma run_keeps_full (n : nat) (fuel : nat) (cs : list call) :
  1 <= n ->
  forall w w',
    full w /\ popsize (this w) = n ->
    run fuel cs w = Ok (tt, w') ->
    full w' /\ popsize (this w') = n.
Proof.
  intros Hn. induction cs as [|c rest IH]; intros w w' HP H; simpl in H.
  - inversion H; subst. exact HP.
  - apply mbind_inv in H. destruct H as ([] & w1 & Hc & H).
    eapply IH; [|exact H]. clear IH H.
    destruct c as [| |fitvals|]; simpl in Hc.
    + destruct HP as [(L & V & N) S].
      destruct (init_makes_full fuel w w1) as [F1 S1]; try assumption; [lia|].
      split; [exact F1 | congruence].
    + apply mbind_inv in Hc. destruct Hc as (x & w0 & Hask & Hc).
      inversion Hask; subst x w0; clear Hask.
      inversion Hc; subst w1. exact HP.
    + eapply tell_keeps_full; eassumption.
    + apply mbind_inv in Hc. destruct Hc as (b & w0 & Hev & Hc).
      inversion Hc; subst w0; clear Hc.
      eapply evolve_keeps_full; eassumption.
Qed.

(** X17.  The population stays full.  On an engine with [popsize >= 1]
    whose population is still empty, after [init] and any further calls
    of [init], [ask], [tell] and [evolve] that all return, the
    population holds exactly [popsize] individuals, no individual
    twice, and [popsize] is what it was. *)
Theorem population_stays_full :
  forall (fuel : nat) (cs : list call) (w w' : world),
    pop (this w) = [] ->
    1 <= popsize (this w) ->
    run fuel (Init :: cs) w = Ok (tt, w') ->
    popsize (this w') = popsize (this w) /\
    length (pop (this w')) = popsize (this w) /\
    NoDup (pop (this w')) /\
    Forall (fun r => r < length (heap w')) (pop (this w')).
Proof.
  intros fuel cs w w' Hempty Hsize H. simpl in H.
  apply mbind_inv in H. destruct H as ([] & w1 & Hinit & H).
  destruct (init_makes_full fuel w w1) as [F1 S1]; try exact Hinit.
  { rewrite Hempty. simpl. lia. }
  { rewrite Hempty. constructor. }
  { rewrite Hempty. constructor. }
  destruct (run_keeps_full (popsize (this w)) fuel cs Hsize w1 w') as [(L & V & N) S].
  { split; assumption. }
  { exact H. }
  repeat split; try assumption. congruence.
Qed.

Lemma population_stays_full_witness :
  let w' := after (run 20 [Init; Tell [1; 1]%Z; Ask; Tell [1; 1]%Z]) example_world in
  popsize (this w') = popsize (this example_world) /\
  length (pop (this w')) = popsize (this example_world) /\
  NoDup (pop (this w')) /\
  Forall (fun r => r < length (heap w')) (pop (this w')).
Proof.
  intros w'.
  apply (population_stays_full 20 [Tell [1; 1]%Z; Ask; Tell [1; 1]%Z] example_world w').
  - reflexivity.
  - vm_compute. lia.
  - vm_compute. reflexivity.
Defined.


(** ** What [tell] writes *)

Lemma assign_loop_writes (fitvals : list Z) (l : list nat) :
  forall w,
    NoDup (pop (this w)) ->
    Forall (fun i => i < length (pop (this w))) l ->
    Forall (fun r => r < length (heap w)) (pop (this w)) ->
    exists w',
      for_each l (fun i => r <- pop_at i ;; write_fitness r (fitval fitvals i)) w
      = Ok (tt, w') /\
      this w' = this w /\ length (heap w') = length (heap w) /\
      (forall i r, In i l -> nth_error (pop (this w)) i = Some r ->
                   fitness_at (heap w') r = fitval fitvals i) /\
      (forall r, (forall i, In i l -> nth_error (pop (this w)) i <> Some r) ->
                 nth_error (heap w') r = nth_error (heap w) r) /\
      (forall r x, nth_error (heap w) r = Some x ->
                   exists x', nth_error (heap w') r = Some x' /\ same_identity x x').
Proof.
  induction l as [|i t IH]; intros w Hnodup Hl Hvalid.
  - exists w. simpl. split; [reflexivity|]. split; [reflexivity|].
    split; [reflexivity|]. split; [intros i r []|]. split; [reflexivity|].
    intros r x Hx. exists x. split; [exact Hx | apply same_identity_refl].
  - inversion Hl as [|? ? Hi Ht]; subst.
    destruct (nth_error (pop (this w)) i) as [r|] eqn:Hr;
      [|apply nth_error_None in Hr; lia].
    assert (Hrv : r < length (heap w)).
    { rewrite Forall_forall in Hvalid. apply Hvalid. eapply nth_error_In. exact Hr. }
    destruct (nth_error (heap w) r) as [x|] eqn:Hx;
      [|apply nth_error_None in Hx; lia].
    set (w1 := set_heap w (list_set (heap w) r (with_fitness x (fitval fitvals i)))).
    assert (Hbody : (r <- pop_at i ;; write_fitness r (fitval fitvals i)) w
                    = Ok (tt, w1)).
    { erewrite mbind_ok;
        [|unfold pop_at; erewrite mbind_ok; [|reflexivity]; rewrite Hr; reflexivity].
      unfold write_fitness. erewrite mbind_ok; [|apply deref_ok; exact Hx].
      reflexivity. }
    destruct (IH w1) as (w' & Hrun & Hthis & Hlen & Hin & Hout & Hid).
    { exact Hnodup. }
    { exact Ht. }
    { simpl. rewrite length_list_set. exact Hvalid. }
    simpl in Hthis, Hlen, Hin, Hout, Hid. rewrite length_list_set in Hlen.
    assert (Hr1 : nth_error (list_set (heap w) r (with_fitness x (fitval fitvals i))) r
                  = Some (with_fitness x (fitval fitvals i))).
    { rewrite nth_error_list_set, Nat.eqb_refl.
      destruct (Nat.ltb_spec r (length (heap w))); [reflexivity | lia]. }
    exists w'. split; [|split; [exact Hthis | split; [exact Hlen | split; [|split]]]].
    + simpl. erewrite mbind_ok; [|exact Hbody]. exact Hrun.
    + intros j r' [<-|Hj] Hr'.
      * assert (r' = r) by congruence. subst r'.
        destruct (in_dec Nat.eq_dec i t) as [Hit|Hit]; [apply Hin; assumption|].
        unfold fitness_at. rewrite Hout, Hr1; [reflexivity|].
        intros j Hj Hrj. apply Hit.
        assert (j = i); [|subst; exact Hj].
        eapply (proj1 (NoDup_nth_error (pop (this w))) Hnodup); [|congruence].
        apply nth_error_Some. congruence.
      * apply Hin; assumption.
    + intros r' Hr'. rewrite Hout.
      * rewrite nth_error_list_set.
        destruct (Nat.eqb_spec r' r) as [->|]; [|reflexivity].
        exfalso. apply (Hr' i); [left; reflexivity | exact Hr].
      * intros j Hj. apply Hr'. right. exact Hj.
    + intros r' x' Hx'.
      destruct (Nat.eq_dec r' r) as [->|Hne].
      * destruct (Hid r _ Hr1) as (x'' & Hx'' & Hsame).
        exists x''. split; [exact Hx''|].
        assert (x' = x) by congruence. subst x'.
        destruct Hsame as (G & P & U). repeat split; assumption.
      * apply Hid. rewrite nth_error_list_set.
        destruct (Nat.eqb_spec r' r); [contradiction | exact Hx'].
Qed.

(** X18.  [tell] stores the fitness values in the individuals.  On a
    population of at least [popsize] individuals, none of them twice,
    the first loop of [tell] returns; afterwards the fitness slot of
    [pop[i]] holds [fitvals[i]] for every [i < popsize] ([undefined]
    where the list is too short), every individual still has its genome,
    phenotype and count of used codons, an individual that is not among
    the first [popsize] of the population is as it was, and the engine
    object has not changed. *)
Theorem tell_stores_fitness :
  forall (fitvals : list Z) (w : world),
    popsize (this w) <= length (pop (this w)) ->
    NoDup (pop (this w)) ->
    Forall (fun r => r < length (heap w)) (pop (this w)) ->
    exists w',
      assign_fitness fitvals w = Ok (tt, w') /\
      this w' = this w /\
      (forall i r, i < popsize (this w) -> nth_error (pop (this w)) i = Some r ->
                   fitness_at (heap w') r = fitval fitvals i) /\
      (forall r, ~ In r (firstn (popsize (this w)) (pop (this w))) ->
                 nth_error (heap w') r = nth_error (heap w) r) /\
      (forall r x, nth_error (heap w) r = Some x ->
                   exists x', nth_error (heap w') r = Some x' /\ same_identity x x').
Proof.
  intros fitvals w Hsize Hnodup Hvalid.
  destruct (assign_loop_writes fitvals (seq 0 (popsize (this w))) w Hnodup)
    as (w' & Hrun & Hthis & _ & Hin & Hout & Hid).
  { apply Forall_forall. intros i Hi. apply in_seq in Hi. lia. }
  { exact Hvalid. }
  exists w'. split; [|split; [exact Hthis | split; [|split; [|exact Hid]]]].
  - unfold assign_fitness. erewrite mbind_ok; [|reflexivity]. exact Hrun.
  - intros i r Hi Hr. apply Hin; [apply in_seq; lia | exact Hr].
  - intros r Hr. apply Hout. intros i Hi Hri. apply Hr.
    apply in_seq in Hi.
    apply (nth_error_In _ i). rewrite nth_error_firstn.
    destruct (Nat.ltb_spec i (popsize (this w))); [exact Hri | lia].
Qed.

Lemma tell_stores_fitness_witness :
  let w := after (run 20 [Init]) example_world in
  exists w',
    assign_fitness [4; 0]%Z w = Ok (tt, w') /\
    this w' = this w /\
    (forall i r, i < popsize (this w) -> nth_error (pop (this w)) i = Some r ->
                 fitness_at (heap w') r = fitval [4; 0]%Z i) /\
    (forall r, ~ In r (firstn (popsize (this w)) (pop (this w))) ->
               nth_error (heap w') r = nth_error (heap w) r) /\
    (forall r x, nth_error (heap w) r = Some x ->
                 exists x', nth_error (heap w') r = Some x' /\ same_identity x x').
Proof.
  intros w.
  apply (tell_stores_fitness [4; 0]%Z w).
  - vm_compute. lia.
  - vm_compute. repeat constructor; simpl; intuition discriminate.
  - vm_compute. repeat constructor.
Defined.


(** ** The scan for the best individual *)

Lemma firstn_by_index {A : Type} (d : A) (l : list A) :
  forall n, n <= length l -> map (fun i => nth i l d) (seq 0 n) = firstn n l.
Proof.
  induction l as [|x t IH]; intros [|n] Hn; simpl in *; try reflexivity; [lia|].
  f_equal. rewrite <- seq_shift, map_map. apply IH. lia.
Qed.

Lemma update_loop_scans (mx : bool) (l : list nat) :
  forall w b,
    best_ever (this w) = Some b -> b < length (heap w) ->
    Forall (fun i => i < length (pop (this w))) l ->
    Forall (fun r => r < length (heap w)) (pop (this w)) ->
    exists w',
      for_each l (fun i =>
        r <- pop_at i ;;
        x <- deref r ;;
        b <- the_best_ever ;;
        y <- deref b ;;
        if (mx && js_ge (ind_fitness x) (ind_fitness y))
           || (negb mx && js_le (ind_fitness x) (ind_fitness y))
        then assign_best_ever (Some r)
        else ret tt) w
      = Ok (tt, w') /\
      heap w' = heap w /\ pop (this w') = pop (this w) /\
      same_config (this w) (this w') /\
      best_ever (this w')
      = Some (scan mx (heap w) (map (fun i => nth i (pop (this w)) 0) l) b).
Proof.
  induction l as [|i t IH]; intros w b Hb Hbv Hl Hvalid.
  - exists w. simpl. repeat split; try reflexivity. exact Hb.
  - inversion Hl as [|? ? Hi Ht]; subst.
    destruct (nth_error (pop (this w)) i) as [r|] eqn:Hr;
      [|apply nth_error_None in Hr; lia].
    assert (Hnth : nth i (pop (this w)) 0 = r) by (apply nth_error_nth; exact Hr).
    assert (Hrv : r < length (heap w)).
    { rewrite Forall_forall in Hvalid. apply Hvalid. eapply nth_error_In. exact Hr. }
    destruct (nth_error (heap w) r) as [x|] eqn:Hx;
      [|apply nth_error_None in Hx; lia].
    destruct (nth_error (heap w) b) as [y|] eqn:Hy;
      [|apply nth_error_None in Hy; lia].
    set (b1 := if beats mx (fitness_at (heap w) r) (fitness_at (heap w) b) then r else b).
    set (w1 := if beats mx (fitness_at (heap w) r) (fitness_at (heap w) b)
               then set_this w (set_best_ever (this w) (Some r)) else w).
    assert (Hw1 : heap w1 = heap w /\ pop (this w1) = pop (this w) /\
                  same_config (this w) (this w1) /\ best_ever (this w1) = Some b1).
    { unfold w1, b1.
      destruct (beats mx (fitness_at (heap w) r) (fitness_at (heap w) b)); simpl.
      - repeat split.
      - split; [reflexivity|]. split; [reflexivity|].
        split; [apply same_config_refl | exact Hb]. }
    destruct Hw1 as (Hh1 & Hp1 & Hc1 & Hb1).
    assert (Hb1v : b1 < length (heap w)).
    { unfold b1. destruct (beats mx _ _); assumption. }
    destruct (IH w1 b1) as (w' & Hrun & Hh & Hp & Hc & Hbest).
    { exact Hb1. }
    { rewrite Hh1. exact Hb1v. }
    { rewrite Hp1. exact Ht. }
    { rewrite Hp1, Hh1. exact Hvalid. }
    exists w'. split; [|split; [congruence | split; [congruence | split]]].
    + simpl. erewrite mbind_ok; [exact Hrun|].
      erewrite mbind_ok;
        [|unfold pop_at; erewrite mbind_ok; [|reflexivity]; rewrite Hr; reflexivity].
      erewrite mbind_ok; [|apply deref_ok; exact Hx].
      erewrite mbind_ok;
        [|unfold the_best_ever; erewrite mbind_ok; [|reflexivity]; rewrite Hb; reflexivity].
      erewrite mbind_ok; [|apply deref_ok; exact Hy].
      unfold w1, beats, fitness_at. rewrite Hx, Hy.
      destruct ((mx && js_ge (ind_fitness x) (ind_fitness y))
                || (negb mx && js_le (ind_fitness x) (ind_fitness y))); reflexivity.
    + eapply same_config_trans; eassumption.
    + rewrite Hbest, Hh1, Hp1. simpl. rewrite Hnth. reflexivity.
Qed.

Lemma beats_refl (mx : bool) (x : fit) : x <> FUndef -> beats mx x x = true.
Proof.
  intros Hx. unfold beats, js_ge, js_le.
  destruct x as [z| |]; simpl; try contradiction;
    destruct mx; simpl; try reflexivity; rewrite ?Z.leb_refl; reflexivity.
Qed.

Lemma beats_trans (mx : bool) (x y z : fit) :
  beats mx x y = true -> beats mx y z = true -> beats mx x z = true.
Proof.
  unfold beats, js_ge, js_le.
  destruct x, y, z, mx; simpl; intros H1 H2; try discriminate; try reflexivity;
    rewrite ?orb_false_r in *; apply Z.leb_le in H1 || idtac; apply Z.leb_le in H2 || idtac;
    try apply Z.leb_le; lia.
Qed.

Lemma beats_total (mx : bool) (x y : fit) :
  x <> FUndef -> y <> FUndef -> beats mx x y = false -> beats mx y x = true.
Proof.
  unfold beats, js_ge, js_le.
  destruct x, y, mx; simpl; intros Hx Hy H; try contradiction; try discriminate;
    rewrite ?orb_false_r in *; try apply Z.leb_gt in H; try apply Z.leb_le; lia.
Qed.

(** The winner of a scan beats all the scanned individuals that have a
    fitness, and those scanned after it do not beat it. *)
Lemma scan_best (mx : bool) (h : list individual) (l : list ref) :
  forall b,
    let b' := scan mx h l b in
    In b' (b :: l) /\
    (Forall (fun r => fitness_at h r <> FUndef) (b :: l) ->
     Forall (fun r => beats mx (fitness_at h b') (fitness_at h r) = true) (b :: l)) /\
    ((b' = b /\ Forall (fun r => beats mx (fitness_at h r) (fitness_at h b') = false) l) \/
     (exists l1 l2, l = l1 ++ b' :: l2 /\
                    Forall (fun r => beats mx (fitness_at h r) (fitness_at h b') = false) l2)).
Proof.
  induction l as [|r t IH]; intros b; cbv zeta.
  - simpl. split; [left; reflexivity|]. split.
    + intros Hnum. inversion Hnum; subst. constructor; [|constructor].
      apply beats_refl. assumption.
    + left. split; [reflexivity | constructor].
  - change (scan mx h (r :: t) b)
      with (scan mx h t (if beats mx (fitness_at h r) (fitness_at h b) then r else b)).
    destruct (beats mx (fitness_at h r) (fitness_at h b)) eqn:Hrb.
    + destruct (IH r) as (Hin & Hmax & Hlast). cbv zeta in Hin, Hmax, Hlast.
      split; [right; exact Hin|]. split.
      * intros Hnum. apply Forall_cons_iff in Hnum. destruct Hnum as [Hnb Hnt].
        specialize (Hmax Hnt).
        pose proof (proj1 (proj1 (Forall_cons_iff _ _ _) Hmax)) as Hr.
        constructor; [|exact Hmax].
        eapply beats_trans; [exact Hr | exact Hrb].
      * right. destruct Hlast as [[Heq Hall]|(l1 & l2 & Hsplit & Hall)].
        -- exists [], t. rewrite Heq in Hall |- *.
           split; [reflexivity | exact Hall].
        -- exists (r :: l1), l2.
           split; [simpl; f_equal; exact Hsplit | exact Hall].
    + destruct (IH b) as (Hin & Hmax & Hlast). cbv zeta in Hin, Hmax, Hlast.
      split; [destruct Hin as [Hin|Hin]; [left; exact Hin | right; right; exact Hin]|].
      split.
      * intros Hnum. apply Forall_cons_iff in Hnum. destruct Hnum as [Hnb Hnt].
        apply Forall_cons_iff in Hnt. destruct Hnt as [Hnr Hnt].
        assert (Hn : Forall (fun r => fitness_at h r <> FUndef) (b :: t))
          by (constructor; assumption).
        specialize (Hmax Hn).
        apply Forall_cons_iff in Hmax. destruct Hmax as [Hb Hrest].
        constructor; [exact Hb|]. constructor; [|exact Hrest].
        eapply beats_trans; [exact Hb|]. apply beats_total; assumption.
      * destruct Hlast as [[Heq Hall]|(l1 & l2 & Hsplit & Hall)].
        -- left. split; [exact Heq|]. constructor; [|exact Hall].
           rewrite Heq. exact Hrb.
        -- right. exists (r :: l1), l2.
           split; [simpl; f_equal; exact Hsplit | exact Hall].
Qed.

(** X19.  The scan of [tell] for the best individual.  With [best_ever]
    set and a population of at least [popsize] individuals, the second
    loop of [tell] returns and changes nothing but [best_ever].  The new
    [best_ever] is the old one or one of the first [popsize] individuals
    of the population.  If all of these have a fitness other than
    [undefined], it is at least as good as each of them in the direction
    of optimisation, a [null] fitness counting as 0.  No individual
    scanned after it is as good as it is: among equally good individuals
    the last one scanned wins, and the old [best_ever] stays only if every
    scanned individual is strictly worse. *)
Theorem update_best_ever_keeps_last_best :
  forall (w : world) (b : ref),
    best_ever (this w) = Some b -> b < length (heap w) ->
    popsize (this w) <= length (pop (this w)) ->
    Forall (fun r => r < length (heap w)) (pop (this w)) ->
    let mx := maximise (this w) in
    let scanned := firstn (popsize (this w)) (pop (this w)) in
    let fit_of := fitness_at (heap w) in
    exists (b' : ref) (w' : world),
      update_best_ever w = Ok (tt, w') /\
      heap w' = heap w /\ pop (this w') = pop (this w) /\
      same_config (this w) (this w') /\
      best_ever (this w') = Some b' /\
      In b' (b :: scanned) /\
      (Forall (fun r => fit_of r <> FUndef) (b :: scanned) ->
       Forall (fun r => beats mx (fit_of b') (fit_of r) = true) (b :: scanned)) /\
      ((b' = b /\ Forall (fun r => beats mx (fit_of r) (fit_of b') = false) scanned) \/
       (exists l1 l2,
           scanned = l1 ++ b' :: l2 /\
           Forall (fun r => beats mx (fit_of r) (fit_of b') = false) l2)).
Proof.
  intros w b Hb Hbv Hsize Hvalid. cbv zeta.
  destruct (update_loop_scans (maximise (this w)) (seq 0 (popsize (this w))) w b Hb Hbv)
    as (w' & Hrun & Hh & Hp & Hc & Hbest).
  { apply Forall_forall. intros i Hi. apply in_seq in Hi. lia. }
  { exact Hvalid. }
  rewrite firstn_by_index in Hbest by exact Hsize.
  destruct (scan_best (maximise (this w)) (heap w)
                      (firstn (popsize (this w)) (pop (this w))) b)
    as (Hin & Hmax & Hlast).
  cbv zeta in Hin, Hmax, Hlast.
  eexists. exists w'.
  split; [unfold update_best_ever; erewrite mbind_ok; [exact Hrun | reflexivity]|].
  split; [exact Hh|]. split; [exact Hp|]. split; [exact Hc|].
  split; [exact Hbest|]. split; [exact Hin|]. split; [exact Hmax | exact Hlast].
Qed.

Lemma update_best_ever_keeps_last_best_witness :
  let w := after (init 20 ;;; assign_fitness [1; 1]%Z) example_world in
  let mx := maximise (this w) in
  let scanned := firstn (popsize (this w)) (pop (this w)) in
  let fit_of := fitness_at (heap w) in
  exists (b' : ref) (w' : world),
    update_best_ever w = Ok (tt, w') /\
    heap w' = heap w /\ pop (this w') = pop (this w) /\
    same_config (this w) (this w') /\
    best_ever (this w') = Some b' /\
    In b' (0 :: scanned) /\
    (Forall (fun r => fit_of r <> FUndef) (0 :: scanned) ->
     Forall (fun r => beats mx (fit_of b') (fit_of r) = true) (0 :: scanned)) /\
    ((b' = 0 /\ Forall (fun r => beats mx (fit_of r) (fit_of b') = false) scanned) \/
     (exists l1 l2,
         scanned = l1 ++ b' :: l2 /\
         Forall (fun r => beats mx (fit_of r) (fit_of b') = false) l2)).
Proof.
  intros w.
  apply (update_best_ever_keeps_last_best w 0).
  - vm_compute. reflexivity.
  - vm_compute. lia.
  - vm_compute. lia.
  - vm_compute. repeat constructor.
Defined.


(** ** Breeding from a single parent *)

Lemma filterM_by_fitness (p : fit -> bool) (l : list ref) (w : world) :
  Forall (fun r => r < length (heap w)) l ->
  filterM (fun r => x <- deref r ;; ret (p (ind_fitness x))) l w
  = Ok (filter (fun r => p (fitness_at (heap w) r)) l, w).
Proof.
  induction l as [|r t IH]; intros Hvalid; simpl; [reflexivity|].
  apply Forall_cons_iff in Hvalid. destruct Hvalid as [Hr Ht].
  destruct (nth_error (heap w) r) as [x|] eqn:Hx;
    [|apply nth_error_None in Hx; lia].
  erewrite mbind_ok;
    [|erewrite mbind_ok; [|apply deref_ok; exact Hx]; reflexivity].
  erewrite mbind_ok; [|apply IH; exact Ht].
  unfold fitness_at. rewrite Hx. reflexivity.
Qed.

Lemma In_firstn_In {A : Type} (n : nat) (l : list A) (x : A) :
  In x (firstn n l) -> In x l.
Proof.
  intros H. rewrite <- (firstn_skipn n l). apply in_or_app. left. exact H.
Qed.

Lemma length_filter_map {A B : Type} (f : B -> bool) (g : A -> B) (l : list A) :
  length (filter f (map g l)) = length (filter (fun i => f (g i)) l).
Proof.
  induction l as [|x t IH]; simpl; [reflexivity|].
  destruct (f (g x)); simpl; rewrite IH; reflexivity.
Qed.

Lemma create_new_pop_few_parents (fuel : nat) (parents : list ref) (w : world) :
  length parents < 2 -> 2 <= popsize (this w) -> pop (this w) <> [] -> 1 <= fuel ->
  create_new_pop fuel parents w = Throw.
Proof.
  intros Hp Hsize Hpop Hfuel. unfold create_new_pop.
  erewrite mbind_ok; [|reflexivity].
  destruct (nth_error (pop (this w)) (length (pop (this w)) - 1)) as [elite|] eqn:He.
  - destruct fuel as [|n]; [lia|]. simpl.
    erewrite mbind_ok; [|reflexivity].
    destruct (Nat.ltb_spec 1 (popsize (this w))); [|lia].
    destruct (Nat.ltb_spec (popsize (this w) * 2) 0); [lia|].
    unfold mbind, sampleSize2.
    destruct (Nat.ltb_spec (length parents) 2); [reflexivity | lia].
  - apply nth_error_None in He. destruct (pop (this w)); [contradiction|].
    simpl in He. lia.
Qed.

(** X20.  One chosen individual is not enough.  On an interactive engine
    of at least two individuals, none of them twice in the population, and
    with [best_ever] set, [tell] throws whenever exactly one of the first
    [popsize] fitness values is a number other than 0: direct selection
    then yields a single parent, and the first attempt to draw two parents
    from it fails. *)
Theorem tell_with_one_choice_throws :
  forall (fuel : nat) (fitvals : list Z) (w : world) (b : ref),
    interactive (this w) = true ->
    2 <= popsize (this w) -> 1 <= fuel ->
    length (pop (this w)) = popsize (this w) ->
    NoDup (pop (this w)) ->
    Forall (fun r => r < length (heap w)) (pop (this w)) ->
    best_ever (this w) = Some b -> b < length (heap w) ->
    length (filter (fun i => truthy (fitval fitvals i)) (seq 0 (popsize (this w)))) = 1 ->
    tell fuel fitvals w = Throw.
Proof.
  intros fuel fitvals w b Hint Hsize Hfuel Hlen Hnodup Hvalid Hb Hbv Hone.
  destruct (assign_loop_writes fitvals (seq 0 (popsize (this w))) w Hnodup)
    as (w1 & Hrun1 & Ht1 & Hl1 & Hin1 & _ & _).
  { apply Forall_forall. intros i Hi. apply in_seq in Hi. lia. }
  { exact Hvalid. }
  assert (Hassign : assign_fitness fitvals w = Ok (tt, w1)).
  { unfold assign_fitness. erewrite mbind_ok; [|reflexivity]. exact Hrun1. }
  assert (Hvalid1 : Forall (fun r => r < length (heap w1)) (pop (this w1))).
  { rewrite Ht1, Hl1. exact Hvalid. }
  destruct (update_loop_scans (maximise (this w1)) (seq 0 (popsize (this w1))) w1 b)
    as (w2 & Hrun2 & Hh2 & Hp2 & Hc2 & Hbest2).
  { rewrite Ht1. exact Hb. }
  { rewrite Hl1. exact Hbv. }
  { apply Forall_forall. intros i Hi. apply in_seq in Hi. rewrite Ht1 in *. lia. }
  { exact Hvalid1. }
  assert (Hupdate : update_best_ever w1 = Ok (tt, w2)).
  { unfold update_best_ever. erewrite mbind_ok; [|reflexivity]. exact Hrun2. }
  rewrite firstn_by_index in Hbest2 by (rewrite Ht1; lia).
  destruct (scan_best (maximise (this w1)) (heap w1)
                      (firstn (popsize (this w1)) (pop (this w1))) b) as (Hwin & _).
  cbv zeta in Hwin.
  set (b' := scan (maximise (this w1)) (heap w1)
                  (firstn (popsize (this w1)) (pop (this w1))) b) in *.
  assert (Hb'v : b' < length (heap w2)).
  { rewrite Hh2. destruct Hwin as [<-|Hwin]; [lia|].
    rewrite Forall_forall in Hvalid1. apply Hvalid1.
    eapply (In_firstn_In _ _ _ Hwin). }
  assert (Hprint : print_statistics w2 = Ok (tt, w2)).
  { unfold print_statistics.
    destruct (nth_error (heap w2) b') as [y|] eqn:Hy;
      [|apply nth_error_None in Hy; lia].
    erewrite mbind_ok;
      [|unfold the_best_ever; erewrite mbind_ok; [|reflexivity];
        rewrite Hbest2; reflexivity].
    erewrite mbind_ok; [|apply deref_ok; exact Hy]. reflexivity. }
  assert (Hpop2 : pop (this w2) = pop (this w)) by congruence.
  assert (Hps2 : popsize (this w2) = popsize (this w)).
  { destruct Hc2 as (_ & _ & _ & Hps & _). congruence. }
  set (parents := filter (fun r => truthy (fitness_at (heap w2) r)) (pop (this w2))).
  assert (Hparents : length parents = 1).
  { unfold parents. rewrite Hpop2, Hh2.
    rewrite <- (firstn_all (pop (this w))) at 1. rewrite Hlen.
    rewrite <- (@firstn_by_index ref 0 (pop (this w)) (popsize (this w)))
      by (rewrite Hlen; apply Nat.le_refl).
    rewrite length_filter_map. rewrite <- Hone. f_equal.
    apply filter_ext_in. intros i Hi. apply in_seq in Hi. f_equal.
    apply Hin1; [apply in_seq; lia|].
    apply nth_error_nth'. lia. }
  assert (Hselect : select_parents w2 = Ok (parents, w2)).
  { unfold select_parents. erewrite mbind_ok; [|reflexivity].
    assert (Hi2 : interactive (this w2) = true).
    { destruct Hc2 as (Hi2 & _). congruence. }
    rewrite Hi2. unfold direct_selection.
    erewrite mbind_ok; [|reflexivity].
    erewrite mbind_ok; [|apply filterM_by_fitness; rewrite Hh2, Hp2; exact Hvalid1].
    fold parents. destruct parents; [discriminate | reflexivity]. }
  unfold tell.
  erewrite mbind_ok; [|exact Hassign].
  erewrite mbind_ok; [|exact Hupdate].
  erewrite mbind_ok; [|exact Hprint].
  erewrite mbind_ok; [|exact Hselect].
  unfold mbind at 1. rewrite create_new_pop_few_parents; try reflexivity; try lia.
  rewrite Hpop2. intros Hnil. rewrite Hnil in Hlen. simpl in Hlen. lia.
Qed.

Lemma tell_with_one_choice_throws_witness :
  tell 20 [1; 0]%Z (after (run 20 [Init]) example_world) = Throw.
Proof.
  apply (tell_with_one_choice_throws 20 [1; 0]%Z (after (run 20 [Init]) example_world) 0).
  - reflexivity.
  - vm_compute. lia.
  - lia.
  - reflexivity.
  - vm_compute. repeat constructor; simpl; intuition discriminate.
  - vm_compute. repeat constructor.
  - reflexivity.
  - vm_compute. lia.
  - reflexivity.
Defined.

(** ** Before [init] *)

(** X21.  Before [init].  On an engine whose population is still empty,
    [ask] returns the empty population; with [popsize >= 1], [tell]
    throws on the first individual it indexes, whatever the fitness list,
    and so does [evolve] when there is at least one generation to run. *)
Theorem calls_before_init :
  forall (fuel : nat) (w : world),
    pop (this w) = [] ->
    1 <= popsize (this w) ->
    ask w = Ok ([], w) /\
    (forall fitvals, tell fuel fitvals w = Throw) /\
    (1 <= ngens (this w) -> evolve fuel w = Throw).
Proof.
  intros fuel w Hempty Hsize.
  assert (Htell : forall fitvals v,
             pop (this v) = [] -> 1 <= popsize (this v) -> tell fuel fitvals v = Throw).
  { intros fitvals v Hv Hs. unfold tell, assign_fitness.
    unfold mbind at 1. unfold mbind at 1. unfold get_this at 1.
    destruct (popsize (this v)) as [|n] eqn:Hn; [lia|].
    simpl. unfold mbind at 1. unfold mbind at 1. unfold pop_at, mbind at 1.
    unfold get_this at 1. rewrite Hv. reflexivity. }
  split; [|split].
  - unfold ask, mbind, get_this, ret. rewrite Hempty. reflexivity.
  - intros fitvals. apply Htell; assumption.
  - intros Hgens. unfold evolve.
    erewrite mbind_ok; [|reflexivity].
    destruct (ngens (this w)) as [|n] eqn:Hn; [lia|].
    unfold mbind at 1. cbn [seq for_each].
    unfold mbind at 1. unfold mbind at 1. unfold assign_gen at 1.
    unfold mbind at 1. unfold ask at 1. unfold mbind at 1, get_this at 1, ret at 1.
    simpl pop. rewrite Hempty. cbn [mapM]. unfold mbind at 1, ret at 1.
    rewrite Htell; [reflexivity| |]; simpl; assumption.
Qed.

Lemma calls_before_init_witness :
  ask example_world = Ok ([], example_world) /\
  (forall fitvals, tell 20 fitvals example_world = Throw) /\
  (1 <= ngens (this example_world) -> evolve 20 example_world = Throw).
Proof.
  apply (calls_before_init 20 example_world).
  - reflexivity.
  - vm_compute. lia.
Defined.


(** ** Elitism *)

(** The first three steps of [tell]: storing the fitness values, the
    scan for the best individual and the statistics. *)
Lemma tell_scores (fitvals : list Z) (w : world) (b : ref) :
  popsize (this w) <= length (pop (this w)) ->
  NoDup (pop (this w)) ->
  Forall (fun r => r < length (heap w)) (pop (this w)) ->
  best_ever (this w) = Some b -> b < length (heap w) ->
  exists w2,
    (forall (B : Type) (k : M B),
        (assign_fitness fitvals ;;; update_best_ever ;;; print_statistics ;;; k) w
        = k w2) /\
    pop (this w2) = pop (this w) /\ same_config (this w) (this w2) /\
    length (heap w2) = length (heap w) /\
    (forall i r, i < popsize (this w) -> nth_error (pop (this w)) i = Some r ->
                 fitness_at (heap w2) r = fitval fitvals i).
Proof.
  intros Hlen Hnodup Hvalid Hb Hbv.
  destruct (assign_loop_writes fitvals (seq 0 (popsize (this w))) w Hnodup)
    as (w1 & Hrun1 & Ht1 & Hl1 & Hin1 & _ & _).
  { apply Forall_forall. intros i Hi. apply in_seq in Hi. lia. }
  { exact Hvalid. }
  assert (Hassign : assign_fitness fitvals w = Ok (tt, w1)).
  { unfold assign_fitness. erewrite mbind_ok; [|reflexivity]. exact Hrun1. }
  assert (Hvalid1 : Forall (fun r => r < length (heap w1)) (pop (this w1))).
  { rewrite Ht1, Hl1. exact Hvalid. }
  destruct (update_loop_scans (maximise (this w1)) (seq 0 (popsize (this w1))) w1 b)
    as (w2 & Hrun2 & Hh2 & Hp2 & Hc2 & Hbest2).
  { rewrite Ht1. exact Hb. }
  { rewrite Hl1. exact Hbv. }
  { apply Forall_forall. intros i Hi. apply in_seq in Hi. rewrite Ht1 in *. lia. }
  { exact Hvalid1. }
  assert (Hupdate : update_best_ever w1 = Ok (tt, w2)).
  { unfold update_best_ever. erewrite mbind_ok; [|reflexivity]. exact Hrun2. }
  rewrite firstn_by_index in Hbest2 by (rewrite Ht1; lia).
  destruct (scan_best (maximise (this w1)) (heap w1)
                      (firstn (popsize (this w1)) (pop (this w1))) b) as (Hwin & _).
  cbv zeta in Hwin.
  set (b' := scan (maximise (this w1)) (heap w1)
                  (firstn (popsize (this w1)) (pop (this w1))) b) in *.
  assert (Hb'v : b' < length (heap w2)).
  { rewrite Hh2. destruct Hwin as [<-|Hwin]; [lia|].
    rewrite Forall_forall in Hvalid1. apply Hvalid1.
    eapply (In_firstn_In _ _ _ Hwin). }
  assert (Hprint : print_statistics w2 = Ok (tt, w2)).
  { unfold print_statistics.
    destruct (nth_error (heap w2) b') as [y|] eqn:Hy;
      [|apply nth_error_None in Hy; lia].
    erewrite mbind_ok;
      [|unfold the_best_ever; erewrite mbind_ok; [|reflexivity];
        rewrite Hbest2; reflexivity].
    erewrite mbind_ok; [|apply deref_ok; exact Hy]. reflexivity. }
  exists w2. split; [|split; [congruence | split; [|split]]].
  - intros B k.
    erewrite mbind_ok; [|exact Hassign].
    erewrite mbind_ok; [|exact Hupdate].
    erewrite mbind_ok; [|exact Hprint]. reflexivity.
  - rewrite <- Ht1. exact Hc2.
  - congruence.
  - intros i r Hi Hr. rewrite Hh2. apply Hin1; [apply in_seq; lia | exact Hr].
Qed.

Lemma select_parents_sorts (w : world) (parents : list ref) (w' : world) :
  interactive (this w) = false ->
  Forall (fun r => r < length (heap w)) (pop (this w)) ->
  select_parents w = Ok (parents, w') ->
  heap w' = heap w /\ pop (this w') = sortBy (rank w) (pop (this w)) /\
  popsize (this w') = popsize (this w).
Proof.
  intros Hauto Hvalid H. unfold select_parents in H.
  erewrite mbind_ok in H; [|reflexivity]. rewrite Hauto in H.
  assert (Hsort : (if maximise (this w) then sort_pop key_fitness
                   else sort_pop key_neg_fitness) w
                  = Ok (sortBy (rank w) (pop (this w)), w)).
  { unfold rank.
    destruct (maximise (this w)); rewrite sort_pop_sorts by assumption; reflexivity. }
  erewrite mbind_ok in H; [|exact Hsort].
  inversion H; subst. simpl. repeat split.
Qed.

(** X22.  Elitism in autonomous mode.  On an autonomous engine with
    [popsize >= 1], a population of [popsize] individuals, none of them
    twice, [best_ever] set and a fitness list of at least [popsize]
    numbers: when [tell] returns, the first individual of the new
    population is an individual [pop[k]] of the old one, it carries the
    fitness [fitvals[k]] it was given, and no fitness among the first
    [popsize] of the list is better than [fitvals[k]] in the direction of
    optimisation. *)
Theorem tell_keeps_the_fittest :
  forall (fuel : nat) (fitvals : list Z) (w w' : world) (b : ref),
    interactive (this w) = false ->
    1 <= popsize (this w) ->
    length (pop (this w)) = popsize (this w) ->
    NoDup (pop (this w)) ->
    Forall (fun r => r < length (heap w)) (pop (this w)) ->
    best_ever (this w) = Some b -> b < length (heap w) ->
    popsize (this w) <= length fitvals ->
    tell fuel fitvals w = Ok (tt, w') ->
    exists (k : nat) (elite : ref) (zk : Z),
      k < popsize (this w) /\
      nth_error (pop (this w)) k = Some elite /\
      nth_error (pop (this w')) 0 = Some elite /\
      nth_error fitvals k = Some zk /\
      fitness_at (heap w') elite = FNum zk /\
      forall i z, i < popsize (this w) -> nth_error fitvals i = Some z ->
                  if maximise (this w) then (z <= zk)%Z else (zk <= z)%Z.
Proof.
  intros fuel fitvals w w' b Hauto Hsize Hlen Hnodup Hvalid Hb Hbv Hfit H.
  destruct (tell_scores fitvals w b) as (w2 & Hrun & Hp2 & Hc2 & Hl2 & Hf2);
    try assumption; [lia|].
  unfold tell in H. rewrite Hrun in H. clear Hrun.
  apply mbind_inv in H. destruct H as (parents & w4 & H4 & H).
  apply mbind_inv in H. destruct H as (newpop & w5 & H5 & H).
  inversion H; subst w'; clear H.
  assert (Hauto2 : interactive (this w2) = false).
  { destruct Hc2 as (Hi & _). congruence. }
  assert (Hmx : maximise (this w2) = maximise (this w)).
  { unfold maximise. destruct Hc2 as (_ & Hfn & _). rewrite Hfn. reflexivity. }
  assert (Hps2 : popsize (this w2) = popsize (this w)) by apply Hc2.
  destruct (select_parents_sorts w2 parents w4 Hauto2) as (Hh4 & Hp4 & Hps4);
    [rewrite Hp2, Hl2; exact Hvalid | exact H4 |].
  destruct (create_new_pop_shape_aux fuel parents newpop w4 w5 H5)
    as (elite & added & Hel & Hnew & _ & Hheap & _).
  { lia. }
  assert (Hperm : Permutation (pop (this w4)) (pop (this w))).
  { rewrite Hp4, <- Hp2. apply sortBy_perm. }
  assert (Hin : In elite (pop (this w))).
  { eapply Permutation_in; [exact Hperm|]. eapply nth_error_In. exact Hel. }
  destruct (In_nth_error _ _ Hin) as (k & Hk).
  assert (Hklt : k < popsize (this w)).
  { rewrite <- Hlen. apply nth_error_Some. congruence. }
  destruct (nth_error fitvals k) as [zk|] eqn:Hzk;
    [|apply nth_error_None in Hzk; lia].
  assert (Hfk : fitness_at (heap w2) elite = FNum zk).
  { rewrite (Hf2 k elite Hklt Hk). unfold fitval. rewrite Hzk. reflexivity. }
  exists k, elite, zk.
  split; [exact Hklt|]. split; [exact Hk|].
  split; [simpl; rewrite Hnew; reflexivity|]. split; [exact Hzk|]. split.
  - simpl. unfold fitness_at in *. rewrite Hheap, Hh4.
    rewrite nth_error_app1; [exact Hfk|].
    rewrite Hl2. rewrite Forall_forall in Hvalid. apply Hvalid. exact Hin.
  - intros i z Hi Hz.
    destruct (nth_error (pop (this w)) i) as [r|] eqn:Hr;
      [|apply nth_error_None in Hr; lia].
    assert (Hfr : fitness_at (heap w2) r = FNum z).
    { rewrite (Hf2 i r Hi Hr). unfold fitval. rewrite Hz. reflexivity. }
    assert (Hrin : In r (pop (this w4))).
    { eapply Permutation_in; [apply Permutation_sym; exact Hperm|].
      eapply nth_error_In. exact Hr. }
    rewrite Hp4 in Hel, Hrin.
    pose proof (sorted_last (rank w2) _ (sortBy_sorted (rank w2) (pop (this w2)))
                            elite Hel r Hrin) as Hle.
    unfold key_le, rank in Hle. rewrite Hfr, Hfk, Hmx in Hle.
    destruct (maximise (this w)); simpl in Hle; apply Z.leb_le in Hle; lia.
Qed.

Lemma tell_keeps_the_fittest_witness :
  let w := after (init 20) example_world_breeding in
  let w' := after (tell 20 [3; 1; 2]%Z) w in
  exists (k : nat) (elite : ref) (zk : Z),
    k < popsize (this w) /\
    nth_error (pop (this w)) k = Some elite /\
    nth_error (pop (this w')) 0 = Some elite /\
    nth_error [3; 1; 2]%Z k = Some zk /\
    fitness_at (heap w') elite = FNum zk /\
    forall i z, i < popsize (this w) -> nth_error [3; 1; 2]%Z i = Some z ->
                if maximise (this w) then (z <= zk)%Z else (zk <= z)%Z.
Proof.
  intros w w'.
  apply (tell_keeps_the_fittest 20 [3; 1; 2]%Z w w' 0).
  - reflexivity.
  - vm_compute. lia.
  - reflexivity.
  - vm_compute. repeat constructor; simpl; intuition discriminate.
  - vm_compute. repeat constructor.
  - reflexivity.
  - vm_compute. lia.
  - vm_compute. lia.
  - vm_compute. reflexivity.
Defined.


(** ** Direct selection and a second [init] *)

(** X23.  [direct_selection] on a population whose individuals are all
    on the heap never throws and changes nothing.  It returns, in the
    order of the population, the individuals whose fitness is a number
    other than 0, and the whole population when there is none (when
    every fitness is 0, [null] or [undefined]). *)
Theorem direct_selection_by_fitness :
  forall w : world,
    Forall (fun r => r < length (heap w)) (pop (this w)) ->
    let chosen := filter (fun r => truthy (fitness_at (heap w) r)) (pop (this w)) in
    direct_selection w = Ok (match chosen with [] => pop (this w) | _ => chosen end, w).
Proof.
  intros w Hvalid. cbv zeta. unfold direct_selection.
  erewrite mbind_ok; [|reflexivity].
  erewrite mbind_ok; [|apply filterM_by_fitness; exact Hvalid].
  reflexivity.
Qed.

Lemma direct_selection_by_fitness_witness :
  let w := after (init 20 ;;; assign_fitness [0; 5]%Z) example_world in
  let chosen := filter (fun r => truthy (fitness_at (heap w) r)) (pop (this w)) in
  direct_selection w = Ok (match chosen with [] => pop (this w) | _ => chosen end, w).
Proof.
  intros w.
  apply (direct_selection_by_fitness w).
  vm_compute. repeat constructor.
Defined.

(** X24.  A second [init] does not draw a new population.  On an engine
    whose population already has [popsize] individuals or more, [init]
    returns for any fuel, creates no individual and draws no random
    number: all it does is to set [best_ever] back to the first
    individual of the population. *)
Theorem init_again_resets_best_ever :
  forall (fuel : nat) (w : world),
    popsize (this w) <= length (pop (this w)) ->
    init fuel w
    = Ok (tt, set_this w (set_best_ever (this w) (nth_error (pop (this w)) 0))).
Proof.
  intros fuel w Hfull. unfold init.
  assert (Hloop : init_loop fuel fuel w = Ok (tt, w)).
  { destruct fuel; simpl; (erewrite mbind_ok; [|reflexivity]);
      destruct (Nat.ltb_spec (length (pop (this w))) (popsize (this w)));
      try lia; reflexivity. }
  erewrite mbind_ok; [|exact Hloop].
  erewrite mbind_ok; [|reflexivity]. reflexivity.
Qed.

Lemma init_again_resets_best_ever_witness :
  let w := after (run 20 [Init; Tell [1; 1]%Z]) example_world in
  best_ever (this w) = Some 1 /\
  init 0 w = Ok (tt, set_this w (set_best_ever (this w) (nth_error (pop (this w)) 0))).
Proof.
  intros w. split; [reflexivity|].
  apply (init_again_resets_best_ever 0 w).
  vm_compute. lia.
Defined.
